(** * homebridge-tuyacam: the Tuya LAN protocol engine

    A shallow embedding of the two protocol classes of the plugin,
    [TuyaDevice] (control connection, tuyaDevice.ts) and
    [TuyaStreamDecoder] (stream connection, tuyaStreamDecoder.ts):
    packet framing, the two CRC routines, the AES-128-ECB payload cipher,
    command/response correlation, timers, and the stream frame scanner.

    Conventions.  A Node [Buffer] is a [list byte].  A JavaScript number
    that holds an integer is a [Z]; the 32-bit coercions of the bitwise
    operators are written out ([ToInt32], [ToUint32]).  A JavaScript
    exception is the [Throw] outcome of [result]. *)

From Stdlib Require Import ZArith Lia List Bool.
From Stdlib Require Import Strings.Byte Strings.String.
From stdpp Require Import base decidable option list gmap pretty.

Local Open Scope Z_scope.
Local Open Scope bool_scope.

(** ** Bytes and buffers *)

Abbreviation Buffer := (list byte).

#[global] Instance byte_eq_decision : EqDecision byte := Byte.byte_eq_dec.

Definition byte_to_Z (b : byte) : Z := Z.of_N (Byte.to_N b).

Definition byte_of_Z (z : Z) : byte :=
  match Byte.of_N (Z.to_N (z mod 256)) with
  | Some b => b
  | None => x00
  end.

(** ** JavaScript errors and outcomes *)

Inductive js_error : Type :=
  | RangeError          (* ERR_OUT_OF_RANGE of Buffer reads and writes *)
  | InvalidKeyLength    (* crypto.createCipheriv / createDecipheriv *)
  | WrongFinalBlockLength
  | BadDecrypt
  | SyntaxError         (* JSON.parse *)
  | TypeError           (* property read on null *)
  | NotConnected        (* new Error('Not connected') *)
  | CommandTimeout.     (* new Error('Command timeout') *)

#[global] Instance js_error_eq_decision : EqDecision js_error.
Proof. solve_decision. Defined.

Inductive result (A : Type) : Type :=
  | Ok (a : A)
  | Throw (e : js_error).
Arguments Ok {A} a.
Arguments Throw {A} e.

#[global] Instance result_ret : MRet result := fun A a => Ok a.
#[global] Instance result_bind : MBind result := fun A B k r =>
  match r with
  | Ok a => k a
  | Throw e => Throw e
  end.

(** ** 32-bit integer operators of JavaScript *)

Module JS.

Definition ToUint32 (z : Z) : Z := z mod 2 ^ 32.

Definition ToInt32 (z : Z) : Z := (z + 2 ^ 31) mod 2 ^ 32 - 2 ^ 31.

(** [a ^ b] *)
Definition xor (a b : Z) : Z := ToInt32 (Z.lxor (ToInt32 a) (ToInt32 b)).

(** [a & b] *)
Definition and (a b : Z) : Z := ToInt32 (Z.land (ToInt32 a) (ToInt32 b)).

(** [~a] *)
Definition not (a : Z) : Z := ToInt32 (Z.lnot (ToInt32 a)).

(** [a >>> n] *)
Definition ushr (a n : Z) : Z := Z.shiftr (ToUint32 a) (n mod 32).

End JS.

(** ** Buffer primitives *)

(** The four bytes [buf.writeUInt32BE] stores for a value in range. *)
Definition uint32BE (v : Z) : Buffer :=
  [ byte_of_Z (Z.shiftr v 24); byte_of_Z (Z.shiftr v 16);
    byte_of_Z (Z.shiftr v 8); byte_of_Z v ].

(** [const b = Buffer.alloc(4); b.writeUInt32BE(v)]: a [RangeError] unless
    [0 <= v <= 2^32 - 1]. *)
Definition writeUInt32BE (v : Z) : result Buffer :=
  if (0 <=? v) && (v <=? 0xFFFFFFFF) then Ok (uint32BE v) else Throw RangeError.

(** [buf.readUInt32BE(off)]: a [RangeError] unless the four bytes at [off]
    lie inside the buffer. *)
Definition readUInt32BE (buf : Buffer) (off : nat) : result Z :=
  match drop off buf with
  | b0 :: b1 :: b2 :: b3 :: _ =>
      Ok (byte_to_Z b0 * 2 ^ 24 + byte_to_Z b1 * 2 ^ 16
          + byte_to_Z b2 * 2 ^ 8 + byte_to_Z b3)
  | _ => Throw RangeError
  end.

(** [buf.length] as a JavaScript number. *)
Definition blen (buf : Buffer) : Z := Z.of_nat (length buf).

(** An index argument of [buf.slice]: negative counts from the end, and the
    result is clamped to the buffer. *)
Definition slice_index (len i : Z) : Z :=
  if i <? 0 then Z.max 0 (len + i) else Z.min i len.

(** [buf.slice(start, end)] *)
Definition slice (buf : Buffer) (start stop : Z) : Buffer :=
  let s := slice_index (blen buf) start in
  let e := slice_index (blen buf) stop in
  take (Z.to_nat (e - s)) (drop (Z.to_nat s) buf).

(** [buf.slice(start)] *)
Definition slice_from (buf : Buffer) (start : Z) : Buffer :=
  slice buf start (blen buf).

(** [Buffer.from('000055aa', 'hex')] and [Buffer.from('0000aa55', 'hex')] *)
Definition magic_header : Buffer := [x00; x00; x55; xaa].
Definition magic_footer : Buffer := [x00; x00; xaa; x55].

(** [buf.toString('hex').startsWith('000055aa')], which is also
    [buf.toString('hex', 0, 4) === '000055aa'] on a buffer of four bytes or
    more. *)
Definition starts_with_magic (buf : Buffer) : bool :=
  bool_decide (take 4 buf = magic_header).

(** [buf.indexOf(needle, from)] for [0 <= from]: the least index [i >= from]
    at which [needle] occurs, or [-1]. *)
Fixpoint indexOf_at (needle hay : Buffer) (i : Z) : Z :=
  match hay with
  | [] => -1
  | _ :: rest =>
      if bool_decide (take (length needle) hay = needle) then i
      else indexOf_at needle rest (i + 1)
  end.

Definition indexOf (buf needle : Buffer) (from : nat) : Z :=
  indexOf_at needle (drop from buf) (Z.of_nat from).

(** ** Checksum engine *)

Module CRC.

Definition poly : Z := 0xEDB88320.

(** *** [TuyaDevice.calculateCRC] (bit by bit) *)

(** One turn of the inner loop: [if (crc & 1) crc = (crc >>> 1) ^ poly;
    else crc = crc >>> 1]. *)
Definition crc_bit (crc : Z) : Z :=
  if JS.and crc 1 =? 0 then JS.ushr crc 1
  else JS.xor (JS.ushr crc 1) poly.

(** One turn of the outer loop: [crc ^= byte] and eight inner turns. *)
Definition crc_byte (crc : Z) (b : byte) : Z :=
  Nat.iter 8 crc_bit (JS.xor crc (byte_to_Z b)).

Definition calculateCRC (data : Buffer) : result Buffer :=
  let crc := fold_left crc_byte data 0xFFFFFFFF in
  let crc := JS.ushr (JS.not crc) 0 in
  writeUInt32BE crc.

(** *** [TuyaStreamDecoder.calculateCRC32] (table driven) *)

(** The inner loop of [getCRCTable]:
    [c = (c & 1) ? (poly ^ (c >>> 1)) : (c >>> 1)]. *)
Definition table_bit (c : Z) : Z :=
  if JS.and c 1 =? 0 then JS.ushr c 1
  else JS.xor poly (JS.ushr c 1).

Definition table_entry (i : Z) : Z := Nat.iter 8 table_bit i.

Definition getCRCTable : list Z :=
  map (fun i => table_entry (Z.of_nat i)) (seq 0 256).

(** [table[i]]; an index outside the array reads [undefined], which the
    bitwise operators coerce to 0. *)
Definition table_get (table : list Z) (i : Z) : Z :=
  if i <? 0 then 0 else nth (Z.to_nat i) table 0.

Definition crc32_byte (table : list Z) (crc : Z) (b : byte) : Z :=
  JS.xor (JS.ushr crc 8)
         (table_get table (JS.and (JS.xor crc (byte_to_Z b)) 0xFF)).

Definition calculateCRC32 (data : Buffer) : result Buffer :=
  let table := getCRCTable in
  let crc := fold_left (crc32_byte table) data 0xFFFFFFFF in
  let crc := JS.ushr (JS.not crc) 0 in
  writeUInt32BE crc.

(** *** CRC-32/ISO-HDLC, as the specification words it

    Reflected polynomial 0xEDB88320, initial value 0xFFFFFFFF, final
    XOR 0xFFFFFFFF, on unsigned 32-bit registers. *)

Definition ref_bit (r : Z) : Z :=
  if Z.odd r then Z.lxor (Z.shiftr r 1) poly else Z.shiftr r 1.

Definition ref_byte (r : Z) (b : byte) : Z :=
  Nat.iter 8 ref_bit (Z.lxor r (byte_to_Z b)).

Definition crc32_iso_hdlc (data : Buffer) : Z :=
  Z.lxor (fold_left ref_byte data 0xFFFFFFFF) 0xFFFFFFFF.

(** The check input of the CRC catalogue, ASCII 123456789. *)
Definition check_ascii : Buffer := [x31; x32; x33; x34; x35; x36; x37; x38; x39].

End CRC.


(** ** Cipher layer

    The plugin calls Node's [crypto] module; the block primitive and the
    digest are library code and enter as the fields of a class.  What
    [createCipheriv('aes-128-ecb', key, Buffer.alloc(0))] adds around the
    block primitive (key-length check, PKCS#7 padding, block chaining
    without feedback) is written out. *)

Class NodeCrypto : Type := {
  (** AES-128 on one 16-byte block, key first. *)
  aes128_encrypt_block : Buffer -> Buffer -> Buffer;
  aes128_decrypt_block : Buffer -> Buffer -> Buffer;
  (** [crypto.createHash('md5').update(m).digest()] *)
  md5_digest : Buffer -> Buffer;
}.

(** The contract of the library primitives. *)
Class NodeCryptoLaws (C : NodeCrypto) : Prop := {
  aes128_encrypt_block_length k b :
    length b = 16%nat -> length (aes128_encrypt_block k b) = 16%nat;
  aes128_decrypt_encrypt_block k b :
    length k = 16%nat -> length b = 16%nat ->
    aes128_decrypt_block k (aes128_encrypt_block k b) = b;
  md5_digest_length m : length (md5_digest m) = 16%nat;
}.

Module Cipher.

(** PKCS#7: between 1 and 16 bytes, each holding the pad length. *)
Definition pkcs7_pad (plain : Buffer) : Buffer :=
  let n := (16 - length plain mod 16)%nat in
  plain ++ replicate n (byte_of_Z (Z.of_nat n)).

(** Padding removal of [decipher.final()]: the last byte [n] must be in
    [1..16] and the last [n] bytes must all be [n]. *)
Definition pkcs7_unpad (padded : Buffer) : result Buffer :=
  match last padded with
  | None => Throw WrongFinalBlockLength
  | Some b =>
      let n := Z.to_nat (byte_to_Z b) in
      if bool_decide (n = 0%nat) || bool_decide (16 < n)%nat then Throw BadDecrypt
      else if bool_decide (drop (length padded - n) padded = replicate n b)
           then Ok (take (length padded - n) padded)
           else Throw BadDecrypt
  end.

(** Electronic codebook: [f] on each of the first [blocks] 16-byte blocks. *)
Fixpoint ecb_blocks (blocks : nat) (f : Buffer -> Buffer) (data : Buffer) : Buffer :=
  match blocks with
  | O => []
  | S k => f (take 16 data) ++ ecb_blocks k f (drop 16 data)
  end.

Definition ecb (f : Buffer -> Buffer) (data : Buffer) : Buffer :=
  ecb_blocks (length data / 16) f data.

Section with_crypto.
Context `{NodeCrypto}.

(** [c = createCipheriv('aes-128-ecb', key, iv);
    Buffer.concat([c.update(plain), c.final()])] *)
Definition aes_128_ecb_encrypt (key plain : Buffer) : result Buffer :=
  if bool_decide (length key = 16%nat)
  then Ok (ecb (aes128_encrypt_block key) (pkcs7_pad plain))
  else Throw InvalidKeyLength.

(** [d = createDecipheriv('aes-128-ecb', key, iv);
    Buffer.concat([d.update(data), d.final()])] *)
Definition aes_128_ecb_decrypt (key data : Buffer) : result Buffer :=
  if bool_decide (length key = 16%nat)
  then
    if bool_decide (data = []) || negb (bool_decide (length data mod 16 = 0)%nat)
    then Throw WrongFinalBlockLength
    else pkcs7_unpad (ecb (aes128_decrypt_block key) data)
  else Throw InvalidKeyLength.

End with_crypto.

End Cipher.

(** ** JavaScript values of decoded payloads *)

(** What [JSON.parse] returns, and [undefined] for a missing property.
    Numbers are kept as integers: the protocol code does no arithmetic on
    payload numbers and only tests a number for truthiness. *)
#[warnings="-register-all"]
Inductive jsvalue : Type :=
  | VUndefined
  | VNull
  | VBool (b : bool)
  | VNum (n : Z)
  | VStr (s : string)
  | VArr (items : list jsvalue)
  | VObj (fields : list (string * jsvalue)).

Module Value.

(** Own property of an object by key; the first binding wins. *)
Fixpoint field (key : string) (fields : list (string * jsvalue)) : jsvalue :=
  match fields with
  | [] => VUndefined
  | (k, v) :: rest => if String.eqb k key then v else field key rest
  end.

(** [{...fields, key: v}]: an existing key keeps its position. *)
Fixpoint set_field (key : string) (v : jsvalue) (fields : list (string * jsvalue))
  : list (string * jsvalue) :=
  match fields with
  | [] => [(key, v)]
  | (k, w) :: rest =>
      if String.eqb k key then (k, v) :: rest
      else (k, w) :: set_field key v rest
  end.

(** [{...base, ...extra}] *)
Definition spread (base extra : list (string * jsvalue)) : list (string * jsvalue) :=
  fold_left (fun acc kv => set_field kv.1 kv.2 acc) extra base.

(** Truthiness, as [&&] and [if] test it. *)
Definition truthy (v : jsvalue) : bool :=
  match v with
  | VUndefined | VNull => false
  | VBool b => b
  | VNum n => negb (n =? 0)
  | VStr s => negb (String.eqb s EmptyString)
  | VArr _ | VObj _ => true
  end.

(** [v.name] for a property name that is not an array index. *)
Definition get_named (v : jsvalue) (name : string) : result jsvalue :=
  match v with
  | VUndefined | VNull => Throw TypeError
  | VObj fields => Ok (field name fields)
  | _ => Ok VUndefined
  end.

(** [v[i]] for an integer key [i >= 0], whose decimal spelling is
    [name]: an object is read by the key's spelling, an array by
    position, a string by character. *)
Definition get_index (v : jsvalue) (i : nat) (name : string) : result jsvalue :=
  match v with
  | VUndefined | VNull => Throw TypeError
  | VObj fields => Ok (field name fields)
  | VArr items => Ok (nth i items VUndefined)
  | VStr s =>
      Ok (match String.get i s with
          | Some c => VStr (String c EmptyString)
          | None => VUndefined
          end)
  | _ => Ok VUndefined
  end.

Definition is_undefined (v : jsvalue) : bool :=
  match v with
  | VUndefined => true
  | _ => false
  end.

End Value.

(** A JavaScript string as its UTF-16 code units. *)
Abbreviation jsstring := (list Z).

(** Text functions of the runtime that the protocol code calls: library
    code, taken as given. *)
Class NodeText : Type := {
  (** [buf.toString()] (UTF-8 decoding) *)
  utf8_toString : Buffer -> jsstring;
  (** [JSON.parse(s)], which throws a [SyntaxError] on malformed text *)
  JSON_parse : jsstring -> result jsvalue;
  (** [Buffer.from(JSON.stringify(v))] *)
  JSON_stringify_utf8 : jsvalue -> Buffer;
  (** [n.toString()] for an integer [n] *)
  number_toString : Z -> string;
}.

(** ** The library primitives, executable

    AES-128 on one block as FIPS 197 defines it and MD5 as RFC 1321
    defines it, so that the protocol code can be run on concrete frames.
    They instantiate [NodeCrypto]; the known-answer vectors of both
    documents are checked in Part II. *)

Module AES.

(** Every byte, for checks by enumeration. *)
Definition all_bytes : list byte :=
  map (fun n => byte_of_Z (Z.of_nat n)) (seq 0 256).

(** Addition in GF(2^8). *)
Definition bxor (a b : byte) : byte :=
  byte_of_Z (Z.lxor (byte_to_Z a) (byte_to_Z b)).

(** Multiplication by x modulo x^8 + x^4 + x^3 + x + 1. *)
Definition xtime (a : byte) : byte :=
  let z := 2 * byte_to_Z a in
  byte_of_Z (if z <? 256 then z else Z.lxor z 0x11b).

Definition mul2 (a : byte) : byte := xtime a.
Definition mul3 (a : byte) : byte := bxor (xtime a) a.
Definition mul9 (a : byte) : byte := bxor (xtime (xtime (xtime a))) a.
Definition mul11 (a : byte) : byte :=
  bxor (xtime (bxor (xtime (xtime a)) a)) a.
Definition mul13 (a : byte) : byte :=
  bxor (xtime (xtime (bxor (xtime a) a))) a.
Definition mul14 (a : byte) : byte :=
  xtime (bxor (xtime (bxor (xtime a) a)) a).

Definition sbox_table : list byte :=
  [
    x63; x7c; x77; x7b; xf2; x6b; x6f; xc5; x30; x01; x67; x2b; xfe; xd7; xab; x76;
    xca; x82; xc9; x7d; xfa; x59; x47; xf0; xad; xd4; xa2; xaf; x9c; xa4; x72; xc0;
    xb7; xfd; x93; x26; x36; x3f; xf7; xcc; x34; xa5; xe5; xf1; x71; xd8; x31; x15;
    x04; xc7; x23; xc3; x18; x96; x05; x9a; x07; x12; x80; xe2; xeb; x27; xb2; x75;
    x09; x83; x2c; x1a; x1b; x6e; x5a; xa0; x52; x3b; xd6; xb3; x29; xe3; x2f; x84;
    x53; xd1; x00; xed; x20; xfc; xb1; x5b; x6a; xcb; xbe; x39; x4a; x4c; x58; xcf;
    xd0; xef; xaa; xfb; x43; x4d; x33; x85; x45; xf9; x02; x7f; x50; x3c; x9f; xa8;
    x51; xa3; x40; x8f; x92; x9d; x38; xf5; xbc; xb6; xda; x21; x10; xff; xf3; xd2;
    xcd; x0c; x13; xec; x5f; x97; x44; x17; xc4; xa7; x7e; x3d; x64; x5d; x19; x73;
    x60; x81; x4f; xdc; x22; x2a; x90; x88; x46; xee; xb8; x14; xde; x5e; x0b; xdb;
    xe0; x32; x3a; x0a; x49; x06; x24; x5c; xc2; xd3; xac; x62; x91; x95; xe4; x79;
    xe7; xc8; x37; x6d; x8d; xd5; x4e; xa9; x6c; x56; xf4; xea; x65; x7a; xae; x08;
    xba; x78; x25; x2e; x1c; xa6; xb4; xc6; xe8; xdd; x74; x1f; x4b; xbd; x8b; x8a;
    x70; x3e; xb5; x66; x48; x03; xf6; x0e; x61; x35; x57; xb9; x86; xc1; x1d; x9e;
    xe1; xf8; x98; x11; x69; xd9; x8e; x94; x9b; x1e; x87; xe9; xce; x55; x28; xdf;
    x8c; xa1; x89; x0d; xbf; xe6; x42; x68; x41; x99; x2d; x0f; xb0; x54; xbb; x16 ].

Definition inv_sbox_table : list byte :=
  [
    x52; x09; x6a; xd5; x30; x36; xa5; x38; xbf; x40; xa3; x9e; x81; xf3; xd7; xfb;
    x7c; xe3; x39; x82; x9b; x2f; xff; x87; x34; x8e; x43; x44; xc4; xde; xe9; xcb;
    x54; x7b; x94; x32; xa6; xc2; x23; x3d; xee; x4c; x95; x0b; x42; xfa; xc3; x4e;
    x08; x2e; xa1; x66; x28; xd9; x24; xb2; x76; x5b; xa2; x49; x6d; x8b; xd1; x25;
    x72; xf8; xf6; x64; x86; x68; x98; x16; xd4; xa4; x5c; xcc; x5d; x65; xb6; x92;
    x6c; x70; x48; x50; xfd; xed; xb9; xda; x5e; x15; x46; x57; xa7; x8d; x9d; x84;
    x90; xd8; xab; x00; x8c; xbc; xd3; x0a; xf7; xe4; x58; x05; xb8; xb3; x45; x06;
    xd0; x2c; x1e; x8f; xca; x3f; x0f; x02; xc1; xaf; xbd; x03; x01; x13; x8a; x6b;
    x3a; x91; x11; x41; x4f; x67; xdc; xea; x97; xf2; xcf; xce; xf0; xb4; xe6; x73;
    x96; xac; x74; x22; xe7; xad; x35; x85; xe2; xf9; x37; xe8; x1c; x75; xdf; x6e;
    x47; xf1; x1a; x71; x1d; x29; xc5; x89; x6f; xb7; x62; x0e; xaa; x18; xbe; x1b;
    xfc; x56; x3e; x4b; xc6; xd2; x79; x20; x9a; xdb; xc0; xfe; x78; xcd; x5a; xf4;
    x1f; xdd; xa8; x33; x88; x07; xc7; x31; xb1; x12; x10; x59; x27; x80; xec; x5f;
    x60; x51; x7f; xa9; x19; xb5; x4a; x0d; x2d; xe5; x7a; x9f; x93; xc9; x9c; xef;
    xa0; xe0; x3b; x4d; xae; x2a; xf5; xb0; xc8; xeb; xbb; x3c; x83; x53; x99; x61;
    x17; x2b; x04; x7e; xba; x77; xd6; x26; xe1; x69; x14; x63; x55; x21; x0c; x7d ].

Definition sbox (a : byte) : byte := nth (Byte.to_nat a) sbox_table x00.
Definition inv_sbox (a : byte) : byte := nth (Byte.to_nat a) inv_sbox_table x00.

(** The state is the block itself, column after column. *)
Definition sub_bytes (s : Buffer) : Buffer := map sbox s.
Definition inv_sub_bytes (s : Buffer) : Buffer := map inv_sbox s.

Definition pick (s : Buffer) (indices : list nat) : Buffer :=
  map (fun i => nth i s x00) indices.

Definition shift_rows (s : Buffer) : Buffer :=
  pick s [0; 5; 10; 15; 4; 9; 14; 3; 8; 13; 2; 7; 12; 1; 6; 11]%nat.

Definition inv_shift_rows (s : Buffer) : Buffer :=
  pick s [0; 13; 10; 7; 4; 1; 14; 11; 8; 5; 2; 15; 12; 9; 6; 3]%nat.

Definition sum4 (w x y z : byte) : byte := bxor (bxor w x) (bxor y z).

Definition mix_column (a b c d : byte) : Buffer :=
  [ sum4 (mul2 a) (mul3 b) c d;
    sum4 a (mul2 b) (mul3 c) d;
    sum4 a b (mul2 c) (mul3 d);
    sum4 (mul3 a) b c (mul2 d) ].

Definition inv_mix_column (a b c d : byte) : Buffer :=
  [ sum4 (mul14 a) (mul11 b) (mul13 c) (mul9 d);
    sum4 (mul9 a) (mul14 b) (mul11 c) (mul13 d);
    sum4 (mul13 a) (mul9 b) (mul14 c) (mul11 d);
    sum4 (mul11 a) (mul13 b) (mul9 c) (mul14 d) ].

Definition columns (f : byte -> byte -> byte -> byte -> Buffer) (s : Buffer) : Buffer :=
  match s with
  | [a0; a1; a2; a3; b0; b1; b2; b3; c0; c1; c2; c3; d0; d1; d2; d3] =>
      f a0 a1 a2 a3 ++ f b0 b1 b2 b3 ++ f c0 c1 c2 c3 ++ f d0 d1 d2 d3
  | _ => s
  end.

Definition mix_columns : Buffer -> Buffer := columns mix_column.
Definition inv_mix_columns : Buffer -> Buffer := columns inv_mix_column.

Definition add_round_key (s key : Buffer) : Buffer :=
  imap (fun i a => bxor a (nth i key x00)) s.

(** Key expansion, on 4-byte words. *)
Definition word_xor (u v : Buffer) : Buffer :=
  imap (fun i a => bxor a (nth i v x00)) u.

Definition rot_word (w : Buffer) : Buffer :=
  match w with
  | a :: rest => rest ++ [a]
  | [] => []
  end.

Definition rcon : list byte := [x01; x02; x04; x08; x10; x20; x40; x80; x1b; x36].

(** The round key after [prev], for round [r] (counted from 0). *)
Definition next_round_key (prev : Buffer) (r : nat) : Buffer :=
  let w0 := take 4 prev in
  let w1 := take 4 (drop 4 prev) in
  let w2 := take 4 (drop 8 prev) in
  let w3 := take 4 (drop 12 prev) in
  let t := word_xor (map sbox (rot_word w3)) [nth r rcon x00; x00; x00; x00] in
  let n0 := word_xor w0 t in
  let n1 := word_xor w1 n0 in
  let n2 := word_xor w2 n1 in
  let n3 := word_xor w3 n2 in
  n0 ++ n1 ++ n2 ++ n3.

(** The ten round keys that follow the cipher key. *)
Fixpoint later_keys (prev : Buffer) (r rounds : nat) : list Buffer :=
  match rounds with
  | O => []
  | S rounds' =>
      let k := next_round_key prev r in
      k :: later_keys k (S r) rounds'
  end.

Definition round (s key : Buffer) : Buffer :=
  add_round_key (mix_columns (shift_rows (sub_bytes s))) key.

Definition last_round (s key : Buffer) : Buffer :=
  add_round_key (shift_rows (sub_bytes s)) key.

Definition inv_round (s key : Buffer) : Buffer :=
  inv_sub_bytes (inv_shift_rows (inv_mix_columns (add_round_key s key))).

Definition inv_last_round (s key : Buffer) : Buffer :=
  inv_sub_bytes (inv_shift_rows (add_round_key s key)).

(** Cipher: the key, nine full rounds, the last round. *)
Definition encrypt_block (key block : Buffer) : Buffer :=
  let ks := later_keys key 0 10 in
  last_round (fold_left round (take 9 ks) (add_round_key block key))
             (nth 9 ks []).

(** Inverse cipher: the rounds undone, last first. *)
Definition decrypt_block (key block : Buffer) : Buffer :=
  let ks := later_keys key 0 10 in
  add_round_key
    (fold_right (fun k s => inv_round s k) (inv_last_round block (nth 9 ks []))
                (take 9 ks))
    key.

End AES.

Module MD5.

Definition add32 (a b : Z) : Z := (a + b) mod 2 ^ 32.

Definition rotl32 (x : Z) (n : Z) : Z :=
  Z.lor (Z.shiftl x n mod 2 ^ 32) (Z.shiftr x (32 - n)).

Definition not32 (x : Z) : Z := Z.lxor x 0xFFFFFFFF.

Definition K : list Z :=
  [
    0xd76aa478; 0xe8c7b756; 0x242070db; 0xc1bdceee;
    0xf57c0faf; 0x4787c62a; 0xa8304613; 0xfd469501;
    0x698098d8; 0x8b44f7af; 0xffff5bb1; 0x895cd7be;
    0x6b901122; 0xfd987193; 0xa679438e; 0x49b40821;
    0xf61e2562; 0xc040b340; 0x265e5a51; 0xe9b6c7aa;
    0xd62f105d; 0x02441453; 0xd8a1e681; 0xe7d3fbc8;
    0x21e1cde6; 0xc33707d6; 0xf4d50d87; 0x455a14ed;
    0xa9e3e905; 0xfcefa3f8; 0x676f02d9; 0x8d2a4c8a;
    0xfffa3942; 0x8771f681; 0x6d9d6122; 0xfde5380c;
    0xa4beea44; 0x4bdecfa9; 0xf6bb4b60; 0xbebfbc70;
    0x289b7ec6; 0xeaa127fa; 0xd4ef3085; 0x04881d05;
    0xd9d4d039; 0xe6db99e5; 0x1fa27cf8; 0xc4ac5665;
    0xf4292244; 0x432aff97; 0xab9423a7; 0xfc93a039;
    0x655b59c3; 0x8f0ccc92; 0xffeff47d; 0x85845dd1;
    0x6fa87e4f; 0xfe2ce6e0; 0xa3014314; 0x4e0811a1;
    0xf7537e82; 0xbd3af235; 0x2ad7d2bb; 0xeb86d391 ].

Definition S : list Z :=
  [ 7; 12; 17; 22; 7; 12; 17; 22; 7; 12; 17; 22; 7; 12; 17; 22;
    5; 9; 14; 20; 5; 9; 14; 20; 5; 9; 14; 20; 5; 9; 14; 20;
    4; 11; 16; 23; 4; 11; 16; 23; 4; 11; 16; 23; 4; 11; 16; 23;
    6; 10; 15; 21; 6; 10; 15; 21; 6; 10; 15; 21; 6; 10; 15; 21 ].

(** A little-endian 32-bit word from four bytes, and back. *)
Definition word_of_bytes (b : Buffer) : Z :=
  byte_to_Z (nth 0 b x00) + byte_to_Z (nth 1 b x00) * 2 ^ 8
  + byte_to_Z (nth 2 b x00) * 2 ^ 16 + byte_to_Z (nth 3 b x00) * 2 ^ 24.

Definition bytes_of_word (w : Z) : Buffer :=
  [ byte_of_Z w; byte_of_Z (Z.shiftr w 8);
    byte_of_Z (Z.shiftr w 16); byte_of_Z (Z.shiftr w 24) ].

(** The message, a 1 bit, zeros up to 56 modulo 64, and the bit length
    on 8 bytes. *)
Definition pad (m : Buffer) : Buffer :=
  let zeros := ((119 - length m mod 64) mod 64)%nat in
  let bits := 8 * Z.of_nat (length m) in
  m ++ [x80] ++ replicate zeros x00
    ++ bytes_of_word (bits mod 2 ^ 32) ++ bytes_of_word (Z.shiftr bits 32 mod 2 ^ 32).

Record registers : Type := Registers { ra : Z; rb : Z; rc : Z; rd : Z }.

Definition step (block : Buffer) (r : registers) (i : nat) : registers :=
  let '(Registers a b c d) := r in
  let '(f, g) :=
    if (i <? 16)%nat then (Z.lor (Z.land b c) (Z.land (not32 b) d), i)
    else if (i <? 32)%nat then (Z.lor (Z.land d b) (Z.land (not32 d) c), (5 * i + 1) mod 16)%nat
    else if (i <? 48)%nat then (Z.lxor (Z.lxor b c) d, (3 * i + 5) mod 16)%nat
    else (Z.lxor c (Z.lor b (not32 d)), (7 * i) mod 16)%nat in
  let m := word_of_bytes (take 4 (drop (4 * g) block)) in
  let f := add32 (add32 (add32 f a) (nth i K 0)) m in
  Registers d (add32 b (rotl32 f (nth i S 0))) b c.

Definition compress (r : registers) (block : Buffer) : registers :=
  let r' := fold_left (step block) (seq 0 64) r in
  Registers (add32 (ra r) (ra r')) (add32 (rb r) (rb r'))
            (add32 (rc r) (rc r')) (add32 (rd r) (rd r')).

Fixpoint blocks (n : nat) (r : registers) (m : Buffer) : registers :=
  match n with
  | O => r
  | Datatypes.S n' => blocks n' (compress r (take 64 m)) (drop 64 m)
  end.

Definition digest (m : Buffer) : Buffer :=
  let p := pad m in
  let r := blocks (length p / 64) (Registers 0x67452301 0xefcdab89 0x98badcfe 0x10325476) p in
  bytes_of_word (ra r) ++ bytes_of_word (rb r)
    ++ bytes_of_word (rc r) ++ bytes_of_word (rd r).

End MD5.

(** Bytes from their values, for test vectors. *)
Definition hex (digits : list Z) : Buffer := map byte_of_Z digits.

(** Node's [crypto], as far as the plugin uses it. *)
#[global] Instance node_crypto : NodeCrypto := {|
  aes128_encrypt_block := AES.encrypt_block;
  aes128_decrypt_block := AES.decrypt_block;
  md5_digest := MD5.digest;
|}.

(** ** The text functions, executable

    Stand-ins for the runtime's [JSON] and UTF-8 functions on the values
    modelled here, so that the protocol code can be run on concrete
    payloads.  The parser accepts the JSON texts whose numbers are
    integers; text is decoded one byte to one character below 0x80 and
    to U+FFFD above (device payloads are ASCII).  No property below
    depends on them: the theorems hold for any [NodeText]. *)

Module Text.

Definition quote : Z := 34.       (* the double quote *)
Definition backslash : Z := 92.

Definition unit_of_byte (b : byte) : Z :=
  if byte_to_Z b <? 128 then byte_to_Z b else 0xFFFD.

Definition decode (buf : Buffer) : jsstring := map unit_of_byte buf.

Definition bytes_of_string (s : string) : Buffer := list_byte_of_string s.

(** JSON text written with ' for the double quote. *)
Definition json_text (s : string) : Buffer :=
  map (fun b => if bool_decide (b = x27) then x22 else b) (bytes_of_string s).

(** *** [JSON.stringify] *)

Definition hex_digit (n : Z) : byte :=
  byte_of_Z (if n <? 10 then 48 + n else 87 + n).

Definition escape_byte (b : byte) : Buffer :=
  let z := byte_to_Z b in
  if z =? quote then [x5c; x22]
  else if z =? backslash then [x5c; x5c]
  else if z =? 8 then [x5c; x62]
  else if z =? 9 then [x5c; x74]
  else if z =? 10 then [x5c; x6e]
  else if z =? 12 then [x5c; x66]
  else if z =? 13 then [x5c; x72]
  else if z <? 32 then [x5c; x75; x30; x30; hex_digit (z / 16); hex_digit (z mod 16)]
  else [b].

Definition quoted (s : string) : Buffer :=
  [x22] ++ concat (map escape_byte (bytes_of_string s)) ++ [x22].

Fixpoint join (sep : Buffer) (parts : list Buffer) : Buffer :=
  match parts with
  | [] => []
  | [p] => p
  | p :: rest => p ++ sep ++ join sep rest
  end.

(** An [undefined] member of an object is left out; an [undefined] item
    of an array is written [null]. *)
Fixpoint stringify (v : jsvalue) : Buffer :=
  match v with
  | VUndefined | VNull => bytes_of_string "null"
  | VBool true => bytes_of_string "true"
  | VBool false => bytes_of_string "false"
  | VNum n => bytes_of_string (pretty n)
  | VStr s => quoted s
  | VArr items => [x5b] ++ join [x2c] (map stringify items) ++ [x5d]
  | VObj fields =>
      [x7b]
      ++ join [x2c]
           ((fix members (fs : list (string * jsvalue)) : list Buffer :=
               match fs with
               | [] => []
               | (k, VUndefined) :: rest => members rest
               | (k, w) :: rest => (quoted k ++ [x3a] ++ stringify w) :: members rest
               end) fields)
      ++ [x7d]
  end.

(** *** [JSON.parse] *)

Definition is_space (c : Z) : bool :=
  (c =? 32) || (c =? 9) || (c =? 10) || (c =? 13).

Definition is_digit (c : Z) : bool := (48 <=? c) && (c <=? 57).

Fixpoint skip_space (s : jsstring) : jsstring :=
  match s with
  | c :: rest => if is_space c then skip_space rest else s
  | [] => []
  end.

Fixpoint digits (acc : Z) (s : jsstring) : Z * jsstring :=
  match s with
  | c :: rest => if is_digit c then digits (10 * acc + (c - 48)) rest else (acc, s)
  | [] => (acc, [])
  end.

Definition hex_value (c : Z) : option Z :=
  if is_digit c then Some (c - 48)
  else if (97 <=? c) && (c <=? 102) then Some (c - 87)
  else if (65 <=? c) && (c <=? 70) then Some (c - 55)
  else None.

(** A code unit as the bytes of a model string (UTF-8, unit by unit). *)
Definition bytes_of_unit (c : Z) : Buffer :=
  if c <? 0x80 then [byte_of_Z c]
  else if c <? 0x800 then [byte_of_Z (0xC0 + c / 64); byte_of_Z (0x80 + c mod 64)]
  else [byte_of_Z (0xE0 + c / 4096); byte_of_Z (0x80 + (c / 64) mod 64);
        byte_of_Z (0x80 + c mod 64)].

(** The characters of a string literal after its opening quote. *)
Fixpoint string_body (fuel : nat) (acc : Buffer) (s : jsstring)
  : option (string * jsstring) :=
  match fuel with
  | O => None
  | S fuel' =>
      match s with
      | [] => None
      | c :: rest =>
          if c =? quote then Some (string_of_list_byte acc, rest)
          else if c <? 32 then None
          else if c =? backslash then
            match rest with
            | e :: rest' =>
                if e =? 117 then                      (* \uXXXX *)
                  match rest' with
                  | h3 :: h2 :: h1 :: h0 :: rest'' =>
                      match hex_value h3, hex_value h2, hex_value h1, hex_value h0 with
                      | Some a, Some b, Some c', Some d =>
                          string_body fuel'
                            (acc ++ bytes_of_unit (((a * 16 + b) * 16 + c') * 16 + d)) rest''
                      | _, _, _, _ => None
                      end
                  | _ => None
                  end
                else
                  let plain x := string_body fuel' (acc ++ [byte_of_Z x]) rest' in
                  if e =? quote then plain quote
                  else if e =? backslash then plain backslash
                  else if e =? 47 then plain 47
                  else if e =? 98 then plain 8
                  else if e =? 102 then plain 12
                  else if e =? 110 then plain 10
                  else if e =? 114 then plain 13
                  else if e =? 116 then plain 9
                  else None
            | [] => None
            end
          else string_body fuel' (acc ++ bytes_of_unit c) rest
      end
  end.

Definition literal (word : string) (v : jsvalue) (s : jsstring)
  : option (jsvalue * jsstring) :=
  let w := map byte_to_Z (bytes_of_string word) in
  if bool_decide (take (length w) s = w) then Some (v, drop (length w) s) else None.

(** A number; a fraction or an exponent is outside the modelled values. *)
Definition number (s : jsstring) : option (jsvalue * jsstring) :=
  let '(neg, s1) := match s with
                    | 45 :: rest => (true, rest)
                    | _ => (false, s)
                    end in
  match s1 with
  | d :: rest =>
      if is_digit d then
        if (d =? 48) && match rest with
                        | d' :: _ => is_digit d'
                        | [] => false
                        end
        then None
        else
          let '(n, s2) := digits 0 s1 in
          match s2 with
          | 46 :: _ | 101 :: _ | 69 :: _ => None
          | _ => Some (VNum (if neg then - n else n), s2)
          end
      else None
  | [] => None
  end.

(** The items of an array after its opening bracket and first item. *)
Fixpoint more_items (value : jsstring -> option (jsvalue * jsstring))
    (fuel : nat) (acc : list jsvalue) (s : jsstring)
  : option (jsvalue * jsstring) :=
  match fuel with
  | O => None
  | S fuel' =>
      match skip_space s with
      | 93 :: rest => Some (VArr acc, rest)
      | 44 :: rest =>
          match value rest with
          | Some (v, rest') => more_items value fuel' (acc ++ [v]) rest'
          | None => None
          end
      | _ => None
      end
  end.

Definition member (value : jsstring -> option (jsvalue * jsstring)) (fuel : nat)
    (s : jsstring) : option (string * jsvalue * jsstring) :=
  match skip_space s with
  | 34 :: rest =>
      match string_body fuel [] rest with
      | Some (k, rest') =>
          match skip_space rest' with
          | 58 :: rest'' =>
              match value rest'' with
              | Some (v, rest3) => Some (k, v, rest3)
              | None => None
              end
          | _ => None
          end
      | None => None
      end
  | _ => None
  end.

(** The members of an object after its first; a repeated key keeps the
    later value. *)
Fixpoint more_members (value : jsstring -> option (jsvalue * jsstring))
    (fuel : nat) (acc : list (string * jsvalue)) (s : jsstring)
  : option (jsvalue * jsstring) :=
  match fuel with
  | O => None
  | S fuel' =>
      match skip_space s with
      | 125 :: rest => Some (VObj acc, rest)
      | 44 :: rest =>
          match member value fuel rest with
          | Some (k, v, rest') =>
              more_members value fuel' (Value.set_field k v acc) rest'
          | None => None
          end
      | _ => None
      end
  end.

Fixpoint value (fuel : nat) (s : jsstring) : option (jsvalue * jsstring) :=
  match fuel with
  | O => None
  | S fuel' =>
      match skip_space s with
      | 34 :: rest =>
          match string_body (length rest) [] rest with
          | Some (str, rest') => Some (VStr str, rest')
          | None => None
          end
      | 91 :: rest =>
          match skip_space rest with
          | 93 :: rest' => Some (VArr [], rest')
          | _ =>
              match value fuel' rest with
              | Some (v, rest') => more_items (value fuel') (length rest') [v] rest'
              | None => None
              end
          end
      | 123 :: rest =>
          match skip_space rest with
          | 125 :: rest' => Some (VObj [], rest')
          | _ =>
              match member (value fuel') (length rest) rest with
              | Some (k, v, rest') =>
                  more_members (value fuel') (length rest') [(k, v)] rest'
              | None => None
              end
          end
      | 116 :: _ => literal "true" (VBool true) (skip_space s)
      | 102 :: _ => literal "false" (VBool false) (skip_space s)
      | 110 :: _ => literal "null" VNull (skip_space s)
      | _ => number (skip_space s)
      end
  end.

Definition parse (s : jsstring) : result jsvalue :=
  match value (S (length s)) s with
  | Some (v, rest) =>
      match skip_space rest with
      | [] => Ok v
      | _ => Throw SyntaxError
      end
  | None => Throw SyntaxError
  end.

End Text.

#[global] Instance node_text : NodeText := {|
  utf8_toString := Text.decode;
  JSON_parse := Text.parse;
  JSON_stringify_utf8 := Text.stringify;
  number_toString := pretty;
|}.

(** ** Control connection: class [TuyaDevice] *)

Module Device.

(** The listener of line [this.once(`response_${this.sequence}`, handler)]:
    the closure holds the timeout it clears and the promise it resolves. *)
Record handler : Type := Handler { h_timeout : nat; h_call : nat }.

(** The callbacks given to [setTimeout]. *)
Inductive timer_action : Type :=
  | RejectCall (call : nat)   (* () => reject(new Error('Command timeout')) *)
  | ClearMotion.              (* () => this.emit('motion', false) *)

Record timer : Type := Timer { t_id : nat; t_due : Z; t_action : timer_action }.

#[global] Instance timer_action_eq_decision : EqDecision timer_action.
Proof. solve_decision. Defined.

#[global] Instance timer_eq_decision : EqDecision timer.
Proof. solve_decision. Defined.

(** The promise a call of [sendCommand] returns. *)
Inductive promise : Type :=
  | Pending
  | Resolved (response : jsvalue)
  | Rejected (e : js_error).

(** What leaves the object: ['motion'] events and socket writes. *)
Inductive output : Type :=
  | EmitMotion (detected : bool)
  | SocketWrite (packet : Buffer).

Record state : Type := State {
  deviceId : string;
  localKey : Buffer;                    (* UTF-8 bytes of the key string *)
  connected : bool;                     (* this.connected && this.socket *)
  sequence : Z;
  listeners : gmap Z (list handler);    (* 'response_N' listeners, by N *)
  timers : list timer;                  (* armed timeouts, oldest first *)
  promises : gmap nat promise;
  fresh : nat;                          (* next timer or promise identity *)
  outputs : list output;                (* oldest first *)
}.

Definition initial (id : string) (key : Buffer) : state :=
  State id key false 0 ∅ [] ∅ 0 [].

Definition set_connected (b : bool) (st : state) : state :=
  State (deviceId st) (localKey st) b (sequence st) (listeners st)
        (timers st) (promises st) (fresh st) (outputs st).

Definition set_sequence (n : Z) (st : state) : state :=
  State (deviceId st) (localKey st) (connected st) n (listeners st)
        (timers st) (promises st) (fresh st) (outputs st).

Definition set_listeners (l : gmap Z (list handler)) (st : state) : state :=
  State (deviceId st) (localKey st) (connected st) (sequence st) l
        (timers st) (promises st) (fresh st) (outputs st).

Definition set_timers (t : list timer) (st : state) : state :=
  State (deviceId st) (localKey st) (connected st) (sequence st) (listeners st)
        t (promises st) (fresh st) (outputs st).

Definition set_promises (p : gmap nat promise) (st : state) : state :=
  State (deviceId st) (localKey st) (connected st) (sequence st) (listeners st)
        (timers st) p (fresh st) (outputs st).

Definition set_fresh (n : nat) (st : state) : state :=
  State (deviceId st) (localKey st) (connected st) (sequence st) (listeners st)
        (timers st) (promises st) n (outputs st).

Definition emit (o : output) (st : state) : state :=
  State (deviceId st) (localKey st) (connected st) (sequence st) (listeners st)
        (timers st) (promises st) (fresh st) (outputs st ++ [o]).

(** *** Timers and promises *)

(** [setTimeout(action, delay)] at time [now]. *)
Definition setTimeout (action : timer_action) (delay now : Z) (st : state)
  : nat * state :=
  let id := fresh st in
  (id, set_fresh (S id) (set_timers (timers st ++ [Timer id (now + delay) action]) st)).

(** [clearTimeout(id)] *)
Definition clearTimeout (id : nat) (st : state) : state :=
  set_timers (filter (fun t => t_id t ≠ id) (timers st)) st.

(** [new Promise(...)]: a pending promise under a new identity. *)
Definition new_promise (st : state) : nat * state :=
  let id := fresh st in
  (id, set_fresh (S id) (set_promises (<[id := Pending]> (promises st)) st)).

(** [resolve(v)] and [reject(e)]: a settled promise stays as it is. *)
Definition settle (call : nat) (p : promise) (st : state) : state :=
  match promises st !! call with
  | Some Pending => set_promises (<[call := p]> (promises st)) st
  | _ => st
  end.

(** [this.once(`response_${seq}`, h)] *)
Definition once (seq : Z) (h : handler) (st : state) : state :=
  set_listeners (<[seq := default [] (listeners st !! seq) ++ [h]]> (listeners st)) st.

(** The listener body: [clearTimeout(timeout); resolve(response)]. *)
Definition run_handler (response : jsvalue) (st : state) (h : handler) : state :=
  settle (h_call h) (Resolved response) (clearTimeout (h_timeout h) st).

(** [this.emit(`response_${seq}`, response)]: every listener of the event
    is removed (each was added by [once]) and called, oldest first. *)
Definition emit_response (seq : Z) (response : jsvalue) (st : state) : state :=
  match listeners st !! seq with
  | None => st
  | Some hs =>
      fold_left (run_handler response) hs
                (set_listeners (delete seq (listeners st)) st)
  end.

(** A timer comes due: it leaves the timer list and its callback runs. *)
Definition run_action (a : timer_action) (st : state) : state :=
  match a with
  | RejectCall call => settle call (Rejected CommandTimeout) st
  | ClearMotion => emit (EmitMotion false) st
  end.

Definition fire (id : nat) (st : state) : state :=
  match find (fun t => bool_decide (t_id t = id)) (timers st) with
  | None => st
  | Some t => run_action (t_action t) (clearTimeout id st)
  end.

(** The timer the event loop runs next at time [now]: of those due, the
    one due first, and of those the one armed first. *)
Fixpoint next_due (now : Z) (ts : list timer) : option timer :=
  match ts with
  | [] => None
  | t :: rest =>
      match next_due now rest with
      | Some t' =>
          if (t_due t <=? now) && (t_due t <=? t_due t') then Some t else Some t'
      | None => if t_due t <=? now then Some t else None
      end
  end.

(** The event loop reaching time [now]: the timers due by then run, one
    after the other.  ([fuel] bounds the number of timers run; no callback
    arms a timer, so the length of the list is enough.) *)
Fixpoint run_due (fuel : nat) (now : Z) (st : state) : state :=
  match fuel with
  | O => st
  | S fuel' =>
      match next_due now (timers st) with
      | None => st
      | Some t => run_due fuel' now (fire (t_id t) st)
      end
  end.

Definition advance (now : Z) (st : state) : state :=
  run_due (length (timers st)) now st.

(** *** Data points *)

(** [this.DP.MOTION_DETECTED] and its spelling as a property key. *)
Definition DP_MOTION_DETECTED : nat := 115.
Definition DP_MOTION_DETECTED_key : string := "115".

(** *** [buildPacket] *)

(** [this.sequence++] comes first and stays when a later write throws. *)
Definition buildPacket (command : Z) (payload : Buffer) (st : state)
  : result Buffer * state :=
  let st := set_sequence (sequence st + 1) st in
  (let header := magic_header in
   cmd ← writeUInt32BE command;
   seq ← writeUInt32BE (sequence st);
   len ← writeUInt32BE (blen payload + 8);
   let crcData := header ++ cmd ++ seq ++ len ++ payload in
   crc ← CRC.calculateCRC crcData;
   let suffix := crc ++ magic_footer in
   Ok (crcData ++ suffix),
   st).

Section with_runtime.
Context `{NodeCrypto} `{NodeText}.

(** *** [sendCommand] *)

(** [Buffer.from(JSON.stringify({gwId, devId, uid, t, ...payload}))] *)
Definition command_bytes (now : Z) (payload : list (string * jsvalue)) (st : state)
  : Buffer :=
  let data := Value.spread
    [ ("gwId", VStr (deviceId st)); ("devId", VStr (deviceId st));
      ("uid", VStr (deviceId st)); ("t", VStr (number_toString (now / 1000))) ]%string
    payload in
  JSON_stringify_utf8 (VObj data).

(** [payload] is the object literal the callers pass ([{}] by default).
    The function is [async]: it returns a promise, and a throw rejects
    it.  [version] is the constant ['3.3'], so the payload is always
    encrypted. *)
Definition sendCommand (now command : Z) (payload : list (string * jsvalue))
    (st : state) : nat * state :=
  let (call, st) := new_promise st in
  if negb (connected st) then (call, settle call (Rejected NotConnected) st)
  else
    let jsonBytes := command_bytes now payload st in
    match Cipher.aes_128_ecb_encrypt (localKey st) jsonBytes with
    | Throw e => (call, settle call (Rejected e) st)
    | Ok encrypted =>
        let (packet, st) := buildPacket command encrypted st in
        match packet with
        | Throw e => (call, settle call (Rejected e) st)
        | Ok packet =>
            let (timeout, st) := setTimeout (RejectCall call) 5000 now st in
            let st := once (sequence st) (Handler timeout call) st in
            (call, emit (SocketWrite packet) st)
        end
    end.

(** *** [handlePayload]

    The state is returned also when the body throws: what ran before the
    throw has happened. *)
Definition handlePayload (now command sequence : Z) (payload : jsvalue) (st : state)
  : result unit * state :=
  let st := emit_response sequence payload st in
  if command =? 8 then
    match Value.get_named payload "dps" with
    | Throw e => (Throw e, st)
    | Ok dps =>
        if Value.truthy dps then
          match Value.get_index dps DP_MOTION_DETECTED DP_MOTION_DETECTED_key with
          | Throw e => (Throw e, st)
          | Ok v =>
              if negb (Value.is_undefined v) then
                let st := emit (EmitMotion true) st in
                let (_, st) := setTimeout ClearMotion 30000 now st in
                (Ok (), st)
              else (Ok (), st)
          end
        else (Ok (), st)
    end
  else (Ok (), st).

(** *** [handleData] *)

(** Lines 211 to 223: the fields read from a chunk, or [None] where the
    function returns early. *)
Definition parse_chunk (data : Buffer) : result (option (Z * Z * Buffer)) :=
  if (blen data <? 20) || negb (starts_with_magic data) then Ok None
  else
    command ← readUInt32BE data 8;
    sequence ← readUInt32BE data 12;
    length ← readUInt32BE data 16;
    if blen data <? 20 + length then Ok None
    else Ok (Some (command, sequence, slice data 20 (20 + length - 8))).

(** The first [try] block: a failed decryption is caught and the chunk
    dropped. *)
Definition decrypt_chunk (encrypted : Buffer) (st : state) : result Buffer :=
  if 0 <? blen encrypted
  then Cipher.aes_128_ecb_decrypt (localKey st) encrypted
  else Ok encrypted.

(** [decrypted.toString().replace(/\0/g, '')] *)
Definition strip_nul (decrypted : Buffer) : jsstring :=
  filter (fun c => c ≠ 0) (utf8_toString decrypted).

Definition handleData (now : Z) (data : Buffer) (st : state) : result unit * state :=
  match parse_chunk data with
  | Throw e => (Throw e, st)
  | Ok None => (Ok (), st)
  | Ok (Some (command, sequence, encrypted)) =>
      match decrypt_chunk encrypted st with
      | Throw _ => (Ok (), st)
      | Ok decrypted =>
          let jsonStr := strip_nul decrypted in
          match jsonStr with
          | [] => (Ok (), st)
          | _ =>
              match JSON_parse jsonStr with
              | Throw _ => (Ok (), st)
              | Ok payload =>
                  (* a throw of handlePayload is caught and logged *)
                  (Ok (), (handlePayload now command sequence payload st).2)
              end
          end
      end
  end.

(** [disconnect], as far as this state goes. *)
Definition disconnect (st : state) : state := set_connected false st.

(** The [connect] event of the socket, as far as this state goes. *)
Definition on_connect (st : state) : state := set_connected true st.

(** *** What can happen to the object

    The callbacks Node runs on it, one at a time: a chunk from the
    socket, a command (from the plugin, or the heartbeat that the interval
    timer sends), a connect or disconnect, and the clock reaching a time
    (the due timeouts run). *)
Inductive input : Type :=
  | Data (now : Z) (chunk : Buffer)
  | Send (now command : Z) (payload : list (string * jsvalue))
  | Connect
  | Disconnect
  | Clock (now : Z).

Definition step (st : state) (i : input) : state :=
  match i with
  | Data now chunk => (handleData now chunk st).2
  | Send now command payload => (sendCommand now command payload st).2
  | Connect => on_connect st
  | Disconnect => disconnect st
  | Clock now => advance now st
  end.

Definition run (inputs : list input) (st : state) : state :=
  fold_left step inputs st.

End with_runtime.

End Device.

(** ** Control connection: the commands of [TuyaDevice] *)

Module Commands.

(** [this.DP.MOTION_SWITCH] and [this.DP.PTZ_CONTROL], with their
    spellings as property keys. *)
Definition DP_MOTION_SWITCH : nat := 134.
Definition DP_MOTION_SWITCH_key : string := "134".
Definition DP_PTZ_CONTROL_key : string := "119".

(** The argument of [controlPTZ] and its [directionMap]. *)
Inductive direction : Type := up | down | left | right | stop.

Definition directionMap (d : direction) : string :=
  match d with
  | up => "2"
  | down => "3"
  | left => "0"
  | right => "1"
  | stop => "4"
  end.

(** [{ dps: {} }], [{ dps: { 150: true } }] and
    [{ dps: { [this.DP.PTZ_CONTROL]: directionMap[direction] } }] *)
Definition status_payload : list (string * jsvalue) := [("dps", VObj [])]%string.

Definition stream_payload : list (string * jsvalue) :=
  [("dps", VObj [("150", VBool true)])]%string.

Definition ptz_payload (d : direction) : list (string * jsvalue) :=
  [("dps", VObj [(DP_PTZ_CONTROL_key, VStr (directionMap d))])]%string.

(** *** Optional chaining and [||] *)

Definition nullish (v : jsvalue) : bool :=
  match v with
  | VUndefined | VNull => true
  | _ => false
  end.

(** [v?.name] *)
Definition optional_named (v : jsvalue) (name : string) : result jsvalue :=
  if nullish v then Ok VUndefined else Value.get_named v name.

(** [v?.[i]] *)
Definition optional_index (v : jsvalue) (i : nat) (name : string) : result jsvalue :=
  if nullish v then Ok VUndefined else Value.get_index v i name.

(** [a || b] *)
Definition or_else (a b : jsvalue) : jsvalue := if Value.truthy a then a else b.

(** [status?.dps?.[this.DP.MOTION_SWITCH] || false] *)
Definition motion_switch (status : jsvalue) : result jsvalue :=
  dps ← optional_named status "dps";
  v ← optional_index dps DP_MOTION_SWITCH DP_MOTION_SWITCH_key;
  Ok (or_else v (VBool false)).

(** [getMotionStatus] behind its [await]: what its promise is resolved
    with once the promise of [getStatus] has settled as [p] (the [catch]
    turns a rejection, and a throw of the line above, into [false]);
    [None] while [p] is pending. *)
Definition getMotionStatus_value (p : Device.promise) : option jsvalue :=
  match p with
  | Device.Pending => None
  | Device.Resolved status =>
      Some (match motion_switch status with
            | Ok v => v
            | Throw _ => VBool false
            end)
  | Device.Rejected _ => Some (VBool false)
  end.

(** The value the promise of [getMotionStatus] holds, where [call] is
    the call of [getStatus] it awaits. *)
Definition getMotionStatus_settled (call : nat) (st : Device.state) : option jsvalue :=
  match Device.promises st !! call with
  | Some p => getMotionStatus_value p
  | None => None
  end.

Section with_runtime.
Context `{NodeCrypto} `{NodeText}.

Definition getStatus (now : Z) (st : Device.state) : nat * Device.state :=
  Device.sendCommand now 0x0a status_payload st.

(** The command [getMotionStatus] sends is that of [getStatus]. *)
Definition getMotionStatus (now : Z) (st : Device.state) : nat * Device.state :=
  getStatus now st.

Definition startStream (now : Z) (st : Device.state) : nat * Device.state :=
  Device.sendCommand now 0x12 stream_payload st.

Definition controlPTZ (d : direction) (now : Z) (st : Device.state)
  : nat * Device.state :=
  Device.sendCommand now 0x07 (ptz_payload d) st.

(** The callback [startHeartbeat] hands to [setInterval]; its [catch]
    swallows a rejection. *)
Definition heartbeat (now : Z) (st : Device.state) : nat * Device.state :=
  Device.sendCommand now 0x09 [] st.

End with_runtime.

End Commands.

(** ** What holds of every state of the control connection *)

Module Invariant.

(** Every pending call has its timeout armed. *)
Definition guarded (st : Device.state) : Prop :=
  forall call,
    Device.promises st !! call = Some Device.Pending ->
    exists t, t ∈ Device.timers st /\ Device.t_action t = Device.RejectCall call.

End Invariant.

(** What the protocol code relies on in the text functions: decoding no
    bytes gives the empty string. *)
Class NodeTextLaws (T : NodeText) : Prop := {
  utf8_toString_nil : utf8_toString [] = [];
}.

(** ** Stream connection: class [TuyaStreamDecoder] *)

Module Stream.

Definition CMD_STREAM_START : Z := 0xD0.
Definition CMD_STREAM_DATA : Z := 0xD1.
Definition CMD_STREAM_STOP : Z := 0xD2.

Inductive output : Type :=
  | EmitVideoData (videoData : Buffer)
  | SocketWrite (packet : Buffer).

Record state : Type := State {
  deviceId : string;
  localKey : Buffer;               (* UTF-8 bytes of the key string *)
  sessionKey : option Buffer;      (* undefined until the stream request *)
  frameBuffer : Buffer;
  outputs : list output;           (* oldest first *)
}.

Definition initial (id : string) (key : Buffer) : state :=
  State id key None [] [].

Definition set_sessionKey (k : Buffer) (st : state) : state :=
  State (deviceId st) (localKey st) (Some k) (frameBuffer st) (outputs st).

Definition set_frameBuffer (b : Buffer) (st : state) : state :=
  State (deviceId st) (localKey st) (sessionKey st) b (outputs st).

Definition emit (o : output) (st : state) : state :=
  State (deviceId st) (localKey st) (sessionKey st) (frameBuffer st) (outputs st ++ [o]).

(** [this.sessionKey || Buffer.from(this.localKey, 'utf8')]: a Buffer is
    truthy, also an empty one. *)
Definition cipher_key (st : state) : Buffer :=
  match sessionKey st with
  | Some k => k
  | None => localKey st
  end.

(** [Buffer.from('stream')] *)
Definition stream_suffix : Buffer := [x73; x74; x72; x65; x61; x6d].

(** [buildPacket]; the sequence field is [Date.now() & 0xFFFFFFFF]. *)
Definition buildPacket (now command : Z) (payload : Buffer) : result Buffer :=
  let header := magic_header in
  cmd ← writeUInt32BE command;
  seq ← writeUInt32BE (JS.and now 0xFFFFFFFF);
  len ← writeUInt32BE (blen payload + 8);
  let crcData := header ++ cmd ++ seq ++ len ++ payload in
  crc ← CRC.calculateCRC32 crcData;
  Ok (crcData ++ crc ++ magic_footer).

(** What one call of [handleStreamData] did: the state it left, the
    value of the local [packet] at each turn that reached line 124
    (with the command read for it), and the exception that ended the
    call, if one did. *)
Record outcome : Type := Outcome {
  final : state;
  packets : list (Z * Buffer);
  thrown : option js_error;
}.

Section with_runtime.
Context `{NodeCrypto} `{NodeText}.

Definition encryptPayload (data : Buffer) (st : state) : result Buffer :=
  Cipher.aes_128_ecb_encrypt (cipher_key st) data.

Definition decryptPayload (data : Buffer) (st : state) : Buffer :=
  match Cipher.aes_128_ecb_decrypt (cipher_key st) data with
  | Ok plain => plain
  | Throw _ => data     (* catch (e) { return data; } *)
  end.

(** The [payload] object of [sendStreamRequest], as
    [Buffer.from(JSON.stringify(payload))]. *)
Definition stream_request (now : Z) (st : state) : Buffer :=
  JSON_stringify_utf8 (VObj
    [ ("gwId", VStr (deviceId st)); ("devId", VStr (deviceId st));
      ("uid", VStr (deviceId st)); ("t", VStr (number_toString (now / 1000)));
      ("dp", VObj [("150", VBool true); ("151", VStr "1")]) ]%string).

Definition sendStreamRequest (now : Z) (st : state) : result unit * state :=
  let payload := stream_request now st in
  let st := set_sessionKey (md5_digest (localKey st ++ stream_suffix)) st in
  match encryptPayload payload st with
  | Throw e => (Throw e, st)
  | Ok encrypted =>
      match buildPacket now CMD_STREAM_START encrypted with
      | Throw e => (Throw e, st)
      | Ok packet => (Ok (), emit (SocketWrite packet) st)
      end
  end.

(** The [while] loop of [handleStreamData].  Every turn that does not
    leave the loop removes 20 bytes or more from the buffer; [fuel]
    counts the turns, and [None] says it ran out. *)
Fixpoint scan (fuel : nat) (st : state) (seen : list (Z * Buffer)) : option outcome :=
  match fuel with
  | O => None
  | S fuel' =>
      if blen (frameBuffer st) <? 20 then Some (Outcome st seen None)
      else
        (* the header check; [inl] is the [break] *)
        let resync : state + state :=
          if negb (starts_with_magic (frameBuffer st)) then
            let headerIndex := indexOf (frameBuffer st) magic_header 1 in
            if 0 <? headerIndex
            then inr (set_frameBuffer (slice_from (frameBuffer st) headerIndex) st)
            else inl (set_frameBuffer [] st)
          else inr st in
        match resync with
        | inl st => Some (Outcome st seen None)
        | inr st =>
            match readUInt32BE (frameBuffer st) 8 with
            | Throw e => Some (Outcome st seen (Some e))
            | Ok command =>
                match readUInt32BE (frameBuffer st) 16 with
                | Throw e => Some (Outcome st seen (Some e))
                | Ok payloadLen =>
                    if blen (frameBuffer st) <? 20 + payloadLen
                    then Some (Outcome st seen None)
                    else
                      let packet := slice (frameBuffer st) 0 (20 + payloadLen) in
                      let st := set_frameBuffer
                                  (slice_from (frameBuffer st) (20 + payloadLen)) st in
                      let st :=
                        if command =? CMD_STREAM_DATA then
                          let encryptedData := slice packet 20 (20 + payloadLen - 8) in
                          let videoData := decryptPayload encryptedData st in
                          emit (EmitVideoData videoData) st
                        else st in
                      scan fuel' st (seen ++ [(command, packet)])
                end
            end
        end
  end.

Definition handleStreamData (data : Buffer) (st : state) : option outcome :=
  let st := set_frameBuffer (frameBuffer st ++ data) st in
  scan (S (length (frameBuffer st))) st [].

(** The [payload] object of [stop], as
    [Buffer.from(JSON.stringify(payload))]. *)
Definition stop_request (st : state) : Buffer :=
  JSON_stringify_utf8 (VObj
    [ ("gwId", VStr (deviceId st)); ("devId", VStr (deviceId st));
      ("dp", VObj [("150", VBool false)]) ]%string).

(** [stop], up to the socket write, on an object whose [socket] is set
    (as it is from [startStream] on, before the connection is up). *)
Definition stop (now : Z) (st : state) : result unit * state :=
  let payload := stop_request st in
  match encryptPayload payload st with
  | Throw e => (Throw e, st)
  | Ok encrypted =>
      match buildPacket now CMD_STREAM_STOP encrypted with
      | Throw e => (Throw e, st)
      | Ok packet => (Ok (), emit (SocketWrite packet) st)
      end
  end.

End with_runtime.

End Stream.

(** ** Streaming delegate: class [TuyaCameraStreamingDelegate]

    The delegate keeps one [SessionInfo] object per prepared stream in
    [this.sessions].  The objects are shared: [startStream] takes one out
    of the map, waits for the stream source, and writes the [ffmpeg]
    process into it afterwards, while [stopStream] may have taken the
    object off the map in between.  So the objects live in a store, and
    the map and the waiting calls hold references into it. *)

Module Base64.

(** [buf.toString('base64')] *)
Definition alphabet : list Ascii.ascii :=
  list_ascii_of_string
    "ABCDEFGHIJKLMNOPQRSTUVWXYZabcdefghijklmnopqrstuvwxyz0123456789+/".

(** The padding character, [=]. *)
Definition pad : Ascii.ascii := Ascii.ascii_of_nat 61.

Definition digit (n : Z) : Ascii.ascii := nth (Z.to_nat (n mod 64)) alphabet pad.

Fixpoint chars (fuel : nat) (data : Buffer) : list Ascii.ascii :=
  match fuel with
  | O => []
  | S fuel' =>
      match data with
      | [] => []
      | [a] =>
          let n := byte_to_Z a * 65536 in
          [digit (n / 262144); digit (n / 4096); pad; pad]
      | [a; b] =>
          let n := byte_to_Z a * 65536 + byte_to_Z b * 256 in
          [digit (n / 262144); digit (n / 4096); digit (n / 64); pad]
      | a :: b :: c :: rest =>
          let n := byte_to_Z a * 65536 + byte_to_Z b * 256 + byte_to_Z c in
          [digit (n / 262144); digit (n / 4096); digit (n / 64); digit n]
            ++ chars fuel' rest
      end
  end.

Definition encode (data : Buffer) : string :=
  string_of_list_ascii (chars (S (length data)) data).

End Base64.

Module Delegate.

(** [request.video] and [request.audio] of a [PrepareStreamRequest]. *)
Record Source : Type := {
  port : Z;
  srtp_key : Buffer;
  srtp_salt : Buffer;
}.

Record PrepareStreamRequest : Type := {
  p_sessionID : string;
  targetAddress : string;
  video : Source;
  audio : option Source;
}.

Record SessionInfo : Type := {
  address : string;
  videoPort : Z;
  videoSRTP : Buffer;
  videoSSRC : Z;
  audioPort : option Z;
  audioSRTP : option Buffer;
  audioSSRC : option Z;
  ffmpeg : option nat;          (* the child process, by its identity *)
  ffmpegAudio : option nat;
}.

(** One half of a [PrepareStreamResponse]. *)
Record Answer : Type := {
  a_port : Z;
  a_ssrc : Z;
  a_srtp_key : Buffer;
  a_srtp_salt : Buffer;
}.

Record PrepareStreamResponse : Type := {
  r_video : Answer;
  r_audio : option Answer;
}.

(** [request.video] of a start request, as far as [startStream] reads
    it. *)
Record VideoInfo : Type := {
  width : Z;
  height : Z;
  max_bit_rate : Z;
  pt : option Z;
}.

Inductive StreamingRequest : Type :=
  | START (sessionID : string) (videoInfo : VideoInfo)
  | RECONFIGURE (sessionID : string)
  | STOP (sessionID : string).

(** What leaves the delegate. *)
Inductive output : Type :=
  | PrepareCallback (response : PrepareStreamResponse)  (* callback(undefined, response) *)
  | StreamCallback (error : option string)              (* callback() or callback(new Error(..)) *)
  | Spawn (process : nat) (args : list string)          (* spawn('ffmpeg', args, ..) *)
  | Kill (process : nat).                               (* .kill('SIGTERM') *)

(** A call of [startStream] that waits for [getStreamSource]: the
    session object it holds and the request it was given. *)
Record waiting : Type := Waiting { w_session : nat; w_video : VideoInfo }.

Record state : Type := State {
  store : gmap nat SessionInfo;     (* the session objects, by reference *)
  sessions : gmap string nat;       (* this.sessions *)
  starting : list waiting;          (* calls of startStream at their await *)
  fresh : nat;                      (* next reference or process identity *)
  outputs : list output;            (* oldest first *)
}.

Definition initial : state := State ∅ ∅ [] 0 [].

Definition emit (o : output) (st : state) : state :=
  State (store st) (sessions st) (starting st) (fresh st) (outputs st ++ [o]).

(** *** [prepareStream]

    [videoSSRC] and [audioSSRC] stand for the two results of
    [generateSynchronisationSource()]. *)
Definition new_session (request : PrepareStreamRequest) (videoSSRC audioSSRC : Z)
  : SessionInfo :=
  let v := video request in
  {| address := targetAddress request;
     videoPort := port v;
     videoSRTP := srtp_key v ++ srtp_salt v;
     videoSSRC := videoSSRC;
     audioPort := port <$> audio request;
     audioSRTP := (fun a => srtp_key a ++ srtp_salt a) <$> audio request;
     audioSSRC := (fun _ => audioSSRC) <$> audio request;
     ffmpeg := None;
     ffmpegAudio := None |}.

Definition prepareStream (request : PrepareStreamRequest) (videoSSRC audioSSRC : Z)
    (st : state) : state :=
  let v := video request in
  let sessionInfo := new_session request videoSSRC audioSSRC in
  let response :=
    {| r_video := {| a_port := port v; a_ssrc := videoSSRC;
                     a_srtp_key := srtp_key v; a_srtp_salt := srtp_salt v |};
       r_audio := (fun a => {| a_port := port a; a_ssrc := audioSSRC;
                               a_srtp_key := srtp_key a; a_srtp_salt := srtp_salt a |})
                  <$> audio request |} in
  let ref := fresh st in
  emit (PrepareCallback response)
       (State (<[ref := sessionInfo]> (store st))
              (<[p_sessionID request := ref]> (sessions st))
              (starting st) (S ref) (outputs st)).

(** *** [stopStream] *)

Definition kill (process : option nat) (st : state) : state :=
  match process with
  | Some p => emit (Kill p) st
  | None => st
  end.

Definition stopStream (sessionID : string) (st : state) : state :=
  let st :=
    match sessions st !! sessionID with
    | Some ref =>
        match store st !! ref with
        | Some sessionInfo => kill (ffmpegAudio sessionInfo) (kill (ffmpeg sessionInfo) st)
        | None => st
        end
    | None => st
    end in
  State (store st) (delete sessionID (sessions st)) (starting st) (fresh st) (outputs st).

(** *** [getStreamSource]

    Its result is never falsy: the [inputArgs] of the camera pipe when
    the decoder started, those of the test pattern when that threw. *)
Definition camera_inputArgs : list string :=
  ["-f"; "h264"; "-i"; "pipe:0"; "-fflags"; "nobuffer+genpts"; "-flags"; "low_delay";
   "-probesize"; "32"; "-analyzeduration"; "0"]%string.

Definition fallback_inputArgs : list string :=
  ["-f"; "lavfi"; "-i"; "testsrc=size=1280x720:rate=30"; "-t"; "3600"]%string.

Definition getStreamSource (decoder_started : bool) : list string :=
  if decoder_started then camera_inputArgs else fallback_inputArgs.

(** The listener [getStreamSource] puts on ['videoData']: the writes to
    the pipe for one event. *)
Definition nal_start_code : Buffer := [x00; x00; x00; x01].

Definition on_videoData (data : Buffer) : list Buffer :=
  if bool_decide (slice data 0 4 = nal_start_code) then [data]
  else [nal_start_code; data].

Section with_text.
Context `{NodeText}.

(** *** [startStream]: the FFmpeg command line *)

Definition text (n : Z) : string := number_toString n.

(** A template literal: its pieces, joined. *)
Definition template (pieces : list string) : string := String.concat EmptyString pieces.

Definition ffmpegArgs (inputArgs : list string) (videoInfo : VideoInfo)
    (sessionInfo : SessionInfo) : list string :=
  (app ["-re"]
    (app inputArgs
      ["-threads"; "0"; "-vcodec"; "libx264"; "-an"; "-pix_fmt"; "yuv420p";
       "-r"; "30"; "-f"; "rawvideo"; "-preset"; "ultrafast"; "-tune"; "zerolatency";
       "-vf";
       template
         ["scale='min("; text (width videoInfo); ",iw)':'min("; text (height videoInfo);
          ",ih)':force_original_aspect_ratio=decrease,scale=trunc(iw/2)*2:trunc(ih/2)*2"];
       "-b:v"; template [text (max_bit_rate videoInfo); "k"];
       "-bufsize"; template [text (max_bit_rate videoInfo * 2); "k"];
       "-maxrate"; template [text (max_bit_rate videoInfo); "k"];
       "-payload_type";
       match pt videoInfo with
       | Some n => if String.eqb (text n) EmptyString then "96" else text n
       | None => "96"
       end;
       "-ssrc"; text (videoSSRC sessionInfo);
       "-f"; "rtp";
       "-srtp_out_suite"; "AES_CM_128_HMAC_SHA1_80";
       "-srtp_out_params"; Base64.encode (videoSRTP sessionInfo);
       template
         ["srtp://"; address sessionInfo; ":"; text (videoPort sessionInfo);
          "?rtcpport="; text (videoPort sessionInfo);
          "&localrtcpport="; text (videoPort sessionInfo); "&pkt_size=1378"]
      ]))%string.

(** [startStream] up to its [await]: without a session the callback gets
    the error and the call is over; with one, the call waits, holding the
    session object. *)
Definition startStream (sessionID : string) (videoInfo : VideoInfo) (st : state)
  : state :=
  match sessions st !! sessionID with
  | Some ref =>
      State (store st) (sessions st) (starting st ++ [Waiting ref videoInfo])
            (fresh st) (outputs st)
  | None => emit (StreamCallback (Some "Session not found"%string)) st
  end.

(** [startStream] behind its [await], for the call that waits at
    position [k]: FFmpeg is spawned, the process is written into the
    session object the call holds, and the callback is called. *)
Definition resume (k : nat) (decoder_started : bool) (st : state) : state :=
  match starting st !! k with
  | Some (Waiting ref videoInfo) =>
      match store st !! ref with
      | Some sessionInfo =>
          let process := fresh st in
          let args := ffmpegArgs (getStreamSource decoder_started) videoInfo sessionInfo in
          let sessionInfo' :=
            {| address := address sessionInfo; videoPort := videoPort sessionInfo;
               videoSRTP := videoSRTP sessionInfo; videoSSRC := videoSSRC sessionInfo;
               audioPort := audioPort sessionInfo; audioSRTP := audioSRTP sessionInfo;
               audioSSRC := audioSSRC sessionInfo;
               ffmpeg := Some process; ffmpegAudio := ffmpegAudio sessionInfo |} in
          emit (StreamCallback None)
            (emit (Spawn process args)
               (State (<[ref := sessionInfo']> (store st)) (sessions st)
                      (delete k (starting st)) (S process) (outputs st)))
      | None => st
      end
  | None => st
  end.

(** *** [handleStreamRequest] *)

Definition handleStreamRequest (request : StreamingRequest) (st : state) : state :=
  match request with
  | START sessionID videoInfo => startStream sessionID videoInfo st
  | RECONFIGURE _ => emit (StreamCallback None) st
  | STOP sessionID => emit (StreamCallback None) (stopStream sessionID st)
  end.

(** What can happen to the delegate: the calls of HomeKit, and a waiting
    [startStream] getting its stream source. *)
Inductive event : Type :=
  | Prepare (request : PrepareStreamRequest) (videoSSRC audioSSRC : Z)
  | Request (request : StreamingRequest)
  | SourceReady (k : nat) (decoder_started : bool).

Definition step (st : state) (e : event) : state :=
  match e with
  | Prepare request videoSSRC audioSSRC => prepareStream request videoSSRC audioSSRC st
  | Request request => handleStreamRequest request st
  | SourceReady k decoder_started => resume k decoder_started st
  end.

Definition run (events : list event) (st : state) : state := fold_left step events st.

End with_text.

(** *** What holds of every state of the delegate *)

(** References and process identities in use lie below the next fresh
    one, also those of the processes killed so far; no session object has
    an audio process. *)
Record tidy (st : state) : Prop := Tidy {
  tidy_sessions id ref : sessions st !! id = Some ref -> (ref < fresh st)%nat;
  tidy_ffmpeg ref s p :
    store st !! ref = Some s -> ffmpeg s = Some p -> (p < fresh st)%nat;
  tidy_audio ref s : store st !! ref = Some s -> ffmpegAudio s = None;
  tidy_killed p : Kill p ∈ outputs st -> (p < fresh st)%nat;
}.

(** No session object on the map holds [process]. *)
Record out_of_reach (process : nat) (st : state) : Prop := OutOfReach {
  reach_fresh : (process < fresh st)%nat;
  reach_sessions id ref s :
    sessions st !! id = Some ref -> store st !! ref = Some s ->
    ffmpeg s <> Some process /\ ffmpegAudio s <> Some process;
}.

End Delegate.

(** ** Platform: class [SimpleTuyaCamPlatform] *)

Module Platform.

(** An entry of [config.cameras]; [id], [key] and [ip] may be missing. *)
Record CameraConfig : Type := {
  name : string;
  id : option string;
  key : option string;
  ip : option string;
}.

(** A [PlatformAccessory], as far as the platform reads and writes it;
    [device] is [context.device]. *)
Record PlatformAccessory : Type := {
  UUID : string;
  displayName : string;
  device : option CameraConfig;
  category : option Z;
}.

#[global] Instance CameraConfig_eq_decision : EqDecision CameraConfig.
Proof. solve_decision. Defined.

#[global] Instance PlatformAccessory_eq_decision : EqDecision PlatformAccessory.
Proof. solve_decision. Defined.

(** [this.api.hap.Categories.CAMERA] *)
Definition CAMERA : Z := 17.

(** Accessories are objects: the platform keeps references to them and
    writes to them in place. *)
Definition ref : Type := nat.

(** The calls the platform makes, with the objects it hands over.  The
    calls are recorded and taken to return. *)
Inductive output : Type :=
  | updatePlatformAccessories (accessories : list ref)
  | registerPlatformAccessories (accessories : list ref)
  | unregisterPlatformAccessories (accessories : list ref)
  | newTuyaCameraAccessory (accessory : ref).

(** The accessories a call is about. *)
Definition subjects (o : output) : list ref :=
  match o with
  | updatePlatformAccessories l => l
  | registerPlatformAccessories l => l
  | unregisterPlatformAccessories l => l
  | newTuyaCameraAccessory a => [a]
  end.

Definition is_register (o : output) : bool :=
  match o with
  | registerPlatformAccessories _ => true
  | _ => false
  end.

Definition is_unregister (o : output) : bool :=
  match o with
  | unregisterPlatformAccessories _ => true
  | _ => false
  end.

Record state : Type := State {
  heap : gmap ref PlatformAccessory;   (* the accessory objects *)
  accessories : list ref;              (* this.accessories *)
  outputs : list output;               (* oldest first *)
}.

(** [configureAccessory] *)
Definition configureAccessory (accessory : ref) (st : state) : state :=
  State (heap st) (accessories st ++ [accessory]) (outputs st).

(** [!s] for a string that may be undefined. *)
Definition missing (s : option string) : bool :=
  match s with
  | None => true
  | Some s => String.eqb s EmptyString
  end.

(** [accessory.context.device = camera; accessory.category = CAMERA] *)
Definition set_device (camera : CameraConfig) (accessory : PlatformAccessory)
  : PlatformAccessory :=
  {| UUID := UUID accessory; displayName := displayName accessory;
     device := Some camera; category := Some CAMERA |}.

(** A reference that no object has yet: what [new] returns. *)
Definition new_ref (st : state) : ref :=
  fresh (dom (heap st) ∪ list_to_set (accessories st) : gset ref).

Section with_uuid.
(** [this.api.hap.uuid.generate] *)
Variable generate : string -> string.

(** The UUID of a camera that has an id. *)
Definition uuid_of (cid : string) : string := generate ("tuyacam_" ++ cid)%string.

(** [this.accessories.find(accessory => accessory.UUID === uuid)] *)
Definition find_accessory (uuid : string) (st : state) : option ref :=
  snd <$> list_find (fun accessory => UUID <$> heap st !! accessory = Some uuid)
                    (accessories st).

(** One turn of the loop of [discoverDevices]. *)
Definition discover (st : state) (camera : CameraConfig) : state :=
  match id camera with
  | Some cid =>
      if missing (id camera) || missing (key camera) then st
      else
        let uuid := uuid_of cid in
        match find_accessory uuid st with
        | Some existingAccessory =>
            State (alter (set_device camera) existingAccessory (heap st))
                  (accessories st)
                  (outputs st ++ [updatePlatformAccessories [existingAccessory];
                                  newTuyaCameraAccessory existingAccessory])
        | None =>
            let accessory := new_ref st in
            State (<[accessory :=
                       {| UUID := uuid; displayName := name camera;
                          device := Some camera; category := Some CAMERA |}]>
                     (heap st))
                  (accessories st)
                  (outputs st ++ [newTuyaCameraAccessory accessory;
                                  registerPlatformAccessories [accessory]])
        end
  | None => st
  end.

(** [device && !configuredCameraIds.includes(device.id)] *)
Definition no_longer_configured (configuredCameraIds : list (option string))
    (st : state) (accessory : ref) : bool :=
  match heap st !! accessory with
  | Some a =>
      match device a with
      | Some d => negb (bool_decide (id d ∈ configuredCameraIds))
      | None => false
      end
  | None => false
  end.

Definition accessoriesToRemove (cameras : list CameraConfig) (st : state)
  : list ref :=
  List.filter (no_longer_configured (id <$> cameras) st) (accessories st).

(** [discoverDevices]; [cameras] is [this.config.cameras], which may be
    missing. *)
Definition discoverDevices (cameras : option (list CameraConfig)) (st : state) : state :=
  match cameras with
  | None | Some [] => st
  | Some cameras =>
      let st := fold_left discover cameras st in
      match accessoriesToRemove cameras st with
      | [] => st
      | remove => State (heap st) (accessories st)
                        (outputs st ++ [unregisterPlatformAccessories remove])
      end
  end.

(** The object behind [accessory] is set up for a camera of the list
    that has an id and a key. *)
Definition set_up (cameras : list CameraConfig) (st : state) (accessory : ref)
  : Prop :=
  exists a camera cid,
    heap st !! accessory = Some a
    /\ camera ∈ cameras
    /\ id camera = Some cid /\ cid <> EmptyString /\ missing (key camera) = false
    /\ device a = Some camera
    /\ UUID a = uuid_of cid
    /\ category a = Some CAMERA.

(** A camera that the loop registers: it has an id and a key, and no
    cached accessory has its UUID. *)
Definition to_register (st : state) (camera : CameraConfig) : bool :=
  match id camera with
  | Some cid =>
      negb (missing (id camera) || missing (key camera))
      && negb (bool_decide (Some (uuid_of cid) ∈
                            (fun r => UUID <$> heap st !! r) <$> accessories st))
  | None => false
  end.

(** What the loop of [discoverDevices] keeps, from the state [st0] it
    starts in. *)
Record looped (cameras : list CameraConfig) (st0 st : state) (calls : list output)
  : Prop := {
  looped_accessories : accessories st = accessories st0;
  looped_outputs : outputs st = outputs st0 ++ calls;
  looped_calls : forall o r, o ∈ calls -> r ∈ subjects o ->
                   is_unregister o = false /\ set_up cameras st r;
  looped_heap : forall r, heap st !! r = heap st0 !! r
                          \/ set_up cameras st r;
}.

(** The UUIDs of the cached accessories. *)
Definition uuids (st : state) : list (option string) :=
  (fun r => UUID <$> heap st !! r) <$> accessories st.

(** [o] registers a new object made for [camera]. *)
Definition registered (st0 st : state) (o : output) (camera : CameraConfig) : Prop :=
  exists r cid,
    o = registerPlatformAccessories [r]
    /\ id camera = Some cid
    /\ (r ∉ accessories st)
    /\ heap st0 !! r = None
    /\ heap st !! r
       = Some {| UUID := uuid_of cid; displayName := name camera;
                 device := Some camera; category := Some CAMERA |}.

Record counted (st0 st : state) (calls : list output) (done : list CameraConfig)
  : Prop := {
  counted_uuids : uuids st = uuids st0;
  counted_dom : forall r, is_Some (heap st0 !! r) -> is_Some (heap st !! r);
  counted_calls : Forall2 (registered st0 st) (List.filter is_register calls)
                          (List.filter (to_register st0) done);
}.

End with_uuid.

End Platform.

(** A platform with two cached accessories, and cameras to configure. *)
Module Platform_case.
Import Platform.

Definition camera_a : CameraConfig :=
  {| name := "Door"; id := Some "a"; key := Some "k"; ip := None |}.
Definition camera_c : CameraConfig :=
  {| name := "Yard"; id := Some "c"; key := Some "k"; ip := None |}.
Definition camera_keyless : CameraConfig :=
  {| name := "Shed"; id := Some "s"; key := None; ip := None |}.
Definition cached : state :=
  {| heap := <[0%nat := {| UUID := "tuyacam_a"; displayName := "Door";
                           device := None; category := None |}]>
             (<[1%nat := {| UUID := "tuyacam_gone"; displayName := "Gone";
                            device := Some {| name := "Gone"; id := Some "gone";
                                              key := Some "k"; ip := None |};
                            category := None |}]> ∅);
     accessories := [0%nat; 1%nat];
     outputs := [] |}.

End Platform_case.

(** ** Vocabulary of the stated properties

    Definitions that follow the wording of the properties, to be compared
    with the code above. *)

Module Wording.

(** The length field of a chunk, where [handleData] and
    [handleStreamData] read it (offset 16); 0 when the chunk is too
    short to hold one. *)
Definition length_field (data : Buffer) : Z :=
  match readUInt32BE data 16 with
  | Ok v => v
  | Throw _ => 0
  end.

(** A chunk the control connection discards: shorter than 20 bytes, not
    beginning with the magic header, or not holding the full frame its
    length field announces. *)
Definition chunk_discarded (data : Buffer) : bool :=
  (blen data <? 20)
  || negb (starts_with_magic data)
  || (blen data <? 20 + length_field data).

(** The frame at offset 0 of a chunk: 20 bytes and as many as the length
    field says. *)
Definition frame_at_0 (data : Buffer) : Buffer :=
  take (Z.to_nat (20 + length_field data)) data.

(** *** Control connection *)

Section with_runtime.
Context `{NodeCrypto} `{NodeText}.

(** A command that goes out: the connection is up, the payload is
    encrypted (the key has 16 bytes), and command code, next sequence
    number and frame length fit their 32-bit fields. *)
Definition goes_out (now command : Z) (payload : list (string * jsvalue))
    (st : Device.state) : bool :=
  Device.connected st
  && match Cipher.aes_128_ecb_encrypt (Device.localKey st)
             (Device.command_bytes now payload st) with
     | Ok encrypted =>
         (0 <=? command) && (command <=? 0xFFFFFFFF)
         && (0 <=? Device.sequence st + 1) && (Device.sequence st + 1 <=? 0xFFFFFFFF)
         && (blen encrypted + 8 <=? 0xFFFFFFFF)
     | Throw _ => false
     end.

End with_runtime.

(** The object after a command went out at time [now] as [packet]: one
    more pending promise, one more timeout, one more listener, under the
    next sequence number. *)
Definition after_send (now : Z) (packet : Buffer) (st : Device.state) : Device.state :=
  let call := Device.fresh st in
  let timeout := S (Device.fresh st) in
  let seq := Device.sequence st + 1 in
  Device.State (Device.deviceId st) (Device.localKey st) (Device.connected st) seq
    (<[seq := default [] (Device.listeners st !! seq) ++ [Device.Handler timeout call]]>
       (Device.listeners st))
    (Device.timers st ++ [Device.Timer timeout (now + 5000) (Device.RejectCall call)])
    (<[call := Device.Pending]> (Device.promises st))
    (S (S (Device.fresh st)))
    (Device.outputs st ++ [Device.SocketWrite packet]).

(** The payload of a status push that carries the motion-detected data
    point: an object whose [dps] is an object with an entry for data
    point 115. *)
Definition carries_motion (payload : jsvalue) : bool :=
  match payload with
  | VObj fields =>
      match Value.field "dps" fields with
      | VObj dps =>
          negb (Value.is_undefined (Value.field Device.DP_MOTION_DETECTED_key dps))
      | _ => false
      end
  | _ => false
  end.

(** The timeout that clears the motion state armed at time [now] under
    identity [id]; the dwell time is 30 seconds. *)
Definition motion_clear (id : nat) (now : Z) : Device.timer :=
  Device.Timer id (now + 30000) Device.ClearMotion.

(** A call that no response has settled: pending, or timed out. *)
Definition unresolved (call : nat) (st : Device.state) : Prop :=
  Device.promises st !! call = Some Device.Pending
  \/ Device.promises st !! call = Some (Device.Rejected CommandTimeout).


(** States the object can be in: no listener waits for a sequence number
    not yet given out, timers carry distinct identities below the next
    fresh one, and the timeout a listener would clear is the
    timeout of its own call. *)
Record well_formed (st : Device.state) : Prop := WellFormed {
  wf_listener_seq k hs :
    Device.listeners st !! k = Some hs -> k <= Device.sequence st;
  wf_listener_ids k hs h :
    Device.listeners st !! k = Some hs -> h ∈ hs ->
    (Device.h_timeout h < Device.fresh st)%nat
    /\ (Device.h_call h < Device.fresh st)%nat;
  wf_listener_timer k hs h t :
    Device.listeners st !! k = Some hs -> h ∈ hs -> t ∈ Device.timers st ->
    Device.t_id t = Device.h_timeout h ->
    Device.t_action t = Device.RejectCall (Device.h_call h);
  wf_timer_ids t :
    t ∈ Device.timers st -> (Device.t_id t < Device.fresh st)%nat;
  wf_timer_nodup : NoDup (Device.t_id <$> Device.timers st);
}.

(** *** Stream connection *)

(** A frame as the stream scanner delimits it: it begins with the magic
    header and is as long as 20 bytes and its length field say. *)
Definition stream_frame (frame : Buffer) : bool :=
  (20 <=? blen frame)
  && starts_with_magic frame
  && (blen frame =? 20 + length_field frame).

Section with_runtime.
Context `{NodeCrypto}.

(** The stream object after a whole frame was taken from its buffer: a
    stream-data frame has its payload emitted, decrypted where that
    works. *)
Definition after_frame (command : Z) (frame : Buffer) (st : Stream.state)
  : Stream.state :=
  let st := Stream.set_frameBuffer [] st in
  if command =? Stream.CMD_STREAM_DATA
  then Stream.emit
         (Stream.EmitVideoData
            (Stream.decryptPayload (slice frame 20 (20 + length_field frame - 8)) st))
         st
  else st.

(** Chunks handed to [handleStreamData] one after the other, as the
    ['data'] events of the socket do; an exception ends the feed.  The
    packets of the calls are collected. *)
Fixpoint feed (chunks : list Buffer) (st : Stream.state) : option Stream.outcome :=
  match chunks with
  | [] => Some (Stream.Outcome st [] None)
  | chunk :: rest =>
      match Stream.handleStreamData chunk st with
      | Some (Stream.Outcome st' seen None) =>
          match feed rest st' with
          | Some (Stream.Outcome st'' seen' e) =>
              Some (Stream.Outcome st'' (seen ++ seen') e)
          | None => None
          end
      | other => other
      end
  end.

End with_runtime.

Section with_runtime.
Context `{NodeCrypto} `{NodeText}.

(** What [decryptPayload] returns under [key]: the plaintext, or the
    data as it came when decryption throws. *)
Definition decrypted_with (key data : Buffer) : Buffer :=
  match Cipher.aes_128_ecb_decrypt key data with
  | Ok plain => plain
  | Throw _ => data
  end.

(** The ['videoData'] events of one packet that [handleStreamData] took
    from its buffer, read under [key]: for a stream-data packet its
    payload decrypted with [key], for any other packet none. *)
Definition video_under (key : Buffer) (seen : Z * Buffer) : list Stream.output :=
  if seen.1 =? Stream.CMD_STREAM_DATA
  then [Stream.EmitVideoData
          (decrypted_with key (slice seen.2 20 (20 + length_field seen.2 - 8)))]
  else [].

(** The stream object later on: after chunks handled (also by a call
    that threw) and calls of [stop]. *)
Inductive later (st : Stream.state) : Stream.state -> Prop :=
  | later_now : later st st
  | later_data st' data out :
      later st st' -> Stream.handleStreamData data st' = Some out ->
      later st (Stream.final out)
  | later_stop st' now :
      later st st' -> later st (Stream.stop now st').2.

End with_runtime.

End Wording.

(** ** Concrete objects for the scenarios of Part II *)

Module Scenario.

(** A 16-character local key. *)
Definition key16 : Buffer := Text.bytes_of_string "0123456789abcdef".

(** A control connection that is up. *)
Definition camera : Device.state :=
  Device.on_connect (Device.initial "cam01" key16).

(** A stream connection before its stream request. *)
Definition decoder : Stream.state := Stream.initial "cam01" key16.

(** The payload of [getStatus]. *)
Definition status_query : list (string * jsvalue) := [("dps", VObj [])]%string.


(** A status push with the motion-detected data point. *)
Definition motion_push : jsvalue :=
  VObj [("dps", VObj [("115", VStr "aGk=")])]%string.

(** Sixteen payload bytes that begin 00 00 00 08. *)
Definition payload16 : Buffer := [x00; x00; x00; x08] ++ replicate 12 x00.

(** Sixteen payload bytes that begin 00 00 00 00. *)
Definition zero16 : Buffer := replicate 16 x00.

(** Sixteen bytes without a magic header, then a magic header. *)
Definition late_header : Buffer := replicate 16 xff ++ magic_header.

(** A frame in the layout the two parsers read: magic header, four
    bytes, the command word (stream data) at offset 8, four bytes, the
    length word (16) at offset 16, and 16 more bytes. *)
Definition parser_frame : Buffer :=
  magic_header ++ [x00; x00; x00; x01] ++ [x00; x00; x00; xd1]
    ++ [x00; x00; x00; x02] ++ [x00; x00; x00; x10]
    ++ [x01; x02; x03; x04; x05; x06; x07; x08] ++ replicate 4 x00 ++ magic_footer.

End Scenario.

(** ** Frames on the wire

    What a frame holds where the two parsers read it, and what a run of
    frames makes the stream decoder emit. *)

Module Frames.

(** The command word of a chunk, where [handleData] and
    [handleStreamData] read it (offset 8); 0 when the chunk is too short
    to hold one. *)
Definition command_field (data : Buffer) : Z :=
  match readUInt32BE data 8 with
  | Ok v => v
  | Throw _ => 0
  end.

(** The sequence word of a chunk, where [handleData] reads it
    (offset 12). *)
Definition sequence_field (data : Buffer) : Z :=
  match readUInt32BE data 12 with
  | Ok v => v
  | Throw _ => 0
  end.

(** The payload bytes of a frame: [slice(20, 20 + length - 8)]. *)
Definition payload (frame : Buffer) : Buffer :=
  slice frame 20 (20 + Wording.length_field frame - 8).

(** A frame as [handleStreamData] reports it: command word and bytes. *)
Definition tagged (frame : Buffer) : Z * Buffer := (command_field frame, frame).

(** The [i]-th 16-byte block of a buffer, counting from 0. *)
Definition block (i : nat) (data : Buffer) : Buffer := take 16 (drop (16 * i) data).

(** [needle] occurs in [buf] at index [i]. *)
Definition occurs_at (needle buf : Buffer) (i : nat) : Prop :=
  take (length needle) (drop i buf) = needle.

Section with_crypto.
Context `{NodeCrypto}.

(** The ['videoData'] events of one frame under the key of [st]: one for
    a stream-data frame, none for any other. *)
Definition video (st : Stream.state) (frame : Buffer) : list Stream.output :=
  if command_field frame =? Stream.CMD_STREAM_DATA
  then [Stream.EmitVideoData (Stream.decryptPayload (payload frame) st)]
  else [].

(** The decoder after [frames] have been taken from its buffer, all of
    them, with nothing left over. *)
Definition drained (frames : list Buffer) (st : Stream.state) : Stream.state :=
  Stream.State (Stream.deviceId st) (Stream.localKey st) (Stream.sessionKey st) []
    (Stream.outputs st ++ concat (video st <$> frames)).

End with_crypto.

End Frames.

(** ** More concrete objects for the scenarios of Part II *)

Module Cases.
Import Scenario.

(** A frame in the parsers' layout without payload bytes: command 9 at
    offset 8, sequence 1 at offset 12, length word 8, then 8 bytes. *)
Definition ack_head : Buffer :=
  magic_header ++ uint32BE 0 ++ uint32BE 9 ++ uint32BE 1 ++ uint32BE 8.

Definition ack_frame : Buffer := ack_head ++ uint32BE 0 ++ magic_footer.

(** The JSON text of a status reply with the motion switch on, and its
    encryption under the 16-character key. *)
Definition status_reply : jsvalue := VObj [("dps", VObj [("134", VBool true)])]%string.

Definition status_reply_text : Buffer := Text.stringify status_reply.

Definition status_reply_cipher : Buffer :=
  Eval vm_compute in
    match Cipher.aes_128_ecb_encrypt key16 status_reply_text with
    | Ok encrypted => encrypted
    | Throw _ => []
    end.

(** The header of the frame that carries it: command 10 at offset 8,
    sequence 1 at offset 12. *)
Definition status_reply_head : Buffer :=
  magic_header ++ uint32BE 0 ++ uint32BE 10 ++ uint32BE 1
    ++ uint32BE (blen status_reply_cipher + 8).

(** The control connection with one status query under way, sent at
    time 1000. *)
Definition querying : Device.state :=
  (Device.sendCommand 1000 0x0a status_query camera).2.

(** The control connection with its counter at the last 32-bit value. *)
Definition worn : Device.state := Device.set_sequence 0xFFFFFFFF camera.

(** Thirty-two equal plaintext bytes: two equal blocks. *)
Definition two_equal_blocks : Buffer := replicate 32 x41.

End Cases.
(** * Part II: properties *)

(** ** Bytes *)

Lemma byte_to_Z_range b : 0 <= byte_to_Z b < 256.
Proof.
  unfold byte_to_Z. pose proof (Byte.to_N_bounded b). lia.
Qed.

Lemma byte_of_to_Z b : byte_of_Z (byte_to_Z b) = b.
Proof.
  unfold byte_of_Z, byte_to_Z.
  pose proof (Byte.to_N_bounded b).
  rewrite Z.mod_small, N2Z.id, Byte.of_to_N by lia. reflexivity.
Qed.

Lemma byte_to_of_Z z : byte_to_Z (byte_of_Z z) = z mod 256.
Proof.
  unfold byte_to_Z, byte_of_Z.
  pose proof (Z.mod_pos_bound z 256 ltac:(lia)) as Hr.
  destruct (Byte.of_N (Z.to_N (z mod 256))) as [b|] eqn:E.
  - apply Byte.to_of_N in E. rewrite E. lia.
  - apply Byte.of_N_None_iff in E. lia.
Qed.

(** ** Facts on the 32-bit operators *)

Section JS_facts.
Import JS.

Lemma ToUint32_range z : 0 <= ToUint32 z < 2 ^ 32.
Proof. unfold ToUint32. apply Z.mod_pos_bound. reflexivity. Qed.

Lemma ToUint32_small z : 0 <= z < 2 ^ 32 -> ToUint32 z = z.
Proof. intros. unfold ToUint32. apply Z.mod_small. assumption. Qed.

Lemma ToInt32_small z : - 2 ^ 31 <= z < 2 ^ 31 -> ToInt32 z = z.
Proof.
  intros. unfold ToInt32. rewrite Z.mod_small; change (2 ^ 32) with (2 * 2 ^ 31); lia.
Qed.

Lemma ToUint32_ToInt32 z : ToUint32 (ToInt32 z) = ToUint32 z.
Proof.
  unfold ToUint32, ToInt32.
  rewrite Zminus_mod, Z.mod_mod by discriminate.
  rewrite <- Zminus_mod. f_equal. lia.
Qed.

Lemma ToUint32_testbit z n :
  Z.testbit (ToUint32 z) n = if n <? 32 then Z.testbit z n else false.
Proof.
  unfold ToUint32. destruct (Z.ltb_spec n 32).
  - destruct (Z.neg_nonneg_cases n) as [?|?].
    + rewrite !Z.testbit_neg_r by assumption. reflexivity.
    + apply Z.mod_pow2_bits_low. lia.
  - apply Z.mod_pow2_bits_high. lia.
Qed.

Lemma ToUint32_inj_bits a b :
  (forall n, 0 <= n < 32 -> Z.testbit a n = Z.testbit b n) ->
  ToUint32 a = ToUint32 b.
Proof.
  intros H. apply Z.bits_inj'. intros n Hn.
  rewrite !ToUint32_testbit. destruct (Z.ltb_spec n 32); [apply H; lia | reflexivity].
Qed.

Lemma ToInt32_testbit z n : 0 <= n < 32 -> Z.testbit (ToInt32 z) n = Z.testbit z n.
Proof.
  intros Hn.
  pose proof (ToUint32_testbit (ToInt32 z) n) as H1.
  pose proof (ToUint32_testbit z n) as H2.
  rewrite ToUint32_ToInt32 in H1.
  destruct (Z.ltb_spec n 32); [congruence | lia].
Qed.

Lemma ToUint32_xor a b : ToUint32 (xor a b) = Z.lxor (ToUint32 a) (ToUint32 b).
Proof.
  unfold xor. rewrite ToUint32_ToInt32.
  apply Z.bits_inj'. intros n Hn.
  rewrite Z.lxor_spec, !ToUint32_testbit.
  destruct (Z.ltb_spec n 32); [|reflexivity].
  rewrite Z.lxor_spec, !ToInt32_testbit by lia. reflexivity.
Qed.

Lemma ToUint32_and a b : ToUint32 (and a b) = Z.land (ToUint32 a) (ToUint32 b).
Proof.
  unfold and. rewrite ToUint32_ToInt32.
  apply Z.bits_inj'. intros n Hn.
  rewrite Z.land_spec, !ToUint32_testbit.
  destruct (Z.ltb_spec n 32); [|reflexivity].
  rewrite Z.land_spec, !ToInt32_testbit by lia. reflexivity.
Qed.

Lemma ToUint32_not a : ToUint32 (not a) = Z.lxor (ToUint32 a) 0xFFFFFFFF.
Proof.
  unfold not. rewrite ToUint32_ToInt32.
  apply Z.bits_inj'. intros n Hn.
  rewrite Z.lxor_spec, !ToUint32_testbit.
  change 0xFFFFFFFF with (Z.ones 32).
  destruct (Z.ltb_spec n 32).
  - rewrite Z.lnot_spec, ToInt32_testbit, Z.ones_spec_low by lia.
    destruct (Z.testbit a n); reflexivity.
  - rewrite Z.ones_spec_high by lia. reflexivity.
Qed.

Lemma ushr_0 a : ushr a 0 = ToUint32 a.
Proof. unfold ushr. apply Z.shiftr_0_r. Qed.

End JS_facts.

(** ** The two CRC routines against the reference *)

Module CRC_facts.
Import JS CRC.

Lemma ref_bit_range r : 0 <= r < 2 ^ 32 -> 0 <= ref_bit r < 2 ^ 32.
Proof.
  intros Hr. rewrite <- (ToUint32_small r Hr).
  assert (ref_bit (ToUint32 r) = ToUint32 (ref_bit (ToUint32 r))) as ->;
    [|apply ToUint32_range].
  symmetry. unfold ToUint32 at 1. apply Z.mod_small.
  assert (0 <= Z.shiftr (ToUint32 r) 1 < 2 ^ 31) as Hs.
  { rewrite Z.shiftr_div_pow2 by lia. pose proof (ToUint32_range r).
    change (2 ^ 32) with (2 * 2 ^ 31) in *. change (2 ^ 1) with 2.
    split; [apply Z.div_pos; lia | apply Z.div_lt_upper_bound; lia]. }
  unfold ref_bit. destruct (Z.odd _).
  - split; [apply Z.lxor_nonneg; unfold poly; lia|].
    apply Z.log2_lt_cancel. rewrite Z.log2_pow2 by lia.
    eapply Z.le_lt_trans; [apply Z.log2_lxor; unfold poly; lia|].
    apply Z.max_lub_lt; [|reflexivity].
    destruct (Z.eq_dec (Z.shiftr (ToUint32 r) 1) 0) as [->|]; [reflexivity|].
    apply Z.log2_lt_pow2; lia.
  - change (2 ^ 32) with (2 * 2 ^ 31). lia.
Qed.

Lemma and_1 c : and c 1 = Z.b2z (Z.odd (ToUint32 c)).
Proof.
  unfold and. rewrite (ToInt32_small 1) by (cbn; lia).
  change 1 with (Z.ones 1) at 1. rewrite Z.land_ones by lia.
  rewrite <- Z.bit0_mod, ToInt32_testbit by lia.
  rewrite <- Z.bit0_odd, ToUint32_testbit. cbn [Z.ltb Z.compare].
  apply ToInt32_small. destruct (Z.testbit c 0); cbn; lia.
Qed.

Lemma and_1_eqb c : (and c 1 =? 0) = negb (Z.odd (ToUint32 c)).
Proof. rewrite and_1. destruct (Z.odd (ToUint32 c)); reflexivity. Qed.

Lemma ushr_1 c : ushr c 1 = Z.shiftr (ToUint32 c) 1.
Proof. reflexivity. Qed.

Lemma ushr_8 c : ushr c 8 = Z.shiftr (ToUint32 c) 8.
Proof. reflexivity. Qed.

Lemma shiftr_uint32_small c k :
  0 <= k -> 0 <= Z.shiftr (ToUint32 c) k < 2 ^ 32.
Proof.
  intros Hk. pose proof (ToUint32_range c) as Hc.
  rewrite Z.shiftr_div_pow2 by assumption.
  assert (0 < 2 ^ k) by (apply Z.pow_pos_nonneg; lia).
  split; [apply Z.div_pos; lia|].
  apply Z.div_lt_upper_bound; [assumption|]. nia.
Qed.

(** Both inner loops are the reference step on the unsigned view. *)
Lemma crc_bit_ref c : ToUint32 (crc_bit c) = ref_bit (ToUint32 c).
Proof.
  unfold crc_bit, ref_bit. rewrite and_1_eqb, ushr_1.
  destruct (Z.odd (ToUint32 c)); cbn [negb].
  - rewrite ToUint32_xor. f_equal. apply ToUint32_small, shiftr_uint32_small. lia.
  - apply ToUint32_small, shiftr_uint32_small. lia.
Qed.

Lemma table_bit_ref c : ToUint32 (table_bit c) = ref_bit (ToUint32 c).
Proof.
  unfold table_bit, ref_bit. rewrite and_1_eqb, ushr_1.
  destruct (Z.odd (ToUint32 c)); cbn [negb].
  - rewrite ToUint32_xor, Z.lxor_comm. f_equal.
    apply ToUint32_small, shiftr_uint32_small. lia.
  - apply ToUint32_small, shiftr_uint32_small. lia.
Qed.

Lemma iter_ref (f : Z -> Z) n c :
  (forall c, ToUint32 (f c) = ref_bit (ToUint32 c)) ->
  ToUint32 (Nat.iter n f c) = Nat.iter n ref_bit (ToUint32 c).
Proof.
  intros Hf. induction n as [|n IH]; [reflexivity|].
  cbn [Nat.iter nat_rect]. rewrite Hf. f_equal. exact IH.
Qed.

Lemma iter_ref_range n r : 0 <= r < 2 ^ 32 -> 0 <= Nat.iter n ref_bit r < 2 ^ 32.
Proof.
  intros Hr. induction n as [|n IH]; [exact Hr|].
  cbn [Nat.iter nat_rect]. apply ref_bit_range, IH.
Qed.

Lemma byte_uint32 b : ToUint32 (byte_to_Z b) = byte_to_Z b.
Proof.
  apply ToUint32_small. pose proof (byte_to_Z_range b).
  change (2 ^ 32) with 4294967296. lia.
Qed.

Lemma crc_byte_ref c b : ToUint32 (crc_byte c b) = ref_byte (ToUint32 c) b.
Proof.
  unfold crc_byte, ref_byte.
  rewrite (iter_ref _ _ _ crc_bit_ref), ToUint32_xor, byte_uint32. reflexivity.
Qed.

Lemma fold_left_step {A B} (f : A -> B -> A) x l a :
  fold_left f (x :: l) a = fold_left f l (f a x).
Proof. reflexivity. Qed.

Lemma fold_crc_byte_ref data c :
  ToUint32 (fold_left crc_byte data c) = fold_left ref_byte data (ToUint32 c).
Proof.
  revert c. induction data as [|b data IH]; intros c.
  - reflexivity.
  - rewrite !fold_left_step. rewrite IH, crc_byte_ref. reflexivity.
Qed.

(** *** The table step is eight bit steps *)

Lemma ref_bit_lxor a b : ref_bit (Z.lxor a b) = Z.lxor (ref_bit a) (ref_bit b).
Proof.
  unfold ref_bit.
  rewrite <- !Z.bit0_odd, Z.lxor_spec, Z.shiftr_lxor.
  set (a' := Z.shiftr a 1). set (b' := Z.shiftr b 1).
  destruct (Z.testbit a 0), (Z.testbit b 0); cbn [xorb];
    apply Z.bits_inj'; intros n _; rewrite ?Z.lxor_spec;
    destruct (Z.testbit a' n), (Z.testbit b' n), (Z.testbit poly n); reflexivity.
Qed.

Lemma iter_ref_lxor n a b :
  Nat.iter n ref_bit (Z.lxor a b)
  = Z.lxor (Nat.iter n ref_bit a) (Nat.iter n ref_bit b).
Proof.
  induction n as [|n IH]; [reflexivity|].
  rewrite !Nat.iter_succ, IH. apply ref_bit_lxor.
Qed.

Lemma ref_bit_shiftl y k : 0 <= k -> ref_bit (Z.shiftl y (Z.succ k)) = Z.shiftl y k.
Proof.
  intros Hk. unfold ref_bit.
  rewrite <- Z.bit0_odd, Z.shiftl_spec_low by lia.
  rewrite Z.shiftr_shiftl_l by lia. f_equal. lia.
Qed.

Lemma iter_ref_shiftl n y : Nat.iter n ref_bit (Z.shiftl y (Z.of_nat n)) = y.
Proof.
  induction n as [|n IH]; [apply Z.shiftl_0_r|].
  rewrite Nat.iter_succ_r, Nat2Z.inj_succ, ref_bit_shiftl by lia. exact IH.
Qed.

Lemma split_low8 x : x = Z.lxor (Z.shiftl (Z.shiftr x 8) 8) (Z.land x 255).
Proof.
  apply Z.bits_inj'. intros n Hn.
  rewrite Z.lxor_spec, Z.land_spec. change 255 with (Z.ones 8).
  destruct (Z.ltb_spec n 8).
  - rewrite Z.shiftl_spec_low, Z.ones_spec_low by lia.
    rewrite andb_true_r. reflexivity.
  - rewrite Z.shiftl_spec, Z.shiftr_spec, Z.ones_spec_high by lia.
    rewrite andb_false_r, xorb_false_r. f_equal. lia.
Qed.

Lemma ref_byte_table x :
  Nat.iter 8 ref_bit x
  = Z.lxor (Z.shiftr x 8) (Nat.iter 8 ref_bit (Z.land x 255)).
Proof.
  rewrite (split_low8 x) at 1.
  rewrite iter_ref_lxor. f_equal.
  apply (iter_ref_shiftl 8).
Qed.

Lemma table_get_entry i :
  0 <= i < 256 -> table_get getCRCTable i = table_entry i.
Proof.
  intros Hi. unfold table_get, getCRCTable.
  destruct (Z.ltb_spec i 0); [lia|].
  assert (Z.to_nat i < 256)%nat as Hn by lia.
  rewrite (nth_indep _ 0 (table_entry (Z.of_nat 0)))
    by (rewrite length_map, length_seq; exact Hn).
  rewrite (map_nth (fun i => table_entry (Z.of_nat i))), seq_nth by exact Hn.
  f_equal. lia.
Qed.

Lemma and_255 x : and x 0xFF = Z.land (ToUint32 x) 255.
Proof.
  unfold and. rewrite (ToInt32_small 255) by (cbn; lia).
  assert (Z.land (ToInt32 x) 255 = Z.land (ToUint32 x) 255) as ->.
  { apply Z.bits_inj'. intros n Hn. rewrite !Z.land_spec.
    change 255 with (Z.ones 8). destruct (Z.ltb_spec n 8).
    - rewrite ToInt32_testbit, ToUint32_testbit by lia.
      destruct (Z.ltb_spec n 32); [reflexivity | lia].
    - rewrite Z.ones_spec_high, !andb_false_r by lia. reflexivity. }
  apply ToInt32_small.
  change 255 with (Z.ones 8). rewrite Z.land_ones by lia.
  pose proof (Z.mod_pos_bound (ToUint32 x) (2 ^ 8) eq_refl).
  change (2 ^ 8) with 256 in *. change (2 ^ 31) with 2147483648. lia.
Qed.

Lemma land_255_range x : 0 <= Z.land x 255 < 256.
Proof.
  change 255 with (Z.ones 8). rewrite Z.land_ones by lia.
  apply (Z.mod_pos_bound x (2 ^ 8)). reflexivity.
Qed.

Lemma table_entry_ref i :
  0 <= i < 256 -> ToUint32 (table_entry i) = Nat.iter 8 ref_bit i.
Proof.
  intros Hi. unfold table_entry.
  rewrite (iter_ref _ _ _ table_bit_ref). f_equal.
  apply ToUint32_small. change (2 ^ 32) with 4294967296. lia.
Qed.

Lemma shiftr_lxor_byte u b :
  Z.shiftr (Z.lxor u (byte_to_Z b)) 8 = Z.shiftr u 8.
Proof.
  rewrite Z.shiftr_lxor.
  assert (Z.shiftr (byte_to_Z b) 8 = 0) as ->; [|apply Z.lxor_0_r].
  rewrite Z.shiftr_div_pow2 by lia. apply Z.div_small.
  pose proof (byte_to_Z_range b). change (2 ^ 8) with 256. lia.
Qed.

Lemma crc32_byte_ref c b :
  ToUint32 (crc32_byte getCRCTable c b) = ref_byte (ToUint32 c) b.
Proof.
  unfold crc32_byte, ref_byte.
  rewrite ToUint32_xor, ushr_8, and_255, ToUint32_xor, byte_uint32.
  set (x := Z.lxor (ToUint32 c) (byte_to_Z b)).
  pose proof (land_255_range x) as Hx.
  rewrite (table_get_entry _ Hx), (table_entry_ref _ Hx).
  rewrite (ToUint32_small (Z.shiftr _ _)) by (apply shiftr_uint32_small; lia).
  rewrite (ref_byte_table x). f_equal.
  symmetry. apply shiftr_lxor_byte.
Qed.

Lemma fold_crc32_byte_ref data c :
  ToUint32 (fold_left (crc32_byte getCRCTable) data c)
  = fold_left ref_byte data (ToUint32 c).
Proof.
  revert c. induction data as [|b data IH]; intros c.
  - reflexivity.
  - rewrite !fold_left_step. rewrite IH, crc32_byte_ref. reflexivity.
Qed.

Lemma final_xor crc r :
  ToUint32 crc = r -> ushr (not crc) 0 = Z.lxor r 0xFFFFFFFF.
Proof. intros <-. rewrite ushr_0. apply ToUint32_not. Qed.

Lemma writeUInt32BE_uint32 z : writeUInt32BE (ToUint32 z) = Ok (uint32BE (ToUint32 z)).
Proof.
  unfold writeUInt32BE. pose proof (ToUint32_range z) as Hz.
  change (2 ^ 32) with 4294967296 in Hz.
  destruct (Z.leb_spec 0 (ToUint32 z)); [|lia].
  destruct (Z.leb_spec (ToUint32 z) 0xFFFFFFFF); [reflexivity | lia].
Qed.

Lemma calculateCRC_ref data :
  calculateCRC data = Ok (uint32BE (crc32_iso_hdlc data)).
Proof.
  unfold calculateCRC, crc32_iso_hdlc.
  rewrite <- (fold_crc_byte_ref data 0xFFFFFFFF : _ = fold_left ref_byte data 0xFFFFFFFF).
  rewrite <- ToUint32_not, <- ushr_0. apply writeUInt32BE_uint32.
Qed.

Lemma calculateCRC32_ref data :
  calculateCRC32 data = Ok (uint32BE (crc32_iso_hdlc data)).
Proof.
  unfold calculateCRC32, crc32_iso_hdlc.
  rewrite <- (fold_crc32_byte_ref data 0xFFFFFFFF : _ = fold_left ref_byte data 0xFFFFFFFF).
  rewrite <- ToUint32_not, <- ushr_0. apply writeUInt32BE_uint32.
Qed.

(** C6.  The bitwise CRC of the control connection and the table-driven
    CRC of the stream connection return, on every buffer, the same four
    bytes: the big-endian CRC-32/ISO-HDLC of the input (polynomial
    0xEDB88320 reflected, initial value and final XOR 0xFFFFFFFF).  The
    empty input gives 0x00000000 and ASCII 123456789 gives 0xCBF43926. *)
Theorem crc_engines_agree_with_iso_hdlc :
  (forall data : Buffer,
      calculateCRC data = Ok (uint32BE (crc32_iso_hdlc data))
      /\ calculateCRC32 data = calculateCRC data)
  /\ crc32_iso_hdlc [] = 0x00000000
  /\ crc32_iso_hdlc check_ascii = 0xCBF43926
  /\ calculateCRC [] = Ok [x00; x00; x00; x00]
  /\ calculateCRC32 [] = Ok [x00; x00; x00; x00]
  /\ calculateCRC check_ascii = Ok [xcb; xf4; x39; x26]
  /\ calculateCRC32 check_ascii = Ok [xcb; xf4; x39; x26].
Proof.
  split; [|repeat split; vm_compute; reflexivity].
  intros data. rewrite calculateCRC_ref, calculateCRC32_ref. split; reflexivity.
Qed.

End CRC_facts.

(** ** Cipher layer: padding and codebook round trips *)

Module Cipher_facts.
Import Cipher.

Lemma pad_amount n : (1 <= 16 - n mod 16 <= 16)%nat.
Proof. pose proof (Nat.mod_upper_bound n 16). lia. Qed.

Lemma pkcs7_pad_length plain :
  exists k, (length (pkcs7_pad plain) = 16 * S k)%nat.
Proof.
  unfold pkcs7_pad. rewrite length_app, length_replicate.
  exists (length plain / 16)%nat.
  pose proof (Nat.div_mod_eq (length plain) 16).
  pose proof (pad_amount (length plain)). lia.
Qed.

Lemma byte_of_Z_small n : (n <= 255)%nat -> Z.to_nat (byte_to_Z (byte_of_Z (Z.of_nat n))) = n.
Proof.
  intros Hn. rewrite byte_to_of_Z, Z.mod_small by lia. apply Nat2Z.id.
Qed.

Lemma pkcs7_unpad_pad plain : pkcs7_unpad (pkcs7_pad plain) = Ok plain.
Proof.
  unfold pkcs7_unpad, pkcs7_pad.
  pose proof (pad_amount (length plain)) as Hn.
  set (n := (16 - length plain mod 16)%nat) in *.
  set (b := byte_of_Z (Z.of_nat n)).
  assert (Z.to_nat (byte_to_Z b) = n) as Hb by (apply byte_of_Z_small; lia).
  assert (last (plain ++ replicate n b) = Some b) as ->.
  { destruct n as [|m]; [lia|].
    rewrite replicate_S_end, app_assoc. apply last_snoc. }
  cbv zeta. rewrite Hb, length_app, length_replicate.
  replace (length plain + n - n)%nat with (length plain) by lia.
  rewrite drop_app_length, take_app_length.
  rewrite !bool_decide_eq_false_2 by lia.
  rewrite bool_decide_eq_true_2 by reflexivity. reflexivity.
Qed.

Section with_laws.
Context `{NodeCrypto} {laws : NodeCryptoLaws _}.

Lemma ecb_blocks_length k f data :
  (forall b, length b = 16%nat -> length (f b) = 16%nat) ->
  (16 * k <= length data)%nat ->
  length (ecb_blocks k f data) = (16 * k)%nat.
Proof.
  intros Hf. revert data. induction k as [|k IH]; intros data Hlen; [reflexivity|].
  cbn [ecb_blocks]. rewrite length_app, Hf, IH.
  - lia.
  - rewrite length_drop. lia.
  - rewrite length_take. lia.
Qed.

Lemma ecb_blocks_inverse key k data :
  length key = 16%nat ->
  (16 * k <= length data)%nat ->
  ecb_blocks k (aes128_decrypt_block key)
             (ecb_blocks k (aes128_encrypt_block key) data)
  = take (16 * k) data.
Proof.
  intros Hkey. revert data. induction k as [|k IH]; intros data Hlen; [reflexivity|].
  cbn [ecb_blocks].
  assert (length (take 16 data) = 16%nat) as Hb by (rewrite length_take; lia).
  pose proof (aes128_encrypt_block_length key _ Hb) as He.
  rewrite take_app_length' by (symmetry; exact He).
  rewrite drop_app_length' by (symmetry; exact He).
  rewrite aes128_decrypt_encrypt_block by assumption.
  rewrite IH by (rewrite length_drop; lia).
  rewrite take_take_drop. f_equal. lia.
Qed.

Lemma whole_blocks (data : Buffer) k :
  length data = (16 * k)%nat -> (length data / 16 = k)%nat.
Proof. intros ->. rewrite Nat.mul_comm. apply Nat.div_mul. lia. Qed.

Lemma ecb_encrypt_length key data k :
  length data = (16 * k)%nat ->
  length (ecb (aes128_encrypt_block key) data) = (16 * k)%nat.
Proof.
  intros Hlen. unfold ecb. rewrite (whole_blocks _ _ Hlen).
  apply ecb_blocks_length; [apply aes128_encrypt_block_length | lia].
Qed.

Lemma ecb_inverse key data k :
  length key = 16%nat ->
  length data = (16 * k)%nat ->
  ecb (aes128_decrypt_block key) (ecb (aes128_encrypt_block key) data) = data.
Proof.
  intros Hkey Hlen. unfold ecb at 1.
  rewrite (whole_blocks _ _ (ecb_encrypt_length key _ _ Hlen)).
  unfold ecb. rewrite (whole_blocks _ _ Hlen).
  rewrite ecb_blocks_inverse by (assumption || lia).
  apply take_ge. lia.
Qed.

(** The library round trip under a 16-byte key. *)
Lemma aes_128_ecb_roundtrip key plain :
  length key = 16%nat ->
  exists encrypted,
    aes_128_ecb_encrypt key plain = Ok encrypted
    /\ encrypted <> []
    /\ aes_128_ecb_decrypt key encrypted = Ok plain.
Proof.
  intros Hkey. unfold aes_128_ecb_encrypt, aes_128_ecb_decrypt.
  rewrite bool_decide_eq_true_2 by exact Hkey.
  destruct (pkcs7_pad_length plain) as [k Hk].
  pose proof (ecb_encrypt_length key _ _ Hk) as Hc.
  eexists. split; [reflexivity|].
  assert (ecb (aes128_encrypt_block key) (pkcs7_pad plain) <> []) as Hne.
  { intros E. rewrite E in Hc. cbn in Hc. lia. }
  split; [exact Hne|].
  rewrite bool_decide_eq_false_2 by exact Hne.
  rewrite (bool_decide_eq_true_2 (_ mod 16 = 0)%nat)
    by (rewrite Hc, Nat.mul_comm; apply Nat.Div0.mod_mul).
  cbn [negb orb].
  rewrite (ecb_inverse key _ _ Hkey Hk). apply pkcs7_unpad_pad.
Qed.

End with_laws.

End Cipher_facts.

(** ** Known answers of the executable primitives *)

Module Reference_facts.

(** FIPS 197, Appendix B. *)
Example aes_appendix_b :
  AES.encrypt_block
    (hex [0x2b; 0x7e; 0x15; 0x16; 0x28; 0xae; 0xd2; 0xa6;
          0xab; 0xf7; 0x15; 0x88; 0x09; 0xcf; 0x4f; 0x3c])
    (hex [0x32; 0x43; 0xf6; 0xa8; 0x88; 0x5a; 0x30; 0x8d;
          0x31; 0x31; 0x98; 0xa2; 0xe0; 0x37; 0x07; 0x34])
  = hex [0x39; 0x25; 0x84; 0x1d; 0x02; 0xdc; 0x09; 0xfb;
         0xdc; 0x11; 0x85; 0x97; 0x19; 0x6a; 0x0b; 0x32].
Proof. vm_compute. reflexivity. Qed.

(** FIPS 197, Appendix C.1, both directions. *)
Example aes_appendix_c1 :
  let key := hex [0x00; 0x01; 0x02; 0x03; 0x04; 0x05; 0x06; 0x07;
                  0x08; 0x09; 0x0a; 0x0b; 0x0c; 0x0d; 0x0e; 0x0f] in
  let plain := hex [0x00; 0x11; 0x22; 0x33; 0x44; 0x55; 0x66; 0x77;
                    0x88; 0x99; 0xaa; 0xbb; 0xcc; 0xdd; 0xee; 0xff] in
  let cipher := hex [0x69; 0xc4; 0xe0; 0xd8; 0x6a; 0x7b; 0x04; 0x30;
                     0xd8; 0xcd; 0xb7; 0x80; 0x70; 0xb4; 0xc5; 0x5a] in
  AES.encrypt_block key plain = cipher /\ AES.decrypt_block key cipher = plain.
Proof. vm_compute. split; reflexivity. Qed.

(** RFC 1321, test suite. *)
Example md5_empty :
  MD5.digest []
  = hex [0xd4; 0x1d; 0x8c; 0xd9; 0x8f; 0x00; 0xb2; 0x04;
         0xe9; 0x80; 0x09; 0x98; 0xec; 0xf8; 0x42; 0x7e].
Proof. vm_compute. reflexivity. Qed.

Example md5_abc :
  MD5.digest [x61; x62; x63]
  = hex [0x90; 0x01; 0x50; 0x98; 0x3c; 0xd2; 0x4f; 0xb0;
         0xd6; 0x96; 0x3f; 0x7d; 0x28; 0xe1; 0x7f; 0x72].
Proof. vm_compute. reflexivity. Qed.

Example md5_eighty_digits :
  MD5.digest (concat (replicate 8 [x31; x32; x33; x34; x35; x36; x37; x38; x39; x30]))
  = hex [0x57; 0xed; 0xf4; 0xa2; 0x2b; 0xe3; 0xc9; 0x55;
         0xac; 0x49; 0xda; 0x2e; 0x21; 0x07; 0xb6; 0x7a].
Proof. vm_compute. reflexivity. Qed.

Lemma md5_digest_has_16_bytes m : length (MD5.digest m) = 16%nat.
Proof. reflexivity. Qed.

(** *** Checks by enumeration *)

Lemma in_all_bytes b : In b AES.all_bytes.
Proof.
  unfold AES.all_bytes. apply in_map_iff.
  exists (Z.to_nat (byte_to_Z b)). pose proof (byte_to_Z_range b). split.
  - rewrite Z2Nat.id by lia. apply byte_of_to_Z.
  - apply in_seq. lia.
Qed.

Lemma forall_bytes (P : byte -> bool) :
  forallb P AES.all_bytes = true -> forall b, P b = true.
Proof. intros Hall b. apply (proj1 (forallb_forall _ _) Hall), in_all_bytes. Qed.

Lemma forall_bytes2 (P : byte -> byte -> bool) :
  forallb (fun a => forallb (P a) AES.all_bytes) AES.all_bytes = true ->
  forall a b, P a b = true.
Proof.
  intros Hall a b. apply forall_bytes.
  apply (forall_bytes (fun a => forallb (P a) AES.all_bytes) Hall).
Qed.

Lemma bytes_agree {A} `{EqDecision A} (f g : byte -> A) :
  forallb (fun a => bool_decide (f a = g a)) AES.all_bytes = true ->
  forall a, f a = g a.
Proof.
  intros Hall a.
  exact (bool_decide_eq_true_1 _
           (forall_bytes (fun a => bool_decide (f a = g a)) Hall a)).
Qed.

Lemma bytes_agree2 {A} `{EqDecision A} (f g : byte -> byte -> A) :
  forallb (fun a => forallb (fun b => bool_decide (f a b = g a b)) AES.all_bytes)
          AES.all_bytes = true ->
  forall a b, f a b = g a b.
Proof.
  intros Hall a b.
  exact (bool_decide_eq_true_1 _
           (forall_bytes2 (fun a b => bool_decide (f a b = g a b)) Hall a b)).
Qed.

Import AES.

Lemma bxor_cancel a x : bxor (bxor a x) x = a.
Proof.
  apply (bytes_agree2 (fun a x => bxor (bxor a x) x) (fun a _ => a)).
  vm_compute. reflexivity.
Qed.

Lemma inv_sbox_sbox a : inv_sbox (sbox a) = a.
Proof.
  apply (bytes_agree (fun a => inv_sbox (sbox a)) (fun a => a)).
  vm_compute. reflexivity.
Qed.

Lemma byte_to_Z_bxor a b : byte_to_Z (bxor a b) = Z.lxor (byte_to_Z a) (byte_to_Z b).
Proof.
  apply (bytes_agree2 (fun a b => byte_to_Z (bxor a b))
                      (fun a b => Z.lxor (byte_to_Z a) (byte_to_Z b))).
  vm_compute. reflexivity.
Qed.

Lemma byte_to_Z_inj a b : byte_to_Z a = byte_to_Z b -> a = b.
Proof. intros E. rewrite <- (byte_of_to_Z a), <- (byte_of_to_Z b), E. reflexivity. Qed.

Lemma bxor_comm a b : bxor a b = bxor b a.
Proof. apply byte_to_Z_inj. rewrite !byte_to_Z_bxor. apply Z.lxor_comm. Qed.

Lemma bxor_assoc a b c : bxor a (bxor b c) = bxor (bxor a b) c.
Proof. apply byte_to_Z_inj. rewrite !byte_to_Z_bxor. symmetry. apply Z.lxor_assoc. Qed.

Lemma bxor_0_r a : bxor a x00 = a.
Proof. apply byte_to_Z_inj. rewrite byte_to_Z_bxor. apply Z.lxor_0_r. Qed.

Lemma bxor_0_l a : bxor x00 a = a.
Proof. rewrite bxor_comm. apply bxor_0_r. Qed.

(** [(w + x) + (y + z) = (w + y) + (x + z)] *)
Lemma bxor_medial w x y z :
  bxor (bxor w x) (bxor y z) = bxor (bxor w y) (bxor x z).
Proof.
  rewrite <- (bxor_assoc w x), (bxor_assoc x y z), (bxor_comm x y).
  rewrite <- (bxor_assoc y x z), (bxor_assoc w y). reflexivity.
Qed.

Lemma sum4_transpose a1 b1 c1 d1 a2 b2 c2 d2 a3 b3 c3 d3 a4 b4 c4 d4 :
  sum4 (sum4 a1 b1 c1 d1) (sum4 a2 b2 c2 d2) (sum4 a3 b3 c3 d3) (sum4 a4 b4 c4 d4)
  = sum4 (sum4 a1 a2 a3 a4) (sum4 b1 b2 b3 b4) (sum4 c1 c2 c3 c4) (sum4 d1 d2 d3 d4).
Proof.
  unfold sum4.
  rewrite (bxor_medial (bxor a1 b1) (bxor c1 d1) (bxor a2 b2) (bxor c2 d2)).
  rewrite (bxor_medial a1 b1 a2 b2), (bxor_medial c1 d1 c2 d2).
  rewrite (bxor_medial (bxor a3 b3) (bxor c3 d3) (bxor a4 b4) (bxor c4 d4)).
  rewrite (bxor_medial a3 b3 a4 b4), (bxor_medial c3 d3 c4 d4).
  rewrite (bxor_medial (bxor (bxor a1 a2) (bxor b1 b2))).
  rewrite (bxor_medial (bxor a1 a2) (bxor b1 b2)).
  rewrite (bxor_medial (bxor c1 c2) (bxor d1 d2)).
  reflexivity.
Qed.

Lemma sum4_unit_1 a : sum4 a x00 x00 x00 = a.
Proof. apply (bytes_agree (fun a => sum4 a x00 x00 x00) (fun a => a)). vm_compute. reflexivity. Qed.
Lemma sum4_unit_2 a : sum4 x00 a x00 x00 = a.
Proof. apply (bytes_agree (fun a => sum4 x00 a x00 x00) (fun a => a)). vm_compute. reflexivity. Qed.
Lemma sum4_unit_3 a : sum4 x00 x00 a x00 = a.
Proof. apply (bytes_agree (fun a => sum4 x00 x00 a x00) (fun a => a)). vm_compute. reflexivity. Qed.
Lemma sum4_unit_4 a : sum4 x00 x00 x00 a = a.
Proof. apply (bytes_agree (fun a => sum4 x00 x00 x00 a) (fun a => a)). vm_compute. reflexivity. Qed.

(** The multiplications are additive. *)
Lemma mul9_bxor a b : mul9 (bxor a b) = bxor (mul9 a) (mul9 b).
Proof.
  apply (bytes_agree2 (fun a b => mul9 (bxor a b)) (fun a b => bxor (mul9 a) (mul9 b))).
  vm_compute. reflexivity.
Qed.
Lemma mul11_bxor a b : mul11 (bxor a b) = bxor (mul11 a) (mul11 b).
Proof.
  apply (bytes_agree2 (fun a b => mul11 (bxor a b)) (fun a b => bxor (mul11 a) (mul11 b))).
  vm_compute. reflexivity.
Qed.
Lemma mul13_bxor a b : mul13 (bxor a b) = bxor (mul13 a) (mul13 b).
Proof.
  apply (bytes_agree2 (fun a b => mul13 (bxor a b)) (fun a b => bxor (mul13 a) (mul13 b))).
  vm_compute. reflexivity.
Qed.
Lemma mul14_bxor a b : mul14 (bxor a b) = bxor (mul14 a) (mul14 b).
Proof.
  apply (bytes_agree2 (fun a b => mul14 (bxor a b)) (fun a b => bxor (mul14 a) (mul14 b))).
  vm_compute. reflexivity.
Qed.

Lemma mul9_sum4 w x y z : mul9 (sum4 w x y z) = sum4 (mul9 w) (mul9 x) (mul9 y) (mul9 z).
Proof. unfold sum4. rewrite !mul9_bxor. reflexivity. Qed.
Lemma mul11_sum4 w x y z :
  mul11 (sum4 w x y z) = sum4 (mul11 w) (mul11 x) (mul11 y) (mul11 z).
Proof. unfold sum4. rewrite !mul11_bxor. reflexivity. Qed.
Lemma mul13_sum4 w x y z :
  mul13 (sum4 w x y z) = sum4 (mul13 w) (mul13 x) (mul13 y) (mul13 z).
Proof. unfold sum4. rewrite !mul13_bxor. reflexivity. Qed.
Lemma mul14_sum4 w x y z :
  mul14 (sum4 w x y z) = sum4 (mul14 w) (mul14 x) (mul14 y) (mul14 z).
Proof. unfold sum4. rewrite !mul14_bxor. reflexivity. Qed.

(** InvMixColumns undoes MixColumns on the four unit columns. *)
Lemma unit_column_1 v : inv_mix_column (mul2 v) v v (mul3 v) = [v; x00; x00; x00].
Proof.
  apply (bytes_agree (fun v => inv_mix_column (mul2 v) v v (mul3 v))
                     (fun v => [v; x00; x00; x00])).
  vm_compute. reflexivity.
Qed.
Lemma unit_column_2 v : inv_mix_column (mul3 v) (mul2 v) v v = [x00; v; x00; x00].
Proof.
  apply (bytes_agree (fun v => inv_mix_column (mul3 v) (mul2 v) v v)
                     (fun v => [x00; v; x00; x00])).
  vm_compute. reflexivity.
Qed.
Lemma unit_column_3 v : inv_mix_column v (mul3 v) (mul2 v) v = [x00; x00; v; x00].
Proof.
  apply (bytes_agree (fun v => inv_mix_column v (mul3 v) (mul2 v) v)
                     (fun v => [x00; x00; v; x00])).
  vm_compute. reflexivity.
Qed.
Lemma unit_column_4 v : inv_mix_column v v (mul3 v) (mul2 v) = [x00; x00; x00; v].
Proof.
  apply (bytes_agree (fun v => inv_mix_column v v (mul3 v) (mul2 v))
                     (fun v => [x00; x00; x00; v])).
  vm_compute. reflexivity.
Qed.

(** ... hence on every column, both maps being additive. *)
Lemma inv_mix_column_mix_column a b c d :
  inv_mix_column (sum4 (mul2 a) (mul3 b) c d) (sum4 a (mul2 b) (mul3 c) d)
                 (sum4 a b (mul2 c) (mul3 d)) (sum4 (mul3 a) b c (mul2 d))
  = [a; b; c; d].
Proof.
  pose proof (unit_column_1 a) as Ha. pose proof (unit_column_2 b) as Hb.
  pose proof (unit_column_3 c) as Hc. pose proof (unit_column_4 d) as Hd.
  unfold inv_mix_column in *.
  injection Ha as Ha0 Ha1 Ha2 Ha3. injection Hb as Hb0 Hb1 Hb2 Hb3.
  injection Hc as Hc0 Hc1 Hc2 Hc3. injection Hd as Hd0 Hd1 Hd2 Hd3.
  rewrite !mul14_sum4, !mul11_sum4, !mul13_sum4, !mul9_sum4.
  f_equal; [|f_equal; [|f_equal; [|f_equal]]]; rewrite sum4_transpose.
  - rewrite Ha0, Hb0, Hc0, Hd0. apply sum4_unit_1.
  - rewrite Ha1, Hb1, Hc1, Hd1. apply sum4_unit_2.
  - rewrite Ha2, Hb2, Hc2, Hd2. apply sum4_unit_3.
  - rewrite Ha3, Hb3, Hc3, Hd3. apply sum4_unit_4.
Qed.

(** *** The four transformations and their inverses, on a block *)

Ltac block s :=
  do 16 (destruct s as [|? s]; [discriminate|]); destruct s; [|discriminate].

Lemma inv_sub_bytes_sub_bytes s : inv_sub_bytes (sub_bytes s) = s.
Proof.
  unfold inv_sub_bytes, sub_bytes. rewrite map_map.
  rewrite (map_ext _ (fun a => a)) by apply inv_sbox_sbox. apply map_id.
Qed.

Lemma inv_shift_rows_shift_rows s :
  length s = 16%nat -> inv_shift_rows (shift_rows s) = s.
Proof. intros Hs. block s. reflexivity. Qed.

Lemma inv_mix_columns_mix_columns s :
  length s = 16%nat -> inv_mix_columns (mix_columns s) = s.
Proof.
  intros Hs. block s.
  unfold inv_mix_columns, mix_columns. cbn [columns mix_column app].
  rewrite !inv_mix_column_mix_column. reflexivity.
Qed.

Lemma add_round_key_twice s k : add_round_key (add_round_key s k) k = s.
Proof.
  unfold add_round_key. apply list_eq. intros i.
  rewrite !list_lookup_imap. destruct (s !! i) as [a|]; [|reflexivity].
  cbn. rewrite bxor_cancel. reflexivity.
Qed.

Lemma length_add_round_key s k : length (add_round_key s k) = length s.
Proof. apply length_imap. Qed.

Lemma length_sub_bytes s : length (sub_bytes s) = length s.
Proof. apply length_map. Qed.

Lemma length_inv_sub_bytes s : length (inv_sub_bytes s) = length s.
Proof. apply length_map. Qed.

Lemma length_shift_rows s : length (shift_rows s) = 16%nat.
Proof. reflexivity. Qed.

Lemma length_inv_shift_rows s : length (inv_shift_rows s) = 16%nat.
Proof. reflexivity. Qed.

Lemma length_mix_columns s : length s = 16%nat -> length (mix_columns s) = 16%nat.
Proof. intros Hs. block s. reflexivity. Qed.

Lemma length_inv_mix_columns s :
  length s = 16%nat -> length (inv_mix_columns s) = 16%nat.
Proof. intros Hs. block s. reflexivity. Qed.

Lemma length_round s k : length s = 16%nat -> length (round s k) = 16%nat.
Proof.
  intros Hs. unfold round.
  rewrite length_add_round_key. apply length_mix_columns, length_shift_rows.
Qed.

Lemma inv_round_round s k : length s = 16%nat -> inv_round (round s k) k = s.
Proof.
  intros Hs. unfold inv_round, round.
  rewrite add_round_key_twice.
  rewrite inv_mix_columns_mix_columns by apply length_shift_rows.
  rewrite inv_shift_rows_shift_rows by (rewrite length_sub_bytes; exact Hs).
  apply inv_sub_bytes_sub_bytes.
Qed.

Lemma inv_last_round_last_round s k :
  length s = 16%nat -> inv_last_round (last_round s k) k = s.
Proof.
  intros Hs. unfold inv_last_round, last_round.
  rewrite add_round_key_twice.
  rewrite inv_shift_rows_shift_rows by (rewrite length_sub_bytes; exact Hs).
  apply inv_sub_bytes_sub_bytes.
Qed.

Lemma length_rounds ks s :
  length s = 16%nat -> length (fold_left round ks s) = 16%nat.
Proof.
  revert s. induction ks as [|k ks IH]; intros s Hs; [exact Hs|].
  cbn [fold_left]. apply IH, length_round, Hs.
Qed.

Lemma inv_rounds_rounds ks s :
  length s = 16%nat ->
  fold_right (fun k s => inv_round s k) (fold_left round ks s) ks = s.
Proof.
  revert s. induction ks as [|k ks IH]; intros s Hs; [reflexivity|].
  cbn [fold_left fold_right]. rewrite IH by (apply length_round, Hs).
  apply inv_round_round, Hs.
Qed.

Lemma length_encrypt_block key block :
  length block = 16%nat -> length (encrypt_block key block) = 16%nat.
Proof.
  intros Hb. unfold encrypt_block, last_round.
  rewrite length_add_round_key. apply length_shift_rows.
Qed.

(** The inverse cipher undoes the cipher, under any key. *)
Lemma decrypt_block_encrypt_block key block :
  length block = 16%nat -> decrypt_block key (encrypt_block key block) = block.
Proof.
  intros Hb. unfold decrypt_block, encrypt_block.
  set (ks := later_keys key 0 10).
  rewrite inv_last_round_last_round
    by (apply length_rounds; rewrite length_add_round_key; exact Hb).
  rewrite inv_rounds_rounds by (rewrite length_add_round_key; exact Hb).
  apply add_round_key_twice.
Qed.

End Reference_facts.

(** The executable primitives keep the contract of the library. *)
#[global] Instance node_crypto_laws : NodeCryptoLaws node_crypto.
Proof.
  split.
  - intros k b Hb. apply Reference_facts.length_encrypt_block, Hb.
  - intros k b _ Hb. apply Reference_facts.decrypt_block_encrypt_block, Hb.
  - intros m. reflexivity.
Qed.

Module Text_facts.

Example stringify_status_query :
  Text.stringify (VObj [("gwId", VStr "cam"); ("t", VStr (pretty 1700000000));
                        ("dps", VObj [])]%string)
  = Text.json_text "{'gwId':'cam','t':'1700000000','dps':{}}".
Proof. vm_compute. reflexivity. Qed.

Example parse_motion_push :
  Text.parse (Text.decode (Text.json_text
                " {'dps': {'115': 'aGk=', '134': true}, 't': 17 } "))
  = Ok (VObj [("dps", VObj [("115", VStr "aGk="); ("134", VBool true)]);
              ("t", VNum 17)]%string).
Proof. vm_compute. reflexivity. Qed.

Example parse_stringify_nested :
  let v := VObj [("a", VArr [VNum (-3); VNull; VStr "x\y"; VArr []]);
                 ("b", VBool false)]%string in
  Text.parse (Text.decode (Text.stringify v)) = Ok v.
Proof. vm_compute. reflexivity. Qed.

Example parse_rejects_trailing_text :
  Text.parse (Text.decode (Text.json_text "{} x")) = Throw SyntaxError.
Proof. vm_compute. reflexivity. Qed.

End Text_facts.

(** ** Buffer primitives *)

Module Buffer_facts.

Lemma blen_nonneg buf : 0 <= blen buf.
Proof. unfold blen. lia. Qed.

Lemma blen_app a b : blen (a ++ b) = blen a + blen b.
Proof. unfold blen. rewrite length_app. lia. Qed.

Lemma readUInt32BE_inside buf off :
  (off + 4 <= length buf)%nat ->
  exists v, readUInt32BE buf off = Ok v /\ 0 <= v < 2 ^ 32.
Proof.
  intros Hlen. unfold readUInt32BE.
  pose proof (length_drop buf off) as Hd.
  destruct (drop off buf) as [|b0 [|b1 [|b2 [|b3 rest]]]]; cbn [length] in Hd; try lia.
  eexists. split; [reflexivity|].
  pose proof (byte_to_Z_range b0). pose proof (byte_to_Z_range b1).
  pose proof (byte_to_Z_range b2). pose proof (byte_to_Z_range b3).
  change (2 ^ 32) with 4294967296. change (2 ^ 24) with 16777216.
  change (2 ^ 16) with 65536. change (2 ^ 8) with 256. lia.
Qed.

Lemma readUInt32BE_outside buf off :
  (length buf < off + 4)%nat -> readUInt32BE buf off = Throw RangeError.
Proof.
  intros Hlen. unfold readUInt32BE.
  pose proof (length_drop buf off) as Hd.
  destruct (drop off buf) as [|b0 [|b1 [|b2 [|b3 rest]]]]; cbn [length] in Hd;
    try reflexivity; lia.
Qed.

(** A read looks at its four bytes only. *)
Lemma readUInt32BE_take buf off n :
  (off + 4 <= n)%nat -> (off + 4 <= length buf)%nat ->
  readUInt32BE (take n buf) off = readUInt32BE buf off.
Proof.
  intros Hn Hlen. unfold readUInt32BE.
  assert (take 4 (drop off (take n buf)) = take 4 (drop off buf)) as E.
  { rewrite !take_drop_commute, take_take. do 2 f_equal. lia. }
  pose proof (length_drop buf off) as Hd.
  pose proof (length_drop (take n buf) off) as Hd'.
  rewrite length_take in Hd'.
  destruct (drop off buf) as [|b0 [|b1 [|b2 [|b3 rest]]]]; cbn [length] in Hd; try lia.
  destruct (drop off (take n buf)) as [|c0 [|c1 [|c2 [|c3 rest']]]];
    cbn [length] in Hd'; try lia.
  cbn in E. congruence.
Qed.

Lemma readUInt32BE_app buf rest off :
  (off + 4 <= length buf)%nat ->
  readUInt32BE (buf ++ rest) off = readUInt32BE buf off.
Proof.
  intros Hlen.
  rewrite <- (readUInt32BE_take (buf ++ rest) off (length buf))
    by (rewrite ?length_app; lia).
  rewrite take_app_length. reflexivity.
Qed.

Lemma starts_with_magic_take buf n :
  (4 <= n)%nat -> starts_with_magic (take n buf) = starts_with_magic buf.
Proof.
  intros Hn. unfold starts_with_magic. rewrite take_take.
  replace (4 `min` n)%nat with 4%nat by lia. reflexivity.
Qed.

Lemma starts_with_magic_app buf rest :
  (4 <= length buf)%nat -> starts_with_magic (buf ++ rest) = starts_with_magic buf.
Proof.
  intros Hn. unfold starts_with_magic. rewrite take_app_le by exact Hn. reflexivity.
Qed.

(** [buf.slice(s, e)] for indices inside the buffer. *)
Lemma slice_inside buf s e :
  0 <= s -> 0 <= e <= blen buf ->
  slice buf s e = take (Z.to_nat (e - s)) (drop (Z.to_nat s) buf).
Proof.
  intros Hs He. unfold slice, slice_index.
  destruct (Z.ltb_spec s 0); [lia|]. destruct (Z.ltb_spec e 0); [lia|].
  destruct (Z.le_gt_cases s (blen buf)).
  - rewrite (Z.min_l s), (Z.min_l e) by lia. reflexivity.
  - rewrite (Z.min_r s), (Z.min_l e) by lia.
    replace (Z.to_nat (e - blen buf)) with 0%nat by lia.
    replace (Z.to_nat (e - s)) with 0%nat by lia. reflexivity.
Qed.

Lemma slice_from_inside buf s :
  0 <= s <= blen buf -> slice_from buf s = drop (Z.to_nat s) buf.
Proof.
  intros Hs. unfold slice_from. rewrite slice_inside by lia.
  apply take_ge. rewrite length_drop. unfold blen in *. lia.
Qed.

Lemma slice_prefix buf e :
  0 <= e <= blen buf -> slice buf 0 e = take (Z.to_nat e) buf.
Proof.
  intros He. rewrite slice_inside by lia.
  rewrite Z.sub_0_r. reflexivity.
Qed.

(** A slice that ends inside a prefix is a slice of the prefix. *)
Lemma slice_take buf n s e :
  0 <= s -> 0 <= e <= Z.of_nat n -> Z.of_nat n <= blen buf ->
  slice (take n buf) s e = slice buf s e.
Proof.
  intros Hs He Hn.
  assert (blen (take n buf) = Z.of_nat n) as Hb
    by (unfold blen in *; rewrite length_take; lia).
  rewrite !slice_inside by lia.
  destruct (Z.le_gt_cases e s).
  - replace (Z.to_nat (e - s)) with 0%nat by lia. reflexivity.
  - rewrite !take_drop_commute, take_take. do 2 f_equal. lia.
Qed.

Lemma uint32BE_length v : length (uint32BE v) = 4%nat.
Proof. reflexivity. Qed.

Lemma uint32BE_value v :
  0 <= v <= 0xFFFFFFFF ->
  byte_to_Z (byte_of_Z (Z.shiftr v 24)) * 2 ^ 24
  + byte_to_Z (byte_of_Z (Z.shiftr v 16)) * 2 ^ 16
  + byte_to_Z (byte_of_Z (Z.shiftr v 8)) * 2 ^ 8
  + byte_to_Z (byte_of_Z v) = v.
Proof.
  intros Hv. rewrite !byte_to_of_Z, !Z.shiftr_div_pow2 by lia.
  change (2 ^ 24) with 16777216. change (2 ^ 16) with 65536. change (2 ^ 8) with 256.
  Z.div_mod_to_equations. lia.
Qed.

(** Reading back a field written by [writeUInt32BE]. *)
Lemma readUInt32BE_field pre v post off :
  0 <= v <= 0xFFFFFFFF -> off = length pre ->
  readUInt32BE (pre ++ uint32BE v ++ post) off = Ok v.
Proof.
  intros Hv ->. unfold readUInt32BE. rewrite drop_app_length.
  cbn [uint32BE app]. rewrite uint32BE_value by exact Hv. reflexivity.
Qed.

End Buffer_facts.

(** ** Control connection *)

Module Device_facts.
Import Device Buffer_facts Wording.

Section with_runtime.
Context `{NodeCrypto} `{NodeText}.

(** *** The inbound handler looks at one chunk *)

Lemma parse_chunk_discarded data :
  chunk_discarded data = true -> parse_chunk data = Ok None.
Proof.
  unfold chunk_discarded, parse_chunk, length_field. intros Hd.
  destruct ((blen data <? 20) || negb (starts_with_magic data)) eqn:Hguard;
    [reflexivity|].
  apply orb_false_iff in Hguard as [Hlen _]. apply Z.ltb_ge in Hlen.
  unfold blen in Hlen.
  destruct (readUInt32BE_inside data 8 ltac:(lia)) as (c & -> & _).
  destruct (readUInt32BE_inside data 12 ltac:(lia)) as (s & -> & _).
  destruct (readUInt32BE_inside data 16 ltac:(lia)) as (l & Hl & _).
  rewrite Hl in *. cbn [mbind result_bind].
  cbn [orb] in Hd. rewrite Hd. reflexivity.
Qed.

Lemma parse_chunk_accepted data :
  chunk_discarded data = false ->
  exists command sequence,
    readUInt32BE data 8 = Ok command
    /\ readUInt32BE data 12 = Ok sequence
    /\ readUInt32BE data 16 = Ok (length_field data)
    /\ 0 <= length_field data
    /\ 20 + length_field data <= blen data
    /\ parse_chunk data
       = Ok (Some (command, sequence, slice data 20 (20 + length_field data - 8))).
Proof.
  unfold chunk_discarded, parse_chunk, length_field. intros Hd.
  apply orb_false_iff in Hd as [Hguard Hfull]. rewrite Hguard.
  apply orb_false_iff in Hguard as [Hlen _]. apply Z.ltb_ge in Hlen.
  unfold blen in Hlen.
  destruct (readUInt32BE_inside data 8 ltac:(lia)) as (c & Hc & _).
  destruct (readUInt32BE_inside data 12 ltac:(lia)) as (s & Hs & _).
  destruct (readUInt32BE_inside data 16 ltac:(lia)) as (l & Hl & Hrange).
  rewrite Hc, Hs, Hl in *. cbn [mbind result_bind]. rewrite Hfull.
  apply Z.ltb_ge in Hfull.
  exists c, s. repeat split; (reflexivity || lia).
Qed.

Lemma parse_chunk_never_throws data : exists r, parse_chunk data = Ok r.
Proof.
  destruct (chunk_discarded data) eqn:Hd.
  - exists None. apply parse_chunk_discarded, Hd.
  - destruct (parse_chunk_accepted data Hd) as (c & s & _ & _ & _ & _ & _ & ->).
    eexists. reflexivity.
Qed.

Lemma handleData_never_throws now data st : (handleData now data st).1 = Ok ().
Proof.
  unfold handleData.
  destruct (parse_chunk_never_throws data) as [[[[c s] e]|] ->]; [|reflexivity].
  destruct (decrypt_chunk e st); [|reflexivity].
  destruct (strip_nul a); [reflexivity|].
  destruct (JSON_parse _); reflexivity.
Qed.

(** The bytes behind the frame at offset 0 are not looked at. *)
Lemma frame_at_0_accepted data :
  chunk_discarded data = false ->
  parse_chunk (frame_at_0 data) = parse_chunk data.
Proof.
  intros Hd.
  destruct (parse_chunk_accepted data Hd) as (c & s & Hc & Hs & Hl & Hl0 & Hfull & ->).
  unfold frame_at_0, parse_chunk.
  set (l := length_field data) in *.
  assert (blen (take (Z.to_nat (20 + l)) data) = 20 + l) as Hb.
  { unfold blen in *. rewrite length_take. lia. }
  unfold chunk_discarded in Hd.
  apply orb_false_iff in Hd as [Hguard _].
  apply orb_false_iff in Hguard as [_ Hmagic].
  rewrite Hb, starts_with_magic_take, Hmagic by lia.
  destruct (Z.ltb_spec (20 + l) 20); [lia|]. cbn [orb].
  unfold blen in Hfull.
  rewrite !readUInt32BE_take, Hc, Hs, Hl by lia.
  cbn [mbind result_bind].
  destruct (Z.ltb_spec (20 + l) (20 + l)); [lia|].
  rewrite slice_take by (unfold blen; lia). reflexivity.
Qed.

Lemma handleData_discarded now data st :
  chunk_discarded data = true -> handleData now data st = (Ok (), st).
Proof.
  intros Hd. unfold handleData. rewrite (parse_chunk_discarded _ Hd). reflexivity.
Qed.

Lemma handleData_frame_at_0 now data st :
  chunk_discarded data = false ->
  handleData now data st = handleData now (frame_at_0 data) st.
Proof.
  intros Hd. unfold handleData. rewrite (frame_at_0_accepted _ Hd). reflexivity.
Qed.

Lemma handleData_one_frame now data st command sequence :
  readUInt32BE data 8 = Ok command ->
  readUInt32BE data 12 = Ok sequence ->
  (handleData now data st).2 = st
  \/ exists payload,
       (handleData now data st).2 = (handlePayload now command sequence payload st).2.
Proof.
  intros Hc Hs. unfold handleData.
  destruct (chunk_discarded data) eqn:Hd.
  - rewrite (parse_chunk_discarded _ Hd). left. reflexivity.
  - destruct (parse_chunk_accepted data Hd) as (c & s & Hc' & Hs' & _ & _ & _ & ->).
    assert (c = command) as -> by congruence.
    assert (s = sequence) as -> by congruence.
    destruct (decrypt_chunk _ st) as [decrypted|]; [|left; reflexivity].
    destruct (strip_nul decrypted) as [|u jsonStr]; [left; reflexivity|].
    destruct (JSON_parse _) as [payload|]; [|left; reflexivity].
    right. exists payload. reflexivity.
Qed.

(** C10.  [handleData] looks at each chunk by itself and never throws.
    A chunk shorter than 20 bytes, or not beginning with the magic
    header, or shorter than the frame its length field announces, is
    dropped and leaves the object as it was (so does a chunk dropped
    before it: nothing of a chunk is kept for the next).  For any other
    chunk the outcome is that of the frame at offset 0 alone: the bytes
    behind that frame play no part, and at most one payload, with the
    command and sequence words of that frame, is handled. *)
Theorem control_chunk_examined_in_isolation now data st :
  (handleData now data st).1 = Ok ()
  /\ (chunk_discarded data = true ->
      handleData now data st = (Ok (), st)
      /\ forall now' next, handleData now' next (handleData now data st).2
                         = handleData now' next st)
  /\ (chunk_discarded data = false ->
      handleData now data st = handleData now (frame_at_0 data) st
      /\ exists command sequence,
           readUInt32BE data 8 = Ok command
           /\ readUInt32BE data 12 = Ok sequence
           /\ ((handleData now data st).2 = st
               \/ exists payload,
                    (handleData now data st).2
                    = (handlePayload now command sequence payload st).2)).
Proof.
  split; [apply handleData_never_throws|]. split.
  - intros Hd. rewrite (handleData_discarded _ _ _ Hd). split; reflexivity.
  - intros Hd. split; [apply handleData_frame_at_0, Hd|].
    destruct (parse_chunk_accepted data Hd) as (c & s & Hc & Hs & _).
    exists c, s. split; [exact Hc|]. split; [exact Hs|].
    apply handleData_one_frame; assumption.
Qed.

End with_runtime.

End Device_facts.

(** ** Control connection: listeners, timers and promises *)

Module Device_state_facts.
Import Device Wording.

Ltac fields :=
  cbn [deviceId localKey connected sequence listeners timers promises fresh outputs
       set_connected set_sequence set_listeners set_timers set_promises set_fresh
       emit fst snd h_timeout h_call t_id t_due t_action] in *.

(** *** Well-formed states stay well-formed *)

Lemma wf_initial id key : well_formed (initial id key).
Proof.
  split; unfold initial; fields.
  - intros k hs Hk. rewrite lookup_empty in Hk. discriminate.
  - intros k hs h Hk. rewrite lookup_empty in Hk. discriminate.
  - intros k hs h t Hk. rewrite lookup_empty in Hk. discriminate.
  - intros t Ht. apply elem_of_nil in Ht. contradiction.
  - constructor.
Qed.

Lemma wf_emit o st : well_formed st -> well_formed (emit o st).
Proof. intros [W1 W2 W3 W4 W5]. split; fields; assumption. Qed.

Lemma wf_set_connected b st : well_formed st -> well_formed (set_connected b st).
Proof. intros [W1 W2 W3 W4 W5]. split; fields; assumption. Qed.

Lemma wf_set_sequence st :
  well_formed st -> well_formed (set_sequence (sequence st + 1) st).
Proof.
  intros [W1 W2 W3 W4 W5]. split; fields; try assumption.
  intros k hs Hk. specialize (W1 k hs Hk). lia.
Qed.

Lemma wf_set_promises p st : well_formed st -> well_formed (set_promises p st).
Proof. intros [W1 W2 W3 W4 W5]. split; fields; assumption. Qed.

Lemma wf_settle call p st : well_formed st -> well_formed (settle call p st).
Proof.
  intros W. unfold settle.
  destruct (promises st !! call) as [[| |]|]; try assumption.
  apply wf_set_promises, W.
Qed.

Lemma wf_new_promise st : well_formed st -> well_formed (new_promise st).2.
Proof.
  intros [W1 W2 W3 W4 W5]. unfold new_promise. split; fields; try assumption.
  - intros k hs h Hk Hh. specialize (W2 k hs h Hk Hh). lia.
  - intros t Ht. specialize (W4 t Ht). lia.
Qed.

Lemma wf_clearTimeout id st : well_formed st -> well_formed (clearTimeout id st).
Proof.
  intros [W1 W2 W3 W4 W5]. unfold clearTimeout. split; fields; try assumption.
  - intros k hs h t Hk Hh Ht. apply list_elem_of_filter in Ht as [_ Ht]. eauto.
  - intros t Ht. apply list_elem_of_filter in Ht as [_ Ht]. eauto.
  - apply (sublist_NoDup _ (t_id <$> timers st));
      first [exact W5 | apply (fmap_sublist t_id), sublist_filter].
Qed.

Lemma wf_setTimeout a delay now st :
  well_formed st -> well_formed (setTimeout a delay now st).2.
Proof.
  intros [W1 W2 W3 W4 W5]. unfold setTimeout. split; fields; try assumption.
  - intros k hs h Hk Hh. specialize (W2 k hs h Hk Hh). lia.
  - intros k hs h t Hk Hh Ht Hid.
    apply elem_of_app in Ht as [Ht|Ht]; [eauto|].
    apply list_elem_of_singleton in Ht as ->. fields.
    specialize (W2 k hs h Hk Hh). lia.
  - intros t Ht. apply elem_of_app in Ht as [Ht|Ht].
    + specialize (W4 t Ht). lia.
    + apply list_elem_of_singleton in Ht as ->. fields. lia.
  - rewrite fmap_app. apply NoDup_app. split; [exact W5|]. split.
    + intros x Hx Hx'. cbn in Hx'. apply list_elem_of_singleton in Hx' as ->.
      apply list_elem_of_fmap in Hx as (t & Hid & Ht).
      specialize (W4 t Ht). lia.
    + cbn. apply NoDup_singleton.
Qed.

Lemma wf_delete_listeners seq st :
  well_formed st -> well_formed (set_listeners (delete seq (listeners st)) st).
Proof.
  intros [W1 W2 W3 W4 W5]. split; fields; try assumption.
  - intros k hs Hk. apply lookup_delete_Some in Hk as [_ Hk]. eauto.
  - intros k hs h Hk. apply lookup_delete_Some in Hk as [_ Hk]. eauto.
  - intros k hs h t Hk. apply lookup_delete_Some in Hk as [_ Hk]. eauto.
Qed.

Lemma wf_run_handler response st h :
  well_formed st -> well_formed (run_handler response st h).
Proof. intros W. unfold run_handler. apply wf_settle, wf_clearTimeout, W. Qed.

Lemma wf_fold_run_handler response hs st :
  well_formed st -> well_formed (fold_left (run_handler response) hs st).
Proof.
  revert st. induction hs as [|h hs IH]; intros st W; [exact W|].
  cbn [fold_left]. apply IH, wf_run_handler, W.
Qed.

Lemma wf_emit_response seq response st :
  well_formed st -> well_formed (emit_response seq response st).
Proof.
  intros W. unfold emit_response.
  destruct (listeners st !! seq); [|exact W].
  apply wf_fold_run_handler, wf_delete_listeners, W.
Qed.

Lemma wf_once seq timeout call st :
  well_formed st ->
  seq <= sequence st ->
  (timeout < fresh st)%nat -> (call < fresh st)%nat ->
  (forall t, t ∈ timers st -> t_id t = timeout -> t_action t = RejectCall call) ->
  well_formed (once seq (Handler timeout call) st).
Proof.
  intros [W1 W2 W3 W4 W5] Hseq Htimeout Hcall Htimer.
  unfold once. split; fields; try assumption.
  - intros k hs Hk. apply lookup_insert_Some in Hk as [[<- _]|[_ Hk]]; eauto.
  - intros k hs h Hk Hh. apply lookup_insert_Some in Hk as [[<- <-]|[_ Hk]]; [|eauto].
    apply elem_of_app in Hh as [Hh|Hh].
    + destruct (listeners st !! seq) as [old|] eqn:Hold; cbn in Hh.
      * eauto.
      * apply elem_of_nil in Hh. contradiction.
    + apply list_elem_of_singleton in Hh as ->. fields. lia.
  - intros k hs h t Hk Hh Ht Hid.
    apply lookup_insert_Some in Hk as [[<- <-]|[_ Hk]]; [|eauto].
    apply elem_of_app in Hh as [Hh|Hh].
    + destruct (listeners st !! seq) as [old|] eqn:Hold; cbn in Hh.
      * eauto.
      * apply elem_of_nil in Hh. contradiction.
    + apply list_elem_of_singleton in Hh as ->. fields. eauto.
Qed.

Lemma wf_run_action a st : well_formed st -> well_formed (run_action a st).
Proof. intros W. destruct a; [apply wf_settle | apply wf_emit]; exact W. Qed.

Lemma wf_fire id st : well_formed st -> well_formed (fire id st).
Proof.
  intros W. unfold fire. destruct (find _ _); [|exact W].
  apply wf_run_action, wf_clearTimeout, W.
Qed.

Lemma wf_run_due fuel now st : well_formed st -> well_formed (run_due fuel now st).
Proof.
  revert st. induction fuel as [|fuel IH]; intros st W; [exact W|].
  cbn [run_due]. destruct (next_due _ _); [|exact W]. apply IH, wf_fire, W.
Qed.

Lemma wf_advance now st : well_formed st -> well_formed (advance now st).
Proof. apply wf_run_due. Qed.

Section with_runtime.
Context `{NodeCrypto} `{NodeText}.

Lemma wf_handlePayload now command seq payload st :
  well_formed st -> well_formed (handlePayload now command seq payload st).2.
Proof.
  intros W. unfold handlePayload.
  pose proof (wf_emit_response seq payload st W) as W'.
  destruct (command =? 8); [|exact W'].
  destruct (Value.get_named payload "dps") as [dps|]; [|exact W'].
  destruct (Value.truthy dps); [|exact W'].
  destruct (Value.get_index dps _ _) as [v|]; [|exact W'].
  destruct (negb (Value.is_undefined v)); [|exact W'].
  pose proof (wf_setTimeout ClearMotion 30000 now _ (wf_emit (EmitMotion true) _ W')) as W''.
  destruct (setTimeout _ _ _ _). exact W''.
Qed.

Lemma wf_handleData now data st :
  well_formed st -> well_formed (handleData now data st).2.
Proof.
  intros W. unfold handleData.
  destruct (parse_chunk data) as [[[[c s] e]|]|]; try exact W.
  destruct (decrypt_chunk e st); [|exact W].
  destruct (strip_nul a); [exact W|].
  destruct (JSON_parse _); [|exact W].
  apply wf_handlePayload, W.
Qed.

Lemma buildPacket_state command payload st :
  (buildPacket command payload st).2 = set_sequence (sequence st + 1) st.
Proof. reflexivity. Qed.

Lemma wf_sendCommand now command payload st :
  well_formed st -> well_formed (sendCommand now command payload st).2.
Proof.
  intros W. unfold sendCommand.
  pose proof (wf_new_promise st W) as W1.
  destruct (new_promise st) as [call st1] eqn:Hnew. cbn [snd] in W1.
  destruct (negb (connected st1)); [apply wf_settle, W1|].
  destruct (Cipher.aes_128_ecb_encrypt _ _) as [encrypted|]; [|apply wf_settle, W1].
  pose proof (buildPacket_state command encrypted st1) as Hb.
  destruct (buildPacket command encrypted st1) as [packet st2].
  cbn [snd] in Hb. subst st2.
  pose proof (wf_set_sequence st1 W1) as W2.
  destruct packet as [packet|]; [|apply wf_settle, W2].
  pose proof (wf_setTimeout (RejectCall call) 5000 now _ W2) as W3.
  unfold setTimeout in *. cbn [snd] in *. apply wf_emit.
  unfold new_promise in Hnew. injection Hnew as <- <-.
  apply wf_once; [exact W3 | fields; lia .. |].
  intros t Ht Hid. fields.
  apply elem_of_app in Ht as [Ht|Ht].
  - destruct W2 as [_ _ _ W4 _]. specialize (W4 t Ht). fields. lia.
  - apply list_elem_of_singleton in Ht as ->. reflexivity.
Qed.

Lemma wf_step st i : well_formed st -> well_formed (step st i).
Proof.
  intros W. destruct i; cbn [step].
  - apply wf_handleData, W.
  - apply wf_sendCommand, W.
  - apply wf_set_connected, W.
  - apply wf_set_connected, W.
  - apply wf_advance, W.
Qed.

Lemma wf_run inputs st : well_formed st -> well_formed (run inputs st).
Proof.
  revert st. induction inputs as [|i inputs IH]; intros st W; [exact W|].
  apply IH, wf_step, W.
Qed.

(** Every state the object reaches is well-formed. *)
Lemma wf_reachable id key inputs : well_formed (run inputs (initial id key)).
Proof. apply wf_run, wf_initial. Qed.

(** *** Sending *)

Lemma writeUInt32BE_inside v :
  0 <= v <= 0xFFFFFFFF -> writeUInt32BE v = Ok (uint32BE v).
Proof.
  intros Hv. unfold writeUInt32BE.
  destruct (Z.leb_spec 0 v); [|lia].
  destruct (Z.leb_spec v 0xFFFFFFFF); [reflexivity|lia].
Qed.

Lemma buildPacket_inside command payload st :
  0 <= command <= 0xFFFFFFFF ->
  0 <= sequence st + 1 <= 0xFFFFFFFF ->
  blen payload + 8 <= 0xFFFFFFFF ->
  exists crc,
    CRC.calculateCRC (magic_header ++ uint32BE command ++ uint32BE (sequence st + 1)
                      ++ uint32BE (blen payload + 8) ++ payload) = Ok crc
    /\ length crc = 4%nat
    /\ buildPacket command payload st
       = (Ok ((magic_header ++ uint32BE command ++ uint32BE (sequence st + 1)
               ++ uint32BE (blen payload + 8) ++ payload) ++ crc ++ magic_footer),
          set_sequence (sequence st + 1) st).
Proof.
  intros Hc Hs Hl. unfold buildPacket. fields.
  pose proof (Buffer_facts.blen_nonneg payload).
  rewrite !writeUInt32BE_inside by lia. cbn [mbind result_bind].
  rewrite CRC_facts.calculateCRC_ref. cbn [mbind result_bind].
  eexists. split; [reflexivity|]. split; reflexivity.
Qed.

Lemma sendCommand_goes_out now command payload st :
  goes_out now command payload st = true ->
  exists encrypted crc,
    Cipher.aes_128_ecb_encrypt (localKey st) (command_bytes now payload st) = Ok encrypted
    /\ length crc = 4%nat
    /\ sendCommand now command payload st
       = (fresh st,
          after_send now
            ((magic_header ++ uint32BE command ++ uint32BE (sequence st + 1)
              ++ uint32BE (blen encrypted + 8) ++ encrypted) ++ crc ++ magic_footer)
            st).
Proof.
  unfold goes_out. intros Hgo.
  apply andb_true_iff in Hgo as [Hconn Hgo].
  destruct (Cipher.aes_128_ecb_encrypt _ _) as [encrypted|] eqn:Henc; [|discriminate].
  repeat (apply andb_true_iff in Hgo as [Hgo ?]).
  destruct (buildPacket_inside command encrypted
              (set_fresh (S (fresh st))
                 (set_promises (<[fresh st := Pending]> (promises st)) st)))
    as (crc & _ & Hcrc & Hb); fields; try lia.
  exists encrypted, crc. split; [reflexivity|]. split; [exact Hcrc|].
  unfold sendCommand, new_promise. fields. rewrite Hconn. cbn [negb].
  change (command_bytes now payload (set_fresh _ _)) with (command_bytes now payload st).
  rewrite Henc, Hb. reflexivity.
Qed.

(** *** Responses *)

Lemma handlePayload_promises now command seq payload st :
  promises (handlePayload now command seq payload st).2
  = promises (emit_response seq payload st).
Proof.
  unfold handlePayload.
  destruct (command =? 8); [|reflexivity].
  destruct (Value.get_named payload "dps") as [dps|]; [|reflexivity].
  destruct (Value.truthy dps); [|reflexivity].
  destruct (Value.get_index dps _ _) as [v|]; [|reflexivity].
  destruct (negb (Value.is_undefined v)); reflexivity.
Qed.

Lemma handlePayload_listeners now command seq payload st :
  listeners (handlePayload now command seq payload st).2
  = listeners (emit_response seq payload st).
Proof.
  unfold handlePayload.
  destruct (command =? 8); [|reflexivity].
  destruct (Value.get_named payload "dps") as [dps|]; [|reflexivity].
  destruct (Value.truthy dps); [|reflexivity].
  destruct (Value.get_index dps _ _) as [v|]; [|reflexivity].
  destruct (negb (Value.is_undefined v)); reflexivity.
Qed.

Lemma emit_response_one seq response st h :
  listeners st !! seq = Some [h] ->
  emit_response seq response st
  = settle (h_call h) (Resolved response)
      (clearTimeout (h_timeout h) (set_listeners (delete seq (listeners st)) st)).
Proof. intros Hl. unfold emit_response. rewrite Hl. reflexivity. Qed.

Lemma promises_resolved_one seq response st h :
  listeners st !! seq = Some [h] ->
  promises st !! h_call h = Some Pending ->
  promises (emit_response seq response st)
  = <[h_call h := Resolved response]> (promises st)
  /\ listeners (emit_response seq response st) = delete seq (listeners st).
Proof.
  intros Hl Hp. rewrite (emit_response_one _ _ _ _ Hl).
  unfold settle, clearTimeout. fields. rewrite Hp. fields. split; reflexivity.
Qed.

(** Without a listener, nothing is resolved. *)
Lemma emit_response_none seq response st :
  listeners st !! seq = None -> emit_response seq response st = st.
Proof. intros Hl. unfold emit_response. rewrite Hl. reflexivity. Qed.

Lemma no_listener_ahead st k :
  well_formed st -> sequence st < k -> listeners st !! k = None.
Proof.
  intros W Hk. destruct (listeners st !! k) as [hs|] eqn:E; [|reflexivity].
  pose proof (wf_listener_seq st W k hs E). lia.
Qed.


Lemma packet_sequence_field command seq len payload crc :
  0 <= seq <= 0xFFFFFFFF ->
  readUInt32BE ((magic_header ++ uint32BE command ++ uint32BE seq
                 ++ uint32BE len ++ payload) ++ crc ++ magic_footer) 8
  = Ok seq.
Proof.
  intros Hseq.
  rewrite <- !app_assoc. rewrite (app_assoc magic_header).
  apply Buffer_facts.readUInt32BE_field; [exact Hseq | reflexivity].
Qed.

Lemma goes_out_sequence now command payload st :
  goes_out now command payload st = true -> 0 <= sequence st + 1 <= 0xFFFFFFFF.
Proof.
  unfold goes_out. intros Hgo.
  apply andb_true_iff in Hgo as [_ Hgo].
  destruct (Cipher.aes_128_ecb_encrypt _ _); [|discriminate].
  repeat (apply andb_true_iff in Hgo as [Hgo ?]). lia.
Qed.


(** *** Timers stay armed until they fire or their listener clears them *)

Lemma timers_settle call p st : timers (settle call p st) = timers st.
Proof. unfold settle. destruct (promises st !! call) as [[| |]|]; reflexivity. Qed.

Lemma outputs_settle call p st : outputs (settle call p st) = outputs st.
Proof. unfold settle. destruct (promises st !! call) as [[| |]|]; reflexivity. Qed.

Lemma fresh_settle call p st : fresh (settle call p st) = fresh st.
Proof. unfold settle. destruct (promises st !! call) as [[| |]|]; reflexivity. Qed.

Lemma listeners_settle call p st : listeners (settle call p st) = listeners st.
Proof. unfold settle. destruct (promises st !! call) as [[| |]|]; reflexivity. Qed.

Lemma armed_clearTimeout t id st :
  t ∈ timers st -> t_id t <> id -> t ∈ timers (clearTimeout id st).
Proof.
  intros Ht Hid. unfold clearTimeout. fields.
  apply list_elem_of_filter. split; assumption.
Qed.

Lemma fold_run_handler_keeps response hs st :
  outputs (fold_left (run_handler response) hs st) = outputs st
  /\ fresh (fold_left (run_handler response) hs st) = fresh st
  /\ forall t, t ∈ timers st -> (forall h, h ∈ hs -> h_timeout h <> t_id t) ->
              t ∈ timers (fold_left (run_handler response) hs st).
Proof.
  revert st. induction hs as [|h hs IH]; intros st.
  - repeat split. intros t Ht _. exact Ht.
  - cbn [fold_left]. destruct (IH (run_handler response st h)) as (Ho & Hf & Ht).
    unfold run_handler in *.
    rewrite Ho, Hf, outputs_settle, fresh_settle. repeat split.
    intros t Hin Hne. apply Ht.
    + rewrite timers_settle. apply armed_clearTimeout; [exact Hin|].
      intros E. apply (Hne h); [left | congruence].
    + intros h' Hh'. apply Hne. right. exact Hh'.
Qed.

Lemma outputs_emit_response seq response st :
  outputs (emit_response seq response st) = outputs st.
Proof.
  unfold emit_response. destruct (listeners st !! seq) as [hs|]; [|reflexivity].
  apply (fold_run_handler_keeps response hs (set_listeners _ st)).
Qed.

Lemma fresh_emit_response seq response st :
  fresh (emit_response seq response st) = fresh st.
Proof.
  unfold emit_response. destruct (listeners st !! seq) as [hs|]; [|reflexivity].
  apply (fold_run_handler_keeps response hs (set_listeners _ st)).
Qed.

Lemma armed_emit_response t seq response st :
  well_formed st -> t ∈ timers st -> t_action t = ClearMotion ->
  t ∈ timers (emit_response seq response st).
Proof.
  intros W Ht Ha. unfold emit_response.
  destruct (listeners st !! seq) as [hs|] eqn:Hl; [|exact Ht].
  apply (fold_run_handler_keeps response hs (set_listeners _ st)); [exact Ht|].
  intros h Hh E.
  pose proof (wf_listener_timer st W seq hs h t Hl Hh Ht (eq_sym E)) as Hr.
  congruence.
Qed.

(** *** Motion *)

Lemma carries_motion_read payload :
  carries_motion payload = true ->
  exists dps v,
    Value.get_named payload "dps" = Ok dps
    /\ Value.truthy dps = true
    /\ Value.get_index dps DP_MOTION_DETECTED DP_MOTION_DETECTED_key = Ok v
    /\ Value.is_undefined v = false.
Proof.
  unfold carries_motion. intros Hm.
  destruct payload as [| | | | | |fields]; try discriminate.
  destruct (Value.field "dps" fields) as [| | | | | |dps] eqn:Hdps; try discriminate.
  exists (VObj dps), (Value.field DP_MOTION_DETECTED_key dps).
  cbn [Value.get_named Value.truthy Value.get_index]. rewrite Hdps.
  apply negb_true_iff in Hm. repeat split. exact Hm.
Qed.

Lemma handlePayload_motion now seq payload st :
  carries_motion payload = true ->
  let s := emit_response seq payload st in
  handlePayload now 8 seq payload st
  = (Ok (),
     set_fresh (S (fresh st))
       (set_timers (timers s ++ [motion_clear (fresh st) now])
          (emit (EmitMotion true) s))).
Proof.
  intros Hm s. destruct (carries_motion_read _ Hm) as (dps & v & Hd & Ht & Hv & Hu).
  unfold handlePayload. fold s. cbn [Z.eqb Pos.eqb].
  rewrite Hd, Ht, Hv, Hu. cbn [negb]. unfold setTimeout. fields.
  unfold s. rewrite fresh_emit_response. reflexivity.
Qed.

Lemma armed_handlePayload t now command seq payload st :
  well_formed st -> t ∈ timers st -> t_action t = ClearMotion ->
  t ∈ timers (handlePayload now command seq payload st).2.
Proof.
  intros W Ht Ha. pose proof (armed_emit_response t seq payload st W Ht Ha) as Ht'.
  unfold handlePayload.
  destruct (command =? 8); [|exact Ht'].
  destruct (Value.get_named payload "dps") as [dps|]; [|exact Ht'].
  destruct (Value.truthy dps); [|exact Ht'].
  destruct (Value.get_index dps _ _) as [v|]; [|exact Ht'].
  destruct (negb (Value.is_undefined v)); [|exact Ht'].
  unfold setTimeout. fields. apply elem_of_app. left. exact Ht'.
Qed.



(** *** The event loop *)

Lemma same_id_same_timer (ts : list timer) t t' :
  NoDup (t_id <$> ts) -> t ∈ ts -> t' ∈ ts -> t_id t = t_id t' -> t = t'.
Proof.
  induction ts as [|x ts IH]; intros Hnd Ht Ht' Hid.
  - apply elem_of_nil in Ht. contradiction.
  - rewrite fmap_cons in Hnd. apply NoDup_cons in Hnd as [Hx Hnd].
    apply elem_of_cons in Ht as [->|Ht]; apply elem_of_cons in Ht' as [->|Ht'].
    + reflexivity.
    + exfalso. apply Hx. rewrite Hid. apply list_elem_of_fmap. eauto.
    + exfalso. apply Hx. rewrite <- Hid. apply list_elem_of_fmap. eauto.
    + apply IH; assumption.
Qed.

Lemma find_by_id st t :
  well_formed st -> t ∈ timers st ->
  find (fun x => bool_decide (t_id x = t_id t)) (timers st) = Some t.
Proof.
  intros W Ht.
  destruct (find _ (timers st)) as [x|] eqn:Hf.
  - apply find_some in Hf as [Hx Hid]. apply bool_decide_eq_true in Hid.
    f_equal. apply (same_id_same_timer (timers st)); try assumption.
    + apply (wf_timer_nodup st W).
    + apply list_elem_of_In. exact Hx.
  - exfalso. apply list_elem_of_In in Ht.
    pose proof (find_none _ _ Hf t Ht) as Hn. cbn in Hn.
    apply bool_decide_eq_false in Hn. congruence.
Qed.

Lemma fire_armed st t :
  well_formed st -> t ∈ timers st ->
  fire (t_id t) st = run_action (t_action t) (clearTimeout (t_id t) st).
Proof. intros W Ht. unfold fire. rewrite (find_by_id st t W Ht). reflexivity. Qed.

Lemma timers_run_action a st : timers (run_action a st) = timers st.
Proof. destruct a; [apply timers_settle | reflexivity]. Qed.

Lemma listeners_run_action a st : listeners (run_action a st) = listeners st.
Proof. destruct a; [apply listeners_settle | reflexivity]. Qed.

Lemma timers_fire st t :
  well_formed st -> t ∈ timers st ->
  timers (fire (t_id t) st) = filter (fun x => t_id x <> t_id t) (timers st).
Proof.
  intros W Ht. rewrite (fire_armed st t W Ht), timers_run_action. reflexivity.
Qed.

Lemma fire_shrinks st t :
  well_formed st -> t ∈ timers st ->
  (length (timers (fire (t_id t) st)) < length (timers st))%nat.
Proof.
  intros W Ht. rewrite (timers_fire st t W Ht).
  assert (exists x, x ∈ timers st /\ ~ (t_id x <> t_id t)) as Hex
    by (exists t; split; [exact Ht | intros Hn; apply Hn; reflexivity]).
  clear W Ht. induction (timers st) as [|y ts IH].
  - destruct Hex as (x & Hx & _). apply elem_of_nil in Hx. contradiction.
  - rewrite filter_cons. destruct (decide (t_id y <> t_id t)) as [Hy|Hy].
    + cbn [length]. apply ->Nat.succ_lt_mono. apply IH.
      destruct Hex as (x & Hx & Hn). apply elem_of_cons in Hx as [->|Hx].
      * contradiction.
      * exists x. split; assumption.
    + cbn [length]. pose proof (length_filter (fun x => t_id x <> t_id t) ts). lia.
Qed.

Lemma armed_fire st t t' :
  well_formed st -> t ∈ timers st -> t' ∈ timers st -> t <> t' ->
  t ∈ timers (fire (t_id t') st).
Proof.
  intros W Ht Ht' Hne. rewrite (timers_fire st t' W Ht').
  apply list_elem_of_filter. split; [|exact Ht].
  intros Hid. apply Hne.
  apply (same_id_same_timer (timers st)); try assumption.
  apply (wf_timer_nodup st W).
Qed.

Lemma listeners_fire id st : listeners (fire id st) = listeners st.
Proof.
  unfold fire. destruct (find _ _); [|reflexivity].
  rewrite listeners_run_action. reflexivity.
Qed.

Lemma listeners_run_due fuel now st : listeners (run_due fuel now st) = listeners st.
Proof.
  revert st. induction fuel as [|fuel IH]; intros st; [reflexivity|].
  cbn [run_due]. destruct (next_due _ _); [|reflexivity].
  rewrite IH. apply listeners_fire.
Qed.

Lemma outputs_fire id st : exists more, outputs (fire id st) = outputs st ++ more.
Proof.
  unfold fire. destruct (find _ _) as [t|]; [|exists []; symmetry; apply app_nil_r].
  destruct (t_action t); cbn [run_action].
  - rewrite outputs_settle. exists []. symmetry. apply app_nil_r.
  - eexists. reflexivity.
Qed.

Lemma outputs_run_due fuel now st :
  exists more, outputs (run_due fuel now st) = outputs st ++ more.
Proof.
  revert st. induction fuel as [|fuel IH]; intros st.
  - exists []. symmetry. apply app_nil_r.
  - cbn [run_due]. destruct (next_due _ _) as [t|]; [|exists []; symmetry; apply app_nil_r].
    destruct (IH (fire (t_id t) st)) as [more ->].
    destruct (outputs_fire (t_id t) st) as [m ->].
    exists (m ++ more). symmetry. apply app_assoc.
Qed.

Lemma next_due_Some now ts t :
  next_due now ts = Some t -> t ∈ ts /\ t_due t <= now.
Proof.
  revert t. induction ts as [|x ts IH]; intros t Hn; [discriminate|].
  cbn [next_due] in Hn. destruct (next_due now ts) as [t'|].
  - destruct (IH t' eq_refl) as [Hin Hdue].
    destruct ((t_due x <=? now) && (t_due x <=? t_due t')) eqn:Hx;
      injection Hn as <-.
    + apply andb_true_iff in Hx as [Hx _]. apply Z.leb_le in Hx.
      split; [left | exact Hx].
    + split; [right; exact Hin | exact Hdue].
  - destruct (Z.leb_spec (t_due x) now); [|discriminate].
    injection Hn as <-. split; [left | assumption].
Qed.

Lemma next_due_None now ts t :
  next_due now ts = None -> t ∈ ts -> now < t_due t.
Proof.
  induction ts as [|x ts IH]; intros Hn Ht; [apply elem_of_nil in Ht; contradiction|].
  cbn [next_due] in Hn. destruct (next_due now ts) as [t'|].
  - destruct ((t_due x <=? now) && (t_due x <=? t_due t')); discriminate.
  - destruct (Z.leb_spec (t_due x) now); [discriminate|].
    apply elem_of_cons in Ht as [->|Ht]; [assumption | apply IH; [reflexivity | exact Ht]].
Qed.

(** A due timer is found while one is armed. *)
Lemma find_due st now t :
  t ∈ timers st -> t_due t <= now ->
  exists t', next_due now (timers st) = Some t'
             /\ t' ∈ timers st /\ t_due t' <= now.
Proof.
  intros Ht Hdue.
  destruct (next_due now (timers st)) as [t'|] eqn:Hf.
  - destruct (next_due_Some _ _ _ Hf) as [Hin Hd]. exists t'. repeat split; assumption.
  - pose proof (next_due_None _ _ t Hf Ht). lia.
Qed.

(** Timers that are not due stay armed while the clock runs. *)
Lemma armed_run_due fuel now st t :
  well_formed st -> t ∈ timers st -> now < t_due t ->
  t ∈ timers (run_due fuel now st).
Proof.
  revert st. induction fuel as [|fuel IH]; intros st W Ht Hdue; [exact Ht|].
  cbn [run_due]. destruct (next_due now (timers st)) as [t'|] eqn:Hf; [|exact Ht].
  apply next_due_Some in Hf as [Hin Hd].
  apply IH; [apply wf_fire, W | | exact Hdue].
  apply armed_fire; try assumption. intros ->. lia.
Qed.

(** The motion-clear callback runs when the clock reaches its time. *)
Lemma run_due_clears_motion fuel now st t :
  well_formed st -> t ∈ timers st -> t_action t = ClearMotion -> t_due t <= now ->
  (length (timers st) <= fuel)%nat ->
  exists before after,
    outputs (run_due fuel now st) = outputs st ++ before ++ EmitMotion false :: after.
Proof.
  revert st. induction fuel as [|fuel IH]; intros st W Ht Ha Hdue Hfuel.
  - destruct (timers st); [apply elem_of_nil in Ht; contradiction | cbn in Hfuel; lia].
  - cbn [run_due].
    destruct (find_due st now t Ht Hdue) as (t' & -> & Ht' & Hdue').
    destruct (decide (t = t')) as [<-|Hne].
    + destruct (outputs_run_due fuel now (fire (t_id t) st)) as [after ->].
      rewrite (fire_armed st t W Ht), Ha. cbn [run_action]. fields.
      exists [], after. rewrite <- app_assoc. reflexivity.
    + pose proof (fire_shrinks st t' W Ht') as Hlen.
      destruct (IH (fire (t_id t') st)) as (before & after & ->);
        [apply wf_fire, W | apply armed_fire; assumption | exact Ha | exact Hdue | lia |].
      destruct (outputs_fire (t_id t') st) as [m ->].
      exists (m ++ before), after. rewrite <- !app_assoc. reflexivity.
Qed.





(** *** Timeouts *)

Lemma promise_settled_stays call p st q :
  promises st !! call = Some q -> q <> Pending ->
  promises (settle call p st) !! call = Some q.
Proof.
  intros Hq Hne. unfold settle. rewrite Hq.
  destruct q; [contradiction | exact Hq | exact Hq].
Qed.

(** A promise that is pending or timed out stays so when a timer fires. *)
Lemma unresolved_fire call id st : unresolved call st -> unresolved call (fire id st).
Proof.
  intros Hu. unfold fire. destruct (find _ _) as [t|]; [|exact Hu].
  destruct (t_action t) as [c|]; cbn [run_action]; [|exact Hu].
  unfold settle, clearTimeout, unresolved in *. fields.
  destruct (promises st !! c) as [[| |]|] eqn:Hc; try exact Hu. fields.
  destruct (decide (c = call)) as [->|Hne].
  - right. apply lookup_insert_eq.
  - rewrite lookup_insert_ne by exact Hne. exact Hu.
Qed.

Lemma timed_out_fire call id st :
  promises st !! call = Some (Rejected CommandTimeout) ->
  promises (fire id st) !! call = Some (Rejected CommandTimeout).
Proof.
  intros Hr. unfold fire. destruct (find _ _) as [t|]; [|exact Hr].
  destruct (t_action t) as [c|]; cbn [run_action]; [|exact Hr].
  unfold settle, clearTimeout. fields.
  destruct (promises st !! c) as [[| |]|] eqn:Hc; try exact Hr. fields.
  destruct (decide (c = call)) as [->|Hne]; [congruence|].
  rewrite lookup_insert_ne by exact Hne. exact Hr.
Qed.

Lemma timed_out_run_due fuel now call st :
  promises st !! call = Some (Rejected CommandTimeout) ->
  promises (run_due fuel now st) !! call = Some (Rejected CommandTimeout).
Proof.
  revert st. induction fuel as [|fuel IH]; intros st Hr; [exact Hr|].
  cbn [run_due]. destruct (next_due _ _) as [t|]; [|exact Hr].
  apply IH, timed_out_fire, Hr.
Qed.

(** The timeout callback of a call rejects it when the clock reaches
    its time. *)
Lemma run_due_rejects fuel now st t call :
  well_formed st -> t ∈ timers st -> t_action t = RejectCall call -> t_due t <= now ->
  (length (timers st) <= fuel)%nat ->
  unresolved call st ->
  promises (run_due fuel now st) !! call = Some (Rejected CommandTimeout).
Proof.
  revert st. induction fuel as [|fuel IH]; intros st W Ht Ha Hdue Hfuel Hu.
  - destruct (timers st); [apply elem_of_nil in Ht; contradiction | cbn in Hfuel; lia].
  - cbn [run_due].
    destruct (find_due st now t Ht Hdue) as (t' & -> & Ht' & Hdue').
    destruct (decide (t = t')) as [<-|Hne].
    + apply timed_out_run_due.
      rewrite (fire_armed st t W Ht), Ha. cbn [run_action].
      unfold settle, clearTimeout, unresolved in *. fields.
      destruct Hu as [Hp | Hp]; rewrite Hp; fields;
        [apply lookup_insert_eq | exact Hp].
    + pose proof (fire_shrinks st t' W Ht') as Hlen.
      apply IH; [apply wf_fire, W | apply armed_fire; assumption | exact Ha
                 | exact Hdue | lia | apply unresolved_fire, Hu].
Qed.

(** What the timeout of a command does and does not do: the call is
    rejected with [CommandTimeout], and its listener stays registered. *)
Lemma timeout_rejects_and_keeps_listener st now command payload :
  well_formed st ->
  goes_out now command payload st = true ->
  let sent := sendCommand now command payload st in
  let st2 := advance (now + 5000) sent.2 in
  promises st2 !! sent.1 = Some (Rejected CommandTimeout)
  /\ listeners st2 !! (sequence st + 1) = Some [Handler (S (fresh st)) sent.1].
Proof.
  intros W Hgo sent st2.
  pose proof (wf_sendCommand now command payload st W) as W1. fold sent in W1.
  destruct (sendCommand_goes_out _ _ _ _ Hgo) as (e & crc & _ & _ & Hs).
  fold sent in Hs. subst st2. rewrite Hs in *. cbn [fst snd] in *.
  set (packet := (_ ++ crc ++ magic_footer)) in *.
  split.
  - apply (run_due_rejects _ _ _ (Timer (S (fresh st)) (now + 5000) (RejectCall (fresh st))));
      [exact W1 | | reflexivity | cbn; lia | lia |].
    + unfold after_send. fields. apply elem_of_app. right.
      apply list_elem_of_singleton. reflexivity.
    + left. unfold after_send. fields. apply lookup_insert_eq.
  - unfold advance. rewrite listeners_run_due. unfold after_send. fields.
    rewrite (no_listener_ahead st (sequence st + 1) W) by lia.
    apply lookup_insert_eq.
Qed.

End with_runtime.

End Device_state_facts.

(** ** Stream connection *)

Module Stream_facts.
Import Stream Buffer_facts Wording.

Ltac fields :=
  cbn [deviceId localKey sessionKey frameBuffer outputs set_sessionKey set_frameBuffer
       emit final packets thrown fst snd] in *.

Section with_runtime.
Context `{NodeCrypto} `{NodeText}.

(** *** The loop ends *)

Lemma slice_from_shorter buf n :
  20 <= n <= blen buf -> (length (slice_from buf n) + 20 <= length buf)%nat.
Proof.
  intros Hn. rewrite slice_from_inside by lia. rewrite length_drop.
  unfold blen in Hn. lia.
Qed.

Lemma indexOf_at_range needle hay i :
  indexOf_at needle hay i = -1
  \/ i <= indexOf_at needle hay i < i + Z.of_nat (length hay).
Proof.
  revert i. induction hay as [|b hay IH]; intros i; [left; reflexivity|].
  cbn [indexOf_at]. destruct (bool_decide _).
  - right. cbn [length]. lia.
  - destruct (IH (i + 1)) as [->|Hr]; [left; reflexivity|].
    right. cbn [length]. lia.
Qed.

Lemma indexOf_range buf needle from :
  (from <= length buf)%nat ->
  indexOf buf needle from = -1
  \/ Z.of_nat from <= indexOf buf needle from < blen buf.
Proof.
  intros Hfrom. unfold indexOf.
  destruct (indexOf_at_range needle (drop from buf) (Z.of_nat from)) as [->|Hr];
    [left; reflexivity|].
  right. rewrite length_drop in Hr. unfold blen. lia.
Qed.

(** With fuel beyond the buffer length the loop returns. *)
Lemma scan_returns fuel st seen :
  (length (frameBuffer st) < fuel)%nat -> is_Some (scan fuel st seen).
Proof.
  revert st seen. induction fuel as [|fuel IH]; intros st seen Hfuel; [lia|].
  cbn [scan].
  destruct (blen (frameBuffer st) <? 20) eqn:Hshort; [eexists; reflexivity|].
  apply Z.ltb_ge in Hshort.
  assert (exists st1, (length (frameBuffer st1) <= length (frameBuffer st))%nat
            /\ ((if negb (starts_with_magic (frameBuffer st))
                 then if 0 <? indexOf (frameBuffer st) magic_header 1
                      then inr (set_frameBuffer
                                  (slice_from (frameBuffer st)
                                     (indexOf (frameBuffer st) magic_header 1)) st)
                      else inl (set_frameBuffer [] st)
                 else inr st) = inr st1
                \/ (if negb (starts_with_magic (frameBuffer st))
                    then if 0 <? indexOf (frameBuffer st) magic_header 1
                         then inr (set_frameBuffer
                                     (slice_from (frameBuffer st)
                                        (indexOf (frameBuffer st) magic_header 1)) st)
                         else inl (set_frameBuffer [] st)
                    else inr st) = inl st1)) as (st1 & Hlen1 & Hres).
  { destruct (negb (starts_with_magic (frameBuffer st))).
    - destruct (Z.ltb_spec 0 (indexOf (frameBuffer st) magic_header 1)) as [Hpos|Hneg].
      + eexists. split; [|left; reflexivity]. fields.
        destruct (indexOf_range (frameBuffer st) magic_header 1) as [E|Hr];
          [unfold blen in Hshort; lia | lia |].
        rewrite slice_from_inside by lia. rewrite length_drop. lia.
      + eexists. split; [|right; reflexivity]. fields. cbn. lia.
    - exists st. split; [lia | left; reflexivity]. }
  destruct Hres as [-> | ->]; [|eexists; reflexivity].
  destruct (readUInt32BE (frameBuffer st1) 8) as [command|]; [|eexists; reflexivity].
  destruct (readUInt32BE (frameBuffer st1) 16) as [payloadLen|] eqn:Hl;
    [|eexists; reflexivity].
  destruct (Z.ltb_spec (blen (frameBuffer st1)) (20 + payloadLen)) as [|Hfull];
    [eexists; reflexivity|].
  apply IH.
  assert (0 <= payloadLen) as Hnn.
  { destruct (Nat.le_gt_cases (16 + 4) (length (frameBuffer st1))) as [Hin|Hout].
    - destruct (readUInt32BE_inside _ 16 Hin) as (v & Hv & Hr).
      rewrite Hv in Hl. injection Hl as <-. lia.
    - rewrite readUInt32BE_outside in Hl by lia. discriminate. }
  pose proof (slice_from_shorter (frameBuffer st1) (20 + payloadLen) ltac:(lia)) as Hs.
  destruct (command =? CMD_STREAM_DATA); fields; lia.
Qed.

(** [handleStreamData] always returns or throws: the loop is never cut
    short by its fuel. *)
Lemma handleStreamData_total data st : is_Some (handleStreamData data st).
Proof. unfold handleStreamData. apply scan_returns. lia. Qed.

(** *** Frames that arrive in pieces *)

Lemma stream_frame_fields frame :
  stream_frame frame = true ->
  (20 <= length frame)%nat
  /\ starts_with_magic frame = true
  /\ readUInt32BE frame 16 = Ok (length_field frame)
  /\ blen frame = 20 + length_field frame
  /\ exists command, readUInt32BE frame 8 = Ok command.
Proof.
  unfold stream_frame. intros Hf.
  apply andb_true_iff in Hf as [Hf Hlen]. apply andb_true_iff in Hf as [Hmin Hmagic].
  apply Z.leb_le in Hmin. apply Z.eqb_eq in Hlen. unfold blen in Hmin.
  split; [lia|]. split; [exact Hmagic|].
  destruct (readUInt32BE_inside frame 16 ltac:(lia)) as (l & Hl & _).
  destruct (readUInt32BE_inside frame 8 ltac:(lia)) as (c & Hc & _).
  unfold length_field in *. rewrite Hl in *.
  split; [reflexivity|]. split; [exact Hlen|]. exists c. exact Hc.
Qed.

(** A proper prefix of a frame is left in the buffer. *)
Lemma scan_waits fuel st seen frame rest :
  stream_frame frame = true ->
  frameBuffer st ++ rest = frame -> rest <> [] ->
  scan (S fuel) st seen = Some (Outcome st seen None).
Proof.
  intros Hf Hsplit Hrest.
  destruct (stream_frame_fields frame Hf) as (Hmin & Hmagic & Hl & Hlen & c & Hc).
  cbn [scan].
  destruct (Z.ltb_spec (blen (frameBuffer st)) 20) as [|Hlong]; [reflexivity|].
  unfold blen in Hlong.
  remember (length_field frame) as len eqn:Elen. clear Elen Hf.
  rewrite <- Hsplit in Hmagic, Hl, Hc, Hlen.
  rewrite starts_with_magic_app in Hmagic by lia.
  rewrite readUInt32BE_app in Hl, Hc by lia.
  rewrite Hmagic. cbn [negb]. rewrite Hc, Hl.
  assert (0 < blen rest) by (unfold blen; destruct rest; [contradiction | cbn; lia]).
  rewrite blen_app in Hlen.
  destruct (Z.ltb_spec (blen (frameBuffer st)) (20 + len)); [reflexivity|lia].
Qed.

Lemma scan_takes_frame fuel st seen frame command :
  stream_frame frame = true ->
  frameBuffer st = frame ->
  readUInt32BE frame 8 = Ok command ->
  scan (S (S fuel)) st seen
  = Some (Outcome (after_frame command frame st) (seen ++ [(command, frame)]) None).
Proof.
  intros Hf Hbuf Hcmd.
  destruct (stream_frame_fields frame Hf) as (Hmin & Hmagic & Hl & Hlen & _).
  cbn [scan]. rewrite Hbuf.
  destruct (Z.ltb_spec (blen frame) 20) as [Hshort|_]; [unfold blen in Hshort; lia|].
  rewrite Hmagic. cbn [negb]. rewrite Hbuf, Hcmd, Hl.
  destruct (Z.ltb_spec (blen frame) (20 + length_field frame)); [lia|].
  rewrite <- Hlen.
  assert (slice frame 0 (blen frame) = frame) as Hpacket.
  { rewrite slice_prefix by (pose proof (blen_nonneg frame); lia).
    apply take_ge. unfold blen. lia. }
  assert (slice_from frame (blen frame) = []) as Hrest.
  { rewrite slice_from_inside by (pose proof (blen_nonneg frame); lia).
    apply drop_ge. unfold blen. lia. }
  rewrite Hpacket, Hrest.
  unfold after_frame. rewrite Hlen.
  destruct (command =? CMD_STREAM_DATA); reflexivity.
Qed.

Lemma set_frameBuffer_twice a b st :
  set_frameBuffer a (set_frameBuffer b st) = set_frameBuffer a st.
Proof. reflexivity. Qed.

Lemma handleStreamData_waits chunk st frame rest :
  stream_frame frame = true ->
  (frameBuffer st ++ chunk) ++ rest = frame -> rest <> [] ->
  handleStreamData chunk st
  = Some (Outcome (set_frameBuffer (frameBuffer st ++ chunk) st) [] None).
Proof.
  intros Hf Hsplit Hrest. unfold handleStreamData.
  apply (scan_waits _ _ _ frame rest); assumption.
Qed.

Lemma feed_waits chunks st frame rest :
  stream_frame frame = true ->
  (frameBuffer st ++ concat chunks) ++ rest = frame -> rest <> [] ->
  forall more,
    feed (chunks ++ more) st
    = feed more (set_frameBuffer (frameBuffer st ++ concat chunks) st).
Proof.
  intros Hf. revert st. induction chunks as [|c chunks IH]; intros st Hsplit Hrest more.
  - cbn [concat app]. rewrite app_nil_r. destruct st; reflexivity.
  - cbn [concat app feed] in *.
    rewrite (handleStreamData_waits c st frame (concat chunks ++ rest) Hf);
      [|rewrite <- Hsplit, <- !app_assoc; reflexivity
       |intros E; apply app_eq_nil in E as [_ E]; contradiction].
    rewrite IH; fields; [|rewrite <- Hsplit, <- !app_assoc; reflexivity | exact Hrest].
    rewrite set_frameBuffer_twice, <- app_assoc.
    destruct (feed more _) as [[s p e]|]; reflexivity.
Qed.

Lemma control_prefix_discarded chunk rest frame :
  stream_frame frame = true -> chunk ++ rest = frame -> rest <> [] ->
  chunk_discarded chunk = true.
Proof.
  intros Hf Hsplit Hrest.
  destruct (stream_frame_fields frame Hf) as (Hmin & Hmagic & Hl & Hlen & _).
  unfold chunk_discarded.
  destruct (Z.ltb_spec (blen chunk) 20) as [|Hlong]; [reflexivity|].
  unfold blen in Hlong.
  remember (length_field frame) as len eqn:Elen. clear Elen Hf.
  rewrite <- Hsplit in Hl, Hlen.
  rewrite readUInt32BE_app in Hl by lia.
  unfold length_field. rewrite Hl.
  assert (0 < blen rest) by (unfold blen; destruct rest; [contradiction | cbn; lia]).
  rewrite blen_app in Hlen.
  destruct (Z.ltb_spec (blen chunk) (20 + len)); [|lia].
  apply orb_true_r.
Qed.

(** C5, as amended.  On the stream connection, a frame that begins with
    the magic header and is as long as its length field says, cut
    into pieces at any byte boundaries and fed piece by piece into an
    empty frame buffer, gives no packet, no event and no exception
    while a piece is still missing, the pieces being kept in the buffer;
    with the last piece the outcome is the one of feeding the frame in one
    chunk: its packet, whole, and an empty buffer.  On the control
    connection every chunk that is a proper initial piece of such a frame
    is dropped and leaves no trace. *)
Theorem frame_in_pieces st frame pieces last :
  frameBuffer st = [] ->
  stream_frame frame = true ->
  concat pieces ++ last = frame ->
  last <> [] ->
  feed pieces st = Some (Outcome (set_frameBuffer (concat pieces) st) [] None)
  /\ feed (pieces ++ [last]) st = feed [frame] st
  /\ (exists command,
        readUInt32BE frame 8 = Ok command
        /\ feed [frame] st
           = Some (Outcome (after_frame command frame st) [(command, frame)] None)
        /\ frameBuffer (after_frame command frame st) = [])
  /\ forall now dst piece rest,
        piece ++ rest = frame -> rest <> [] ->
        Device.handleData now piece dst = (Ok (), dst).
Proof.
  intros Hempty Hf Hsplit Hlast.
  destruct (stream_frame_fields frame Hf) as (_ & _ & _ & _ & command & Hc).
  assert (forall more, feed (pieces ++ more) st
                       = feed more (set_frameBuffer (concat pieces) st)) as Hwait.
  { intros more. pose proof (feed_waits pieces st frame last Hf) as Hw.
    rewrite Hempty in Hw. apply Hw; assumption. }
  split; [|split; [|split]].
  - specialize (Hwait []). rewrite app_nil_r in Hwait. exact Hwait.
  - rewrite Hwait. cbn [feed]. unfold handleStreamData. fields.
    rewrite Hempty, Hsplit. reflexivity.
  - exists command. split; [exact Hc|].
    assert (handleStreamData frame st
            = Some (Outcome (after_frame command frame st) [(command, frame)] None))
      as Hone.
    { unfold handleStreamData. rewrite Hempty. cbn [app]. fields.
      destruct frame as [|b frame]; [discriminate|]. cbn [length].
      rewrite (scan_takes_frame (length frame) (set_frameBuffer (b :: frame) st) []
                 (b :: frame) command Hf eq_refl Hc).
      reflexivity. }
    cbn [feed]. rewrite Hone. split; [reflexivity|].
    unfold after_frame. destruct (command =? CMD_STREAM_DATA); reflexivity.
  - intros now dst piece rest Hpiece Hrest.
    apply Device_facts.handleData_discarded.
    apply (control_prefix_discarded piece rest frame); assumption.
Qed.

End with_runtime.

End Stream_facts.

(** ** Keys and the cipher on the two connections *)

Module Key_facts.
Import Wording.

Section with_runtime.
Context `{NodeCrypto} {laws : NodeCryptoLaws _} `{NodeText}.

(** C7.  Under a 16-byte key, encryption (AES-128-ECB with PKCS#7
    padding) succeeds on every plaintext, and decrypting the result
    gives the plaintext back: in the library calls themselves, between
    [encryptPayload] and [decryptPayload] of the stream connection, and
    between the encryption of [sendCommand] and the decryption of
    [handleData] on the control connection. *)
Theorem decrypt_encrypt_roundtrip (key plain : Buffer) :
  length key = 16%nat ->
  (exists encrypted,
      Cipher.aes_128_ecb_encrypt key plain = Ok encrypted
      /\ Cipher.aes_128_ecb_decrypt key encrypted = Ok plain)
  /\ (forall st, Stream.cipher_key st = key ->
        exists encrypted,
          Stream.encryptPayload plain st = Ok encrypted
          /\ Stream.decryptPayload encrypted st = plain)
  /\ (forall dst, Device.localKey dst = key ->
        exists encrypted,
          Cipher.aes_128_ecb_encrypt (Device.localKey dst) plain = Ok encrypted
          /\ Device.decrypt_chunk encrypted dst = Ok plain).
Proof.
  intros Hkey.
  destruct (Cipher_facts.aes_128_ecb_roundtrip key plain Hkey)
    as (encrypted & Henc & Hne & Hdec).
  split; [exists encrypted; split; assumption|]. split.
  - intros st Hst. exists encrypted.
    unfold Stream.encryptPayload, Stream.decryptPayload. rewrite Hst, Henc, Hdec.
    split; reflexivity.
  - intros dst Hdst. exists encrypted. rewrite Hdst. split; [exact Henc|].
    unfold Device.decrypt_chunk. rewrite Hdst.
    destruct (Z.ltb_spec 0 (blen encrypted)) as [|Hzero]; [exact Hdec|].
    destruct encrypted; [contradiction | unfold blen in Hzero; cbn in Hzero; lia].
Qed.

(** *** The session key of the stream connection *)

Lemma sessionKey_scan fuel st seen out :
  Stream.scan fuel st seen = Some out ->
  Stream.sessionKey (Stream.final out) = Stream.sessionKey st
  /\ Stream.localKey (Stream.final out) = Stream.localKey st.
Proof.
  revert st seen. induction fuel as [|fuel IH]; intros st seen Hs; [discriminate|].
  cbn [Stream.scan] in Hs.
  destruct (blen (Stream.frameBuffer st) <? 20);
    [injection Hs as <-; split; reflexivity|].
  destruct (negb (starts_with_magic (Stream.frameBuffer st))).
  - destruct (0 <? indexOf (Stream.frameBuffer st) magic_header 1).
    + match type of Hs with context [readUInt32BE ?b 8] => set (buf := b) in * end.
      destruct (readUInt32BE buf 8); [|injection Hs as <-; split; reflexivity].
      destruct (readUInt32BE buf 16); [|injection Hs as <-; split; reflexivity].
      destruct (blen buf <? 20 + a0); [injection Hs as <-; split; reflexivity|].
      apply IH in Hs. destruct (a =? Stream.CMD_STREAM_DATA); exact Hs.
    + injection Hs as <-. split; reflexivity.
  - destruct (readUInt32BE _ 8); [|injection Hs as <-; split; reflexivity].
    destruct (readUInt32BE _ 16); [|injection Hs as <-; split; reflexivity].
    destruct (blen _ <? 20 + a0); [injection Hs as <-; split; reflexivity|].
    apply IH in Hs. destruct (a =? Stream.CMD_STREAM_DATA); exact Hs.
Qed.

Lemma cipher_key_handleStreamData data st out :
  Stream.handleStreamData data st = Some out ->
  Stream.cipher_key (Stream.final out) = Stream.cipher_key st.
Proof.
  unfold Stream.handleStreamData. intros Hs.
  apply sessionKey_scan in Hs as [Hk Hl].
  unfold Stream.cipher_key. rewrite Hk, Hl. reflexivity.
Qed.

Lemma cipher_key_stop now st :
  Stream.cipher_key (Stream.stop now st).2 = Stream.cipher_key st.
Proof.
  unfold Stream.stop.
  destruct (Stream.encryptPayload _ st); [|reflexivity].
  destruct (Stream.buildPacket _ _ _); reflexivity.
Qed.

Lemma sessionKey_sendStreamRequest now st :
  Stream.sessionKey (Stream.sendStreamRequest now st).2
  = Some (md5_digest (Stream.localKey st ++ Stream.stream_suffix)).
Proof.
  unfold Stream.sendStreamRequest.
  destruct (Stream.encryptPayload _ _); [|reflexivity].
  destruct (Stream.buildPacket _ _ _); reflexivity.
Qed.

Lemma decryptPayload_with data st :
  Stream.decryptPayload data st = decrypted_with (Stream.cipher_key st) data.
Proof. reflexivity. Qed.

Lemma read_word_inside buf off v :
  readUInt32BE buf off = Ok v -> (off + 4 <= length buf)%nat /\ 0 <= v.
Proof.
  intros Hr.
  destruct (le_lt_dec (off + 4) (length buf)) as [Hin|Hout].
  - split; [exact Hin|].
    destruct (Buffer_facts.readUInt32BE_inside buf off Hin) as (v' & Hv' & Hrange).
    rewrite Hr in Hv'. injection Hv' as <-. lia.
  - rewrite (Buffer_facts.readUInt32BE_outside buf off) in Hr by lia. discriminate.
Qed.

(** The packet the loop takes from the buffer holds the length word it
    was cut by. *)
Lemma length_field_packet buf payloadLen :
  readUInt32BE buf 16 = Ok payloadLen ->
  (blen buf <? 20 + payloadLen) = false ->
  length_field (slice buf 0 (20 + payloadLen)) = payloadLen.
Proof.
  intros Hr Hlen. apply Z.ltb_ge in Hlen.
  destruct (read_word_inside _ _ _ Hr) as [Hin Hpos].
  rewrite Buffer_facts.slice_prefix by lia.
  unfold length_field. rewrite Buffer_facts.readUInt32BE_take by lia.
  rewrite Hr. reflexivity.
Qed.

(** One call of the loop: the events it emits are those of the packets
    it takes, each stream-data payload decrypted with the key in use;
    the key stays. *)
Lemma scan_events fuel :
  forall st seen out,
    Stream.scan fuel st seen = Some out ->
    exists new,
      Stream.packets out = seen ++ new
      /\ Stream.outputs (Stream.final out)
         = Stream.outputs st ++ concat (video_under (Stream.cipher_key st) <$> new).
Proof.
  assert (forall st seen e,
             exists new,
               Stream.packets (Stream.Outcome st seen e) = seen ++ new
               /\ Stream.outputs (Stream.final (Stream.Outcome st seen e))
                  = Stream.outputs st
                    ++ concat (video_under (Stream.cipher_key st) <$> new)) as Hstay.
  { intros st seen e. exists []. cbn. rewrite !app_nil_r. split; reflexivity. }
  assert (forall fuel' : nat,
             (forall st seen out,
                 Stream.scan fuel' st seen = Some out ->
                 exists new,
                   Stream.packets out = seen ++ new
                   /\ Stream.outputs (Stream.final out)
                      = Stream.outputs st
                        ++ concat (video_under (Stream.cipher_key st) <$> new)) ->
             forall st seen out,
               match readUInt32BE (Stream.frameBuffer st) 8 with
               | Throw e => Some (Stream.Outcome st seen (Some e))
               | Ok command =>
                   match readUInt32BE (Stream.frameBuffer st) 16 with
                   | Throw e => Some (Stream.Outcome st seen (Some e))
                   | Ok payloadLen =>
                       if blen (Stream.frameBuffer st) <? 20 + payloadLen
                       then Some (Stream.Outcome st seen None)
                       else
                         let packet := slice (Stream.frameBuffer st) 0 (20 + payloadLen) in
                         let st1 := Stream.set_frameBuffer
                                      (slice_from (Stream.frameBuffer st) (20 + payloadLen))
                                      st in
                         let st2 :=
                           if command =? Stream.CMD_STREAM_DATA then
                             Stream.emit
                               (Stream.EmitVideoData
                                  (Stream.decryptPayload
                                     (slice packet 20 (20 + payloadLen - 8)) st1)) st1
                           else st1 in
                         Stream.scan fuel' st2 (seen ++ [(command, packet)])
                   end
               end = Some out ->
               exists new,
                 Stream.packets out = seen ++ new
                 /\ Stream.outputs (Stream.final out)
                    = Stream.outputs st
                      ++ concat (video_under (Stream.cipher_key st) <$> new)) as Hturn.
  { intros fuel' IH st seen out Hs.
    destruct (readUInt32BE (Stream.frameBuffer st) 8) as [command|e];
      [|injection Hs as <-; apply Hstay].
    destruct (readUInt32BE (Stream.frameBuffer st) 16) as [payloadLen|e] eqn:Hlen;
      [|injection Hs as <-; apply Hstay].
    destruct (blen (Stream.frameBuffer st) <? 20 + payloadLen) eqn:Hfits;
      [injection Hs as <-; apply Hstay|].
    cbv zeta in Hs. apply IH in Hs as (new & Hp & Ho).
    exists ((command, slice (Stream.frameBuffer st) 0 (20 + payloadLen)) :: new).
    split; [rewrite Hp, <- app_assoc; reflexivity|].
    rewrite Ho, fmap_cons. cbn [concat]. unfold video_under at 2. cbn [fst snd].
    rewrite (length_field_packet _ _ Hlen Hfits).
    destruct (command =? Stream.CMD_STREAM_DATA).
    - cbn [Stream.emit Stream.outputs Stream.set_frameBuffer Stream.cipher_key
           Stream.sessionKey Stream.localKey].
      rewrite <- app_assoc. reflexivity.
    - reflexivity. }
  induction fuel as [|fuel IH]; intros st seen out Hs; [discriminate|].
  cbn [Stream.scan] in Hs.
  destruct (blen (Stream.frameBuffer st) <? 20); [injection Hs as <-; apply Hstay|].
  destruct (negb (starts_with_magic (Stream.frameBuffer st))).
  - destruct (0 <? indexOf (Stream.frameBuffer st) magic_header 1).
    + apply (Hturn fuel IH) in Hs. exact Hs.
    + injection Hs as <-. exists []. cbn. rewrite !app_nil_r. split; reflexivity.
  - apply (Hturn fuel IH) in Hs. exact Hs.
Qed.

Lemma handleStreamData_events data st :
  exists out,
    Stream.handleStreamData data st = Some out
    /\ Stream.outputs (Stream.final out)
       = Stream.outputs st
         ++ concat (video_under (Stream.cipher_key st) <$> Stream.packets out).
Proof.
  destruct (Stream_facts.handleStreamData_total data st) as [out Hout].
  exists out. split; [exact Hout|].
  unfold Stream.handleStreamData in Hout.
  apply scan_events in Hout as (new & Hp & Ho). cbn [app] in Hp.
  rewrite Hp. exact Ho.
Qed.

Lemma sessionKey_later st st' :
  later st st' ->
  Stream.sessionKey st' = Stream.sessionKey st
  /\ Stream.localKey st' = Stream.localKey st
  /\ Stream.deviceId st' = Stream.deviceId st.
Proof.
  induction 1 as [|st' data out _ IH Hout|st' now _ IH]; [repeat split| |].
  - unfold Stream.handleStreamData in Hout.
    assert (forall fuel s seen o,
               Stream.scan fuel s seen = Some o ->
               Stream.deviceId (Stream.final o) = Stream.deviceId s) as Hid.
    { clear. induction fuel as [|fuel IH]; intros st seen out Hs; [discriminate|].
      cbn [Stream.scan] in Hs.
      destruct (blen (Stream.frameBuffer st) <? 20); [injection Hs as <-; reflexivity|].
      destruct (negb (starts_with_magic (Stream.frameBuffer st))).
      - destruct (0 <? indexOf (Stream.frameBuffer st) magic_header 1).
        + match type of Hs with context [readUInt32BE ?b 8] => set (buf := b) in * end.
          destruct (readUInt32BE buf 8); [|injection Hs as <-; reflexivity].
          destruct (readUInt32BE buf 16); [|injection Hs as <-; reflexivity].
          destruct (blen buf <? 20 + a0); [injection Hs as <-; reflexivity|].
          apply IH in Hs. destruct (a =? Stream.CMD_STREAM_DATA); exact Hs.
        + injection Hs as <-. reflexivity.
      - destruct (readUInt32BE _ 8); [|injection Hs as <-; reflexivity].
        destruct (readUInt32BE _ 16); [|injection Hs as <-; reflexivity].
        destruct (blen _ <? 20 + a0); [injection Hs as <-; reflexivity|].
        apply IH in Hs. destruct (a =? Stream.CMD_STREAM_DATA); exact Hs. }
    pose proof (Hid _ _ _ _ Hout) as Hd.
    apply sessionKey_scan in Hout as [Hk Hl].
    destruct IH as (IHk & IHl & IHd).
    rewrite Hk, Hl, Hd. repeat split; assumption.
  - destruct IH as (IHk & IHl & IHd).
    unfold Stream.stop.
    destruct (Stream.encryptPayload _ st'); [|repeat split; assumption].
    destruct (Stream.buildPacket _ _ _); repeat split; assumption.
Qed.

(** What [stop] writes, by the key in use. *)
Lemma stop_under_key now st :
  Stream.stop now st
  = match Cipher.aes_128_ecb_encrypt (Stream.cipher_key st) (Stream.stop_request st) with
    | Throw e => (Throw e, st)
    | Ok encrypted =>
        match Stream.buildPacket now Stream.CMD_STREAM_STOP encrypted with
        | Throw e => (Throw e, st)
        | Ok packet => (Ok (), Stream.emit (Stream.SocketWrite packet) st)
        end
    end.
Proof. reflexivity. Qed.

(** C8, as amended.  The control connection encrypts what it sends, and
    decrypts what it receives, with the local key itself; its state has
    no session key.  The stream connection sets its session key to
    MD5(localKey ++ "stream"), a 16-byte key, when it sends its stream
    request: the request is encrypted with that key and goes out (unless
    packet building throws).  From then on, after any chunks handled and
    any calls of [stop], the session key is that key: [encryptPayload]
    encrypts with it, [decryptPayload] decrypts with it (and returns the
    data as it came when that throws), every ['videoData'] event that
    [handleStreamData] emits is the payload of a stream-data packet
    decrypted with it, and [stop] encrypts its stop packet with it.
    Before the stream request, while the session key is unset, the
    stream connection falls back to the local key itself: [stop] then
    encrypts its packet with the local key. *)
Theorem key_of_each_connection :
  (forall now command payload dst,
      goes_out now command payload dst = true ->
      exists encrypted crc,
        Cipher.aes_128_ecb_encrypt (Device.localKey dst)
          (Device.command_bytes now payload dst) = Ok encrypted
        /\ Device.outputs (Device.sendCommand now command payload dst).2
           = Device.outputs dst
             ++ [Device.SocketWrite
                   ((magic_header ++ uint32BE command
                     ++ uint32BE (Device.sequence dst + 1)
                     ++ uint32BE (blen encrypted + 8) ++ encrypted)
                    ++ crc ++ magic_footer)])
  /\ (forall encrypted dst,
        0 < blen encrypted ->
        Device.decrypt_chunk encrypted dst
        = Cipher.aes_128_ecb_decrypt (Device.localKey dst) encrypted)
  /\ (forall now st,
        let key := md5_digest (Stream.localKey st ++ Stream.stream_suffix) in
        let st' := (Stream.sendStreamRequest now st).2 in
        length key = 16%nat
        /\ (exists encrypted,
              Cipher.aes_128_ecb_encrypt key (Stream.stream_request now st) = Ok encrypted
              /\ forall packet,
                   Stream.buildPacket now Stream.CMD_STREAM_START encrypted = Ok packet ->
                   Stream.outputs st' = Stream.outputs st ++ [Stream.SocketWrite packet])
        /\ forall st'',
             later st' st'' ->
             Stream.sessionKey st'' = Some key
             /\ Stream.cipher_key st'' = key
             /\ (forall data, Stream.encryptPayload data st''
                              = Cipher.aes_128_ecb_encrypt key data)
             /\ (forall data, Stream.decryptPayload data st''
                              = match Cipher.aes_128_ecb_decrypt key data with
                                | Ok plain => plain
                                | Throw _ => data
                                end)
             /\ (forall data,
                   exists out,
                     Stream.handleStreamData data st'' = Some out
                     /\ Stream.outputs (Stream.final out)
                        = Stream.outputs st''
                          ++ concat (video_under key <$> Stream.packets out))
             /\ (forall now',
                   exists encrypted,
                     Cipher.aes_128_ecb_encrypt key (Stream.stop_request st'')
                     = Ok encrypted
                     /\ forall packet,
                          Stream.buildPacket now' Stream.CMD_STREAM_STOP encrypted
                          = Ok packet ->
                          Stream.stop now' st''
                          = (Ok (), Stream.emit (Stream.SocketWrite packet) st'')))
  /\ (forall st,
        Stream.sessionKey st = None ->
        Stream.cipher_key st = Stream.localKey st
        /\ (forall data, Stream.encryptPayload data st
                         = Cipher.aes_128_ecb_encrypt (Stream.localKey st) data)
        /\ (forall now encrypted packet,
              Cipher.aes_128_ecb_encrypt (Stream.localKey st) (Stream.stop_request st)
              = Ok encrypted ->
              Stream.buildPacket now Stream.CMD_STREAM_STOP encrypted = Ok packet ->
              Stream.stop now st
              = (Ok (), Stream.emit (Stream.SocketWrite packet) st))).
Proof.
  split; [|split; [|split]].
  - intros now command payload dst Hgo.
    destruct (Device_state_facts.sendCommand_goes_out _ _ _ _ Hgo)
      as (encrypted & crc & Henc & _ & Hs).
    exists encrypted, crc. split; [exact Henc|]. rewrite Hs. reflexivity.
  - intros encrypted dst Hlen. unfold Device.decrypt_chunk.
    destruct (Z.ltb_spec 0 (blen encrypted)); [reflexivity | lia].
  - intros now st key st'.
    pose proof (md5_digest_length (Stream.localKey st ++ Stream.stream_suffix)) as Hlen.
    fold key in Hlen.
    split; [exact Hlen|]. split.
    + destruct (Cipher_facts.aes_128_ecb_roundtrip key (Stream.stream_request now st) Hlen)
        as (encrypted & Henc & _).
      exists encrypted. split; [exact Henc|]. intros packet Hp.
      subst st'. unfold Stream.sendStreamRequest, Stream.encryptPayload.
      cbn [Stream.cipher_key Stream.set_sessionKey Stream.sessionKey].
      fold key. rewrite Henc, Hp. reflexivity.
    + intros st'' Hlater.
      destruct (sessionKey_later _ _ Hlater) as (Hk & _ & _).
      subst st'. rewrite sessionKey_sendStreamRequest in Hk. fold key in Hk.
      assert (Stream.cipher_key st'' = key) as Hkey
        by (unfold Stream.cipher_key; rewrite Hk; reflexivity).
      split; [exact Hk|]. split; [exact Hkey|]. split; [|split; [|split]].
      * intros data. unfold Stream.encryptPayload. rewrite Hkey. reflexivity.
      * intros data. unfold Stream.decryptPayload. rewrite Hkey. reflexivity.
      * intros data. rewrite <- Hkey. apply handleStreamData_events.
      * intros now'.
        destruct (Cipher_facts.aes_128_ecb_roundtrip key (Stream.stop_request st'') Hlen)
          as (encrypted & Henc & _).
        exists encrypted. split; [exact Henc|]. intros packet Hp.
        rewrite stop_under_key, Hkey, Henc, Hp. reflexivity.
  - intros st Hnone.
    assert (Stream.cipher_key st = Stream.localKey st) as Hkey
      by (unfold Stream.cipher_key; rewrite Hnone; reflexivity).
    split; [exact Hkey|]. split.
    + intros data. unfold Stream.encryptPayload. rewrite Hkey. reflexivity.
    + intros now encrypted packet Henc Hp.
      rewrite stop_under_key, Hkey, Henc, Hp. reflexivity.
Qed.

End with_runtime.

End Key_facts.

(** ** The encoder against the two parsers *)

Module Codec_facts.
Import Scenario.

(** What the control parser reads from any packet of [buildPacket]: the
    sequence number as the command, the length as the sequence number. *)
Lemma buildPacket_ranges command payload st packet :
  (Device.buildPacket command payload st).1 = Ok packet ->
  0 <= command <= 0xFFFFFFFF
  /\ 0 <= Device.sequence st + 1 <= 0xFFFFFFFF
  /\ blen payload + 8 <= 0xFFFFFFFF.
Proof.
  unfold Device.buildPacket. cbn [fst Device.sequence Device.set_sequence].
  unfold writeUInt32BE.
  destruct ((0 <=? command) && (command <=? 0xFFFFFFFF)) eqn:Hc; [|discriminate].
  destruct ((0 <=? Device.sequence st + 1) && (Device.sequence st + 1 <=? 0xFFFFFFFF))
    eqn:Hs; [|discriminate].
  destruct ((0 <=? blen payload + 8) && (blen payload + 8 <=? 0xFFFFFFFF))
    eqn:Hl; [|discriminate].
  intros _.
  apply andb_true_iff in Hc as [Hc1 Hc2]. apply andb_true_iff in Hs as [Hs1 Hs2].
  apply andb_true_iff in Hl as [Hl1 Hl2]. lia.
Qed.

(** What the control parser reads from any packet of [buildPacket]: the
    sequence number as the command, the length as the sequence number. *)
Lemma parse_chunk_of_buildPacket command payload st packet c s e :
  (Device.buildPacket command payload st).1 = Ok packet ->
  Device.parse_chunk packet = Ok (Some (c, s, e)) ->
  c = Device.sequence st + 1 /\ s = blen payload + 8.
Proof.
  intros Hb Hp.
  destruct (buildPacket_ranges _ _ _ _ Hb) as (Hc & Hs & Hl).
  destruct (Device_state_facts.buildPacket_inside command payload st Hc Hs Hl)
    as (crc & _ & _ & Hbp).
  rewrite Hbp in Hb. cbn [fst] in Hb.
  assert (packet = (magic_header ++ uint32BE command ++ uint32BE (Device.sequence st + 1)
                    ++ uint32BE (blen payload + 8) ++ payload) ++ crc ++ magic_footer)
    as -> by congruence.
  clear Hb Hbp. unfold Device.parse_chunk in Hp.
  destruct (_ || _); [discriminate|].
  rewrite Device_state_facts.packet_sequence_field in Hp by lia.
  assert (readUInt32BE
            ((magic_header ++ uint32BE command ++ uint32BE (Device.sequence st + 1)
              ++ uint32BE (blen payload + 8) ++ payload) ++ crc ++ magic_footer) 12
          = Ok (blen payload + 8)) as E.
  { rewrite <- !app_assoc.
    rewrite (app_assoc magic_header), (app_assoc (magic_header ++ _)).
    apply Buffer_facts.readUInt32BE_field;
      [pose proof (Buffer_facts.blen_nonneg payload); lia | reflexivity]. }
  rewrite E in Hp. cbn [mbind result_bind] in Hp.
  destruct (readUInt32BE _ 16) as [len|]; [|discriminate]. cbn [mbind result_bind] in Hp.
  destruct (_ <? _); [discriminate|].
  split; congruence.
Qed.

(** C1, the code's miss.  [buildPacket] writes the command at offset 4, the
    sequence number at offset 8 and the length at offset 12; [handleData]
    reads command, sequence number and length at offsets 8, 12 and 16.
    The first command of a connection, code 10, with a 16-byte payload
    that begins 00 00 00 08, comes back from the control parser as
    command 1, sequence 24, with an empty payload. *)
Theorem control_parser_misreads_built_packet :
  match (Device.buildPacket 10 payload16 camera).1 with
  | Ok packet =>
      readUInt32BE packet 4 = Ok 10
      /\ readUInt32BE packet 8 = Ok 1
      /\ readUInt32BE packet 12 = Ok 24
      /\ slice packet 16 32 = payload16
      /\ Device.parse_chunk packet = Ok (Some (1, 24, []))
  | Throw _ => False
  end.
Proof. vm_compute. repeat split; reflexivity. Qed.

(** The same packet with the encrypted status query as its payload: the
    parser takes the first four ciphertext bytes for the length and drops
    the chunk as incomplete. *)
Example control_parser_drops_built_status_query :
  match Cipher.aes_128_ecb_encrypt key16
          (Device.command_bytes 1700000000000 status_query camera) with
  | Ok encrypted =>
      match (Device.buildPacket 10 encrypted camera).1 with
      | Ok packet => Device.parse_chunk packet = Ok None
      | Throw _ => False
      end
  | Throw _ => False
  end.
Proof. vm_compute. reflexivity. Qed.

(** C2, the code's miss.  Twenty bytes whose only magic header sits at
    offset 16: the scan cuts the buffer down to the four header bytes and
    goes on to read the command word at offset 8 of them, which throws. *)
Theorem stream_scan_throws_after_resync :
  Stream.handleStreamData late_header decoder
  = Some (Stream.Outcome (Stream.set_frameBuffer magic_header decoder) []
                         (Some RangeError)).
Proof. vm_compute. reflexivity. Qed.

(** Garbage without any magic header is dropped whole, and garbage in
    front of a whole frame is skipped: one packet, nothing left. *)
Example stream_scan_drops_garbage :
  Stream.handleStreamData (replicate 25 xff) decoder
  = Some (Stream.Outcome decoder [] None).
Proof. vm_compute. reflexivity. Qed.

Example stream_scan_resyncs_to_frame :
  exists st',
    Stream.handleStreamData (replicate 7 xff ++ parser_frame) decoder
    = Some (Stream.Outcome st' [(0xD1, parser_frame)] None)
    /\ Stream.frameBuffer st' = []
    /\ Stream.outputs st'
       = [Stream.EmitVideoData [x01; x02; x03; x04; x05; x06; x07; x08]].
Proof. eexists. vm_compute. repeat split; reflexivity. Qed.

(** C5, as stated, fails.  On the control connection the packet built for
    command 10 is parsed when it arrives whole, and is lost when it
    arrives as its first 10 bytes followed by the rest: both chunks are
    dropped and nothing is kept.  On the stream connection the packet
    built for a stream-data command with a payload beginning 00 00 00 00
    yields a packet from its first 20 bytes, before the rest has
    arrived. *)
Lemma split_frame_counterexample :
  match (Device.buildPacket 10 payload16 camera).1,
        Stream.buildPacket 1 Stream.CMD_STREAM_DATA zero16 with
  | Ok packet, Ok stream_packet =>
      Device.parse_chunk packet = Ok (Some (1, 24, []))
      /\ Device.parse_chunk (take 10 packet) = Ok None
      /\ Device.parse_chunk (drop 10 packet) = Ok None
      /\ Device.parse_chunk (drop 10 packet) <> Device.parse_chunk packet
      /\ (Device.handleData 0 (drop 10 packet) (Device.handleData 0 (take 10 packet) camera).2).2
         = camera
      /\ length stream_packet = 40%nat
      /\ Wording.feed [take 20 stream_packet] decoder
         = Some (Stream.Outcome decoder [(1, take 20 stream_packet)] None)
  | _, _ => False
  end.
Proof. vm_compute. repeat split; try reflexivity. discriminate. Qed.

End Codec_facts.

(** ** Scenarios on the executable runtime *)

Module Scenario_facts.
Import Scenario Wording.

Lemma wf_camera : well_formed camera.
Proof.
  apply Device_state_facts.wf_set_connected, Device_state_facts.wf_initial.
Qed.

(** C4, the code's miss.  The status query sent at time 1000 gets no
    response; at time 6000 its timeout has run and the call is rejected
    with [CommandTimeout], yet the listener registered for sequence
    number 1 is still there, and its timer is the only thing removed.  A
    response that arrives later is still handed to that listener. *)
Theorem timeout_leaves_listener_registered :
  let sent := Device.sendCommand 1000 0x0a status_query camera in
  let st2 := Device.advance 6000 sent.2 in
  sent.1 = 0%nat
  /\ Device.promises st2 !! 0%nat = Some (Device.Rejected CommandTimeout)
  /\ Device.timers st2 = []
  /\ Device.listeners st2 !! 1 = Some [Device.Handler 1 0]
  /\ Device.listeners (Device.emit_response 1 VNull st2) !! 1 = None.
Proof.
  intros sent st2.
  destruct (Device_state_facts.timeout_rejects_and_keeps_listener
              camera 1000 0x0a status_query wf_camera) as [Hrejected Hkept];
    [vm_compute; reflexivity|].
  destruct (Device_state_facts.sendCommand_goes_out 1000 0x0a status_query camera)
    as (e & crc & _ & _ & Hs); [vm_compute; reflexivity|].
  change (1000 + 5000) with 6000 in *.
  change (Device.sequence camera + 1) with 1 in *.
  fold sent in Hrejected, Hkept, Hs. fold st2 in Hrejected, Hkept.
  assert (sent.1 = 0%nat) as Hcall by (rewrite Hs; reflexivity).
  rewrite Hcall in *.
  split; [reflexivity|]. split; [exact Hrejected|]. split.
  - subst st2. rewrite Hs. reflexivity.
  - split; [exact Hkept|].
    unfold Device.emit_response. rewrite Hkept.
    cbn [fold_left]. unfold Device.run_handler.
    rewrite Device_state_facts.listeners_settle. apply lookup_delete_eq.
Qed.



(** Witness of C5 as amended: the frame in three pieces. *)
Lemma frame_in_pieces_witness :
  let pieces := [take 7 parser_frame; take 20 (drop 7 parser_frame)] in
  let last := drop 27 parser_frame in
  feed pieces decoder
  = Some (Stream.Outcome (Stream.set_frameBuffer (take 27 parser_frame) decoder) [] None)
  /\ feed (pieces ++ [last]) decoder = feed [parser_frame] decoder.
Proof.
  destruct (Stream_facts.frame_in_pieces decoder parser_frame
              [take 7 parser_frame; take 20 (drop 7 parser_frame)]
              (drop 27 parser_frame))
    as (H1 & H2 & _);
    [reflexivity | reflexivity | reflexivity | discriminate |].
  split; assumption.
Defined.

(** Witness of C7: a short plaintext under the 16-byte key. *)
Lemma decrypt_encrypt_roundtrip_witness :
  exists encrypted,
    Cipher.aes_128_ecb_encrypt key16 (Text.bytes_of_string "motion") = Ok encrypted
    /\ Cipher.aes_128_ecb_decrypt key16 encrypted = Ok (Text.bytes_of_string "motion").
Proof.
  exact (proj1 (Key_facts.decrypt_encrypt_roundtrip
                  key16 (Text.bytes_of_string "motion") eq_refl)).
Defined.

(** Witness of C8: the decoder after its stream request and a call of
    [stop] holds the derived key and decrypts with it; before the
    request it falls back to the local key. *)
Lemma key_of_each_connection_witness :
  let key := MD5.digest (key16 ++ Stream.stream_suffix) in
  let st'' := (Stream.stop 2000 (Stream.sendStreamRequest 1000 decoder).2).2 in
  length key = 16%nat
  /\ Stream.sessionKey st'' = Some key
  /\ (forall data,
        Stream.decryptPayload data st''
        = match Cipher.aes_128_ecb_decrypt key data with
          | Ok plain => plain
          | Throw _ => data
          end)
  /\ Stream.cipher_key decoder = key16.
Proof.
  destruct (Key_facts.key_of_each_connection (H := node_crypto) (H0 := node_text))
    as (_ & _ & Hs & Hb).
  destruct (Hs 1000 decoder) as (Hlen & _ & Hlater).
  destruct (Hlater _ (later_stop _ _ 2000 (later_now _)))
    as (Hkey & _ & _ & Hdec & _).
  destruct (Hb decoder eq_refl) as (Hlocal & _).
  cbv zeta. split; [exact Hlen|]. split; [exact Hkey|]. split; [exact Hdec | exact Hlocal].
Defined.

(** C8, as stated, fails.  A decoder whose socket is set but whose
    stream request has not run yet (the connection is not up) has no
    session key; [stop] then writes a stop packet whose payload is
    encrypted with the local key itself: it decrypts to the stop request
    under the local key, and not under MD5(localKey ++ "stream"). *)
Lemma stop_before_stream_request_counterexample :
  Stream.sessionKey decoder = None
  /\ match Stream.stop 1000 decoder with
     | (Ok _, st) =>
         match Stream.outputs st with
         | [Stream.SocketWrite packet] =>
             let payload := slice packet 16 (blen packet - 8) in
             Cipher.aes_128_ecb_encrypt key16 (Stream.stop_request decoder) = Ok payload
             /\ Cipher.aes_128_ecb_decrypt key16 payload
                = Ok (Stream.stop_request decoder)
             /\ Cipher.aes_128_ecb_encrypt
                  (MD5.digest (key16 ++ Stream.stream_suffix))
                  (Stream.stop_request decoder) <> Ok payload
             /\ Cipher.aes_128_ecb_decrypt
                  (MD5.digest (key16 ++ Stream.stream_suffix)) payload
                <> Ok (Stream.stop_request decoder)
         | _ => False
         end
     | _ => False
     end.
Proof.
  split; [reflexivity|]. vm_compute.
  split; [reflexivity|]. split; [reflexivity|]. split; discriminate.
Qed.

(** The stream request itself does not go out at every time: the
    sequence field is [Date.now() & 0xFFFFFFFF], a signed value, and
    [writeUInt32BE] throws when it is negative. *)
Example stream_request_throws_on_negative_sequence :
  (Stream.sendStreamRequest 1700000000000 decoder).1 = Throw RangeError
  /\ (Stream.sendStreamRequest 1000 decoder).1 = Ok ().
Proof. vm_compute. split; reflexivity. Qed.

(** A status push, from the wire to the motion event: the frame is laid
    out as the parser reads it, command 8 at offset 8. *)
Example motion_push_from_the_wire :
  match Cipher.aes_128_ecb_encrypt key16 (Text.stringify motion_push) with
  | Ok encrypted =>
      let chunk := magic_header ++ uint32BE 0 ++ uint32BE 8 ++ uint32BE 0
                     ++ uint32BE (blen encrypted + 8) ++ encrypted
                     ++ uint32BE 0 ++ magic_footer in
      let st := (Device.handleData 1000 chunk camera).2 in
      Device.outputs st = [Device.EmitMotion true]
      /\ Device.timers st = [motion_clear 0 1000]
      /\ Device.outputs (Device.advance 31000 st)
         = [Device.EmitMotion true; Device.EmitMotion false]
  | Throw _ => False
  end.
Proof. vm_compute. repeat split; reflexivity. Qed.

End Scenario_facts.

(** ** Stream connection: runs of frames, resynchronisation, failures *)

Module Stream_run_facts.
Import Stream Buffer_facts Wording Frames Stream_facts.

Section with_runtime.
Context `{NodeCrypto} `{NodeText}.

Lemma decryptPayload_key data st st' :
  cipher_key st = cipher_key st' -> decryptPayload data st = decryptPayload data st'.
Proof. intros E. unfold decryptPayload. rewrite E. reflexivity. Qed.

(** One turn of the loop on a buffer that begins with a whole frame. *)
Lemma scan_step_frame fuel st seen frame rest :
  stream_frame frame = true ->
  frameBuffer st = frame ++ rest ->
  scan (S fuel) st seen
  = scan fuel
      (State (deviceId st) (localKey st) (sessionKey st) rest
             (outputs st ++ video st frame))
      (seen ++ [tagged frame]).
Proof.
  intros Hf Hbuf.
  destruct (stream_frame_fields frame Hf) as (Hmin & Hmagic & Hl & Hlen & c & Hc).
  cbn [scan]. rewrite Hbuf.
  rewrite blen_app.
  pose proof (blen_nonneg rest) as Hrest.
  destruct (Z.ltb_spec (blen frame + blen rest) 20) as [Hshort|_];
    [unfold blen in *; lia|].
  rewrite starts_with_magic_app by lia. rewrite Hmagic. cbn [negb].
  rewrite Hbuf, !readUInt32BE_app by lia. rewrite Hc, Hl.
  rewrite blen_app.
  destruct (Z.ltb_spec (blen frame + blen rest) (20 + length_field frame)); [lia|].
  rewrite <- Hlen.
  assert (slice (frame ++ rest) 0 (blen frame) = frame) as Hpacket.
  { rewrite slice_prefix by (rewrite blen_app; pose proof (blen_nonneg frame); lia).
    unfold blen. rewrite Nat2Z.id. apply take_app_length. }
  assert (slice_from (frame ++ rest) (blen frame) = rest) as Hafter.
  { rewrite slice_from_inside by (rewrite blen_app; pose proof (blen_nonneg frame); lia).
    unfold blen. rewrite Nat2Z.id. apply drop_app_length. }
  rewrite Hpacket, Hafter.
  unfold video, tagged, command_field, payload. rewrite Hc, Hlen.
  destruct (c =? CMD_STREAM_DATA).
  - rewrite (decryptPayload_key _ (set_frameBuffer rest st) st) by reflexivity.
    reflexivity.
  - rewrite app_nil_r. destruct st; reflexivity.
Qed.

Lemma video_key st st' frame :
  cipher_key st = cipher_key st' -> video st frame = video st' frame.
Proof.
  intros E. unfold video. rewrite (decryptPayload_key _ st st' E). reflexivity.
Qed.

Lemma videos_key st st' frames :
  cipher_key st = cipher_key st' ->
  concat (video st <$> frames) = concat (video st' <$> frames).
Proof.
  intros E. induction frames as [|f frames IH]; [reflexivity|].
  rewrite !fmap_cons. cbn [concat]. rewrite IH, (video_key st st' f E). reflexivity.
Qed.

Lemma frame_not_empty frame : stream_frame frame = true -> (20 <= length frame)%nat.
Proof. intros Hf. apply (stream_frame_fields frame Hf). Qed.

(** The loop on a buffer that is an initial piece of a run of frames:
    the whole frames in it are taken, in order, and what is left is an
    initial piece of the next frame. *)
Lemma scan_run frames :
  Forall (fun f => stream_frame f = true) frames ->
  forall fuel st seen tail,
    frameBuffer st ++ tail = concat frames ->
    (length (frameBuffer st) < fuel)%nat ->
    exists done rest b,
      frames = done ++ rest
      /\ frameBuffer st = concat done ++ b
      /\ (b = [] \/ exists f rest' more, rest = f :: rest' /\ b ++ more = f /\ more <> [])
      /\ scan fuel st seen
         = Some (Outcome
                   (State (deviceId st) (localKey st) (sessionKey st) b
                          (outputs st ++ concat (video st <$> done)))
                   (seen ++ (tagged <$> done)) None).
Proof.
  induction 1 as [|f frames Hf Hfs IH]; intros fuel st seen tail Hcat Hfuel.
  - cbn [concat] in Hcat. apply app_eq_nil in Hcat as [Hb _].
    exists [], [], []. split; [reflexivity|]. split; [exact Hb|].
    split; [left; reflexivity|].
    destruct fuel as [|fuel]; [lia|]. cbn [scan]. rewrite Hb.
    destruct st as [i k s b o]. cbn in Hb. subst b. cbn. rewrite !app_nil_r.
    reflexivity.
  - cbn [concat] in Hcat.
    destruct fuel as [|fuel]; [lia|].
    pose proof (frame_not_empty f Hf) as Hmin.
    assert ((exists k, frameBuffer st = f ++ k /\ concat frames = k ++ tail)
            \/ (exists k, f = frameBuffer st ++ k /\ k <> [])) as [(k & Hb & Hk)|(k & Hb & Hk)].
    { apply app_eq_inv in Hcat as [(k & Hb & Hk)|(k & Hb & Hk)].
      - left. exists k. split; assumption.
      - destruct k as [|x k].
        + left. exists []. rewrite app_nil_r in Hb. cbn [app] in Hk.
          split; [rewrite app_nil_r; symmetry; exact Hb | symmetry; exact Hk].
        + right. exists (x :: k). split; [exact Hb | discriminate]. }
    + rewrite (scan_step_frame fuel st seen f k Hf Hb).
      destruct (IH fuel (State (deviceId st) (localKey st) (sessionKey st) k
                               (outputs st ++ video st f))
                   (seen ++ [tagged f]) tail)
        as (done & rest & b & Hsplit & Hdone & Hwait & Hscan).
      { fields. symmetry. exact Hk. }
      { fields. rewrite Hb, length_app in Hfuel. lia. }
      fields. exists (f :: done), rest, b.
      split; [rewrite Hsplit; reflexivity|].
      split; [rewrite Hb, Hdone; cbn [concat]; rewrite app_assoc; reflexivity|].
      split; [exact Hwait|].
      rewrite Hscan. rewrite !fmap_cons. cbn [concat].
      rewrite <- !app_assoc. cbn [app].
      rewrite (videos_key _ st done) by reflexivity. reflexivity.
    + exists [], (f :: frames), (frameBuffer st).
      split; [reflexivity|]. split; [reflexivity|].
      split; [right; exists f, frames, k; repeat split; [symmetry; exact Hb | exact Hk]|].
      rewrite (scan_waits fuel st seen f k Hf (eq_sym Hb) Hk).
      destruct st. cbn. rewrite !app_nil_r. reflexivity.
Qed.

Lemma feed_run chunks :
  forall frames st,
    Forall (fun f => stream_frame f = true) frames ->
    (frameBuffer st = []
     \/ exists f rest' more,
          frames = f :: rest' /\ frameBuffer st ++ more = f /\ more <> []) ->
    frameBuffer st ++ concat chunks = concat frames ->
    feed chunks st
    = Some (Outcome
              (State (deviceId st) (localKey st) (sessionKey st) []
                     (outputs st ++ concat (video st <$> frames)))
              (tagged <$> frames) None).
Proof.
  induction chunks as [|c chunks IH]; intros frames st Hfs Hwait Hcat.
  - cbn [concat] in Hcat. rewrite app_nil_r in Hcat.
    assert (frames = [] /\ frameBuffer st = []) as [-> Hb].
    { destruct Hwait as [Hb|(f & rest' & more & -> & Hmore & Hne)].
      - split; [|exact Hb]. rewrite Hb in Hcat.
        destruct frames as [|f frames]; [reflexivity|].
        apply Forall_cons in Hfs as [Hf _]. pose proof (frame_not_empty f Hf).
        cbn [concat] in Hcat. destruct f; [cbn in *; lia | discriminate].
      - exfalso. cbn [concat] in Hcat. rewrite <- Hmore in Hcat.
        apply (f_equal length) in Hcat. rewrite !length_app in Hcat.
        destruct more; [contradiction | cbn in Hcat; lia]. }
    cbn [feed]. destruct st as [i k s b o]. cbn in Hb. subst b. cbn.
    rewrite app_nil_r. reflexivity.
  - cbn [concat] in Hcat. cbn [feed]. unfold handleStreamData.
    destruct (scan_run frames Hfs (S (length (frameBuffer (set_frameBuffer (frameBuffer st ++ c) st))))
                (set_frameBuffer (frameBuffer st ++ c) st) [] (concat chunks))
      as (done & rest & b & Hsplit & Hdone & Hb & Hscan).
    { fields. rewrite <- app_assoc. exact Hcat. }
    { lia. }
    rewrite Hscan. fields.
    assert (Forall (fun f => stream_frame f = true) rest) as Hrest
      by (rewrite Hsplit in Hfs; apply Forall_app in Hfs as [_ Hr]; exact Hr).
    rewrite (IH rest _ Hrest); fields.
    + rewrite Hsplit, !fmap_app, concat_app, <- !app_assoc.
      cbn [app]. rewrite (videos_key _ st rest) by reflexivity. reflexivity.
    + exact Hb.
    + rewrite Hsplit, concat_app in Hcat. rewrite app_assoc, Hdone, <- app_assoc in Hcat.
      apply app_inv_head in Hcat. exact Hcat.
Qed.

(** *** Resynchronisation *)

Lemma indexOf_at_spec needle hay base :
  (indexOf_at needle hay base = -1
   /\ forall j, (j < length hay)%nat -> ~ occurs_at needle hay j)
  \/ exists j : nat,
       indexOf_at needle hay base = base + Z.of_nat j
       /\ (j < length hay)%nat
       /\ occurs_at needle hay j
       /\ forall j', (j' < j)%nat -> ~ occurs_at needle hay j'.
Proof.
  revert base. induction hay as [|x hay IH]; intros base.
  - left. split; [reflexivity|]. intros j Hj. cbn in Hj. lia.
  - cbn [indexOf_at].
    destruct (decide (take (length needle) (x :: hay) = needle)) as [Hhere|Hhere].
    + rewrite bool_decide_eq_true_2 by exact Hhere.
      right. exists 0%nat. split; [lia|]. split; [cbn; lia|].
      split; [exact Hhere|]. intros j' Hj'. lia.
    + rewrite bool_decide_eq_false_2 by exact Hhere.
      destruct (IH (base + 1)) as [[-> Hnone]|(j & -> & Hj & Hocc & Hmin)].
      * left. split; [reflexivity|]. intros [|j] Hj; [exact Hhere|].
        apply (Hnone j). cbn in Hj. lia.
      * right. exists (S j). split; [lia|]. split; [cbn; lia|].
        split; [exact Hocc|]. intros [|j'] Hj'; [exact Hhere|].
        apply (Hmin j'). lia.
Qed.

Lemma indexOf_spec buf needle from :
  (indexOf buf needle from = -1
   /\ forall j, (from <= j < length buf)%nat -> ~ occurs_at needle buf j)
  \/ exists j : nat,
       indexOf buf needle from = Z.of_nat j
       /\ (from <= j < length buf)%nat
       /\ occurs_at needle buf j
       /\ forall j', (from <= j' < j)%nat -> ~ occurs_at needle buf j'.
Proof.
  unfold indexOf.
  assert (forall j, occurs_at needle (drop from buf) j <-> occurs_at needle buf (from + j))
    as Hshift.
  { intros j. unfold occurs_at. rewrite drop_drop. reflexivity. }
  destruct (indexOf_at_spec needle (drop from buf) (Z.of_nat from))
    as [[-> Hnone]|(j & -> & Hj & Hocc & Hmin)].
  - left. split; [reflexivity|]. intros j Hj Hocc.
    apply (Hnone (j - from)%nat); [rewrite length_drop; lia|].
    apply Hshift. replace (from + (j - from))%nat with j by lia. exact Hocc.
  - right. rewrite length_drop in Hj. exists (from + j)%nat.
    split; [lia|]. split; [lia|]. split; [apply Hshift, Hocc|].
    intros j' Hj' Hocc'. apply (Hmin (j' - from)%nat); [lia|].
    apply Hshift. replace (from + (j' - from))%nat with j' by lia. exact Hocc'.
Qed.

Lemma starts_with_magic_occurs buf :
  starts_with_magic buf = true <-> occurs_at magic_header buf 0.
Proof.
  unfold starts_with_magic, occurs_at. cbn [drop length magic_header].
  apply bool_decide_eq_true.
Qed.

(** One turn of the loop that skips to a later magic header with 20
    bytes or more behind it goes on as a turn on what is left. *)
Lemma scan_resync fuel st seen (j : nat) :
  20 <= blen (frameBuffer st) ->
  starts_with_magic (frameBuffer st) = false ->
  indexOf (frameBuffer st) magic_header 1 = Z.of_nat j ->
  (0 < j <= length (frameBuffer st))%nat ->
  occurs_at magic_header (frameBuffer st) j ->
  20 <= blen (drop j (frameBuffer st)) ->
  scan (S fuel) st seen = scan (S fuel) (set_frameBuffer (drop j (frameBuffer st)) st) seen.
Proof.
  intros Hlong Hstart Hidx Hj Hocc Hleft.
  assert (slice_from (frameBuffer st) (Z.of_nat j) = drop j (frameBuffer st)) as Hslice.
  { rewrite slice_from_inside by (unfold blen; lia). rewrite Nat2Z.id. reflexivity. }
  assert (starts_with_magic (drop j (frameBuffer st)) = true) as Hmagic.
  { apply starts_with_magic_occurs. unfold occurs_at in *. cbn [drop]. exact Hocc. }
  cbn [scan]. fields.
  destruct (Z.ltb_spec (blen (frameBuffer st)) 20); [lia|].
  destruct (Z.ltb_spec (blen (drop j (frameBuffer st))) 20); [lia|].
  rewrite Hstart, Hmagic, Hidx. cbn [negb].
  destruct (Z.ltb_spec 0 (Z.of_nat j)); [|lia].
  rewrite Hslice. reflexivity.
Qed.

(** A buffer that holds one whole frame and nothing else. *)
Lemma scan_one_frame fuel st seen frame :
  stream_frame frame = true ->
  frameBuffer st = frame ->
  scan (S (S fuel)) st seen
  = Some (Outcome (drained [frame] st) (seen ++ [tagged frame]) None).
Proof.
  intros Hf Hbuf.
  rewrite (scan_step_frame (S fuel) st seen frame [] Hf)
    by (rewrite app_nil_r; exact Hbuf).
  cbn [scan]. fields. unfold drained. rewrite fmap_cons. cbn. rewrite app_nil_r.
  reflexivity.
Qed.

(** What the scanner does with bytes that are no frame.  A buffer of 20
    bytes or more in which the magic header occurs nowhere is dropped
    whole, its last bytes included, so the first bytes of a header that
    the chunk boundary cut off are lost with it.  Bytes without a magic
    header in front of a whole frame are skipped, and the frame is taken:
    one packet, one event for a stream-data frame, an empty buffer. *)
Theorem stream_resynchronisation st :
  frameBuffer st = [] ->
  (forall data,
      20 <= blen data ->
      (forall j, (j < length data)%nat -> ~ occurs_at magic_header data j) ->
      handleStreamData data st = Some (Outcome st [] None))
  /\ (forall garbage frame,
        stream_frame frame = true ->
        (forall j, (j < length garbage)%nat ->
                   ~ occurs_at magic_header (garbage ++ frame) j) ->
        handleStreamData (garbage ++ frame) st
        = Some (Outcome (drained [frame] st) [tagged frame] None)).
Proof.
  intros Hempty. split.
  - intros data Hlong Hnone. unfold handleStreamData. rewrite Hempty. cbn [app].
    cbn [scan]. fields.
    destruct (Z.ltb_spec (blen data) 20); [lia|].
    assert (starts_with_magic data = false) as ->.
    { apply not_true_is_false. intros Hs. apply starts_with_magic_occurs in Hs.
      apply (Hnone 0%nat); [unfold blen in Hlong; lia | exact Hs]. }
    cbn [negb].
    destruct (indexOf_spec data magic_header 1) as [[-> _]|(j & _ & Hj & Hocc & _)].
    + cbn. destruct st as [i k s b o]. cbn in Hempty. subst b. reflexivity.
    + exfalso. apply (Hnone j); [lia | exact Hocc].
  - intros garbage frame Hf Hnone. unfold handleStreamData. rewrite Hempty. cbn [app].
    pose proof (frame_not_empty frame Hf) as Hmin. fields.
    assert (starts_with_magic frame = true) as Hmagic
      by apply (stream_frame_fields frame Hf).
    destruct garbage as [|g garbage].
    + cbn [app]. destruct (length frame) as [|n] eqn:Hn; [lia|].
      rewrite (scan_one_frame n (set_frameBuffer frame st) [] frame Hf eq_refl).
      unfold drained. fields. rewrite (videos_key _ st) by reflexivity. reflexivity.
    + set (buf := (g :: garbage) ++ frame) in *.
      assert (length buf = (length (g :: garbage) + length frame)%nat) as Hlen
        by (unfold buf; apply length_app).
      assert (occurs_at magic_header buf (length (g :: garbage))) as Hocc.
      { unfold occurs_at, buf. rewrite drop_app_length.
        apply starts_with_magic_occurs in Hmagic. exact Hmagic. }
      assert (indexOf buf magic_header 1 = Z.of_nat (length (g :: garbage))) as Hidx.
      { destruct (indexOf_spec buf magic_header 1)
          as [[_ Hno]|(j & -> & Hj & Hoccj & Hminj)].
        - exfalso. apply (Hno (length (g :: garbage))); [cbn [length] in *; lia | exact Hocc].
        - f_equal. destruct (Nat.lt_trichotomy j (length (g :: garbage))) as [Hlt|[->|Hgt]].
          + exfalso. apply (Hnone j Hlt). exact Hoccj.
          + reflexivity.
          + exfalso. apply (Hminj (length (g :: garbage))); [cbn [length] in *; lia|].
            exact Hocc. }
      assert (drop (length (g :: garbage)) buf = frame) as Hdrop
        by (unfold buf; apply drop_app_length).
      assert (starts_with_magic buf = false) as Hstart.
      { apply not_true_is_false. intros Hs. apply starts_with_magic_occurs in Hs.
        apply (Hnone 0%nat); [cbn; lia | exact Hs]. }
      rewrite (scan_resync _ (set_frameBuffer buf st) [] (length (g :: garbage)));
        fields; try assumption.
      * rewrite Hdrop.
        destruct (length buf) as [|n] eqn:Hn; [cbn [length] in *; lia|].
        rewrite (scan_one_frame n (set_frameBuffer frame (set_frameBuffer buf st)) []
                   frame Hf eq_refl).
        unfold drained. fields. rewrite (videos_key _ st) by reflexivity. reflexivity.
      * unfold blen. lia.
      * cbn [length] in *. lia.
      * rewrite Hdrop. unfold blen. lia.
Qed.

Lemma readUInt32BE_throws buf off e :
  readUInt32BE buf off = Throw e -> e = RangeError /\ (length buf < off + 4)%nat.
Proof.
  intros Hr. destruct (Nat.le_gt_cases (off + 4) (length buf)) as [Hin|Hout].
  - destruct (readUInt32BE_inside buf off Hin) as (v & Hv & _). congruence.
  - rewrite (readUInt32BE_outside buf off) in Hr by lia.
    split; [congruence | lia].
Qed.

Lemma scan_throws fuel st seen out e :
  scan fuel st seen = Some out -> thrown out = Some e ->
  e = RangeError
  /\ starts_with_magic (frameBuffer (final out)) = true
  /\ blen (frameBuffer (final out)) < 20.
Proof.
  revert st seen. induction fuel as [|fuel IH]; intros st seen Hs He; [discriminate|].
  cbn [scan] in Hs.
  destruct (Z.ltb_spec (blen (frameBuffer st)) 20) as [|Hlong];
    [injection Hs as <-; discriminate|].
  destruct (starts_with_magic (frameBuffer st)) eqn:Hstart; cbn [negb] in Hs.
  - unfold blen in Hlong.
    destruct (readUInt32BE_inside (frameBuffer st) 8 ltac:(lia)) as (c & Hc & _).
    destruct (readUInt32BE_inside (frameBuffer st) 16 ltac:(lia)) as (l & Hl & _).
    rewrite Hc, Hl in Hs.
    destruct (blen (frameBuffer st) <? 20 + l); [injection Hs as <-; discriminate|].
    apply (IH _ _ Hs He).
  - destruct (indexOf_spec (frameBuffer st) magic_header 1)
      as [[Hidx _]|(j & Hidx & Hj & Hocc & _)]; rewrite Hidx in Hs.
    + cbn in Hs. injection Hs as <-. discriminate.
    + destruct (Z.ltb_spec 0 (Z.of_nat j)); [|lia].
      rewrite slice_from_inside in Hs by (unfold blen; lia).
      rewrite Nat2Z.id in Hs. fields.
      assert (starts_with_magic (drop j (frameBuffer st)) = true) as Hmagic.
      { apply starts_with_magic_occurs. unfold occurs_at in *. cbn [drop]. exact Hocc. }
      destruct (readUInt32BE (drop j (frameBuffer st)) 8) as [c|e'] eqn:Hc.
      * destruct (readUInt32BE (drop j (frameBuffer st)) 16) as [l|e''] eqn:Hl.
        -- destruct (blen (drop j (frameBuffer st)) <? 20 + l);
             [injection Hs as <-; discriminate|].
           apply (IH _ _ Hs He).
        -- injection Hs as <-. cbn in He. injection He as <-.
           apply readUInt32BE_throws in Hl as [-> Hshort].
           split; [reflexivity|]. split; [exact Hmagic|]. cbn. unfold blen. lia.
      * injection Hs as <-. cbn in He. injection He as <-.
        apply readUInt32BE_throws in Hc as [-> Hshort].
        split; [reflexivity|]. split; [exact Hmagic|]. cbn. unfold blen. lia.
Qed.

(** The one way [handleStreamData] throws: a [RangeError] from the header
    reads of the turn that has just skipped to a later magic header with
    fewer than 20 bytes behind it.  The buffer is then left beginning with
    that header, so the bytes that follow in the next chunk continue the
    frame. *)
Theorem stream_scan_throws_only_after_resync data st out e :
  handleStreamData data st = Some out ->
  thrown out = Some e ->
  e = RangeError
  /\ starts_with_magic (frameBuffer (final out)) = true
  /\ blen (frameBuffer (final out)) < 20.
Proof. unfold handleStreamData. apply scan_throws. Qed.

(** A stream-data frame whose payload cannot be decrypted under the key
    in use (the key is not 16 bytes long, or the payload is empty or not
    a whole number of 16-byte blocks) is not dropped: its payload bytes
    are emitted as they came. *)
Theorem undecryptable_video_is_passed_on st frame :
  frameBuffer st = [] ->
  stream_frame frame = true ->
  command_field frame = CMD_STREAM_DATA ->
  length (cipher_key st) <> 16%nat
  \/ payload frame = []
  \/ (length (payload frame) mod 16 <> 0)%nat ->
  handleStreamData frame st
  = Some (Outcome
            (State (deviceId st) (localKey st) (sessionKey st) []
                   (outputs st ++ [EmitVideoData (payload frame)]))
            [tagged frame] None).
Proof.
  intros Hempty Hf Hcmd Hbad.
  pose proof (frame_not_empty frame Hf) as Hmin.
  assert (decryptPayload (payload frame) st = payload frame) as Hraw.
  { unfold decryptPayload, Cipher.aes_128_ecb_decrypt.
    destruct (decide (length (cipher_key st) = 16%nat)) as [Hkey|Hkey];
      [|rewrite bool_decide_eq_false_2 by exact Hkey; reflexivity].
    rewrite bool_decide_eq_true_2 by exact Hkey.
    destruct Hbad as [Hbad|[Hbad|Hbad]]; [contradiction | |].
    - rewrite bool_decide_eq_true_2 by exact Hbad. reflexivity.
    - rewrite (bool_decide_eq_false_2 (_ mod 16 = 0)%nat) by exact Hbad.
      rewrite orb_true_r. reflexivity. }
  unfold handleStreamData. rewrite Hempty. cbn [app]. fields.
  destruct (length frame) as [|n] eqn:Hn; [lia|].
  rewrite (scan_one_frame n (set_frameBuffer frame st) [] frame Hf eq_refl).
  unfold drained. fields. rewrite (videos_key _ st) by reflexivity.
  rewrite fmap_cons. cbn [fmap list_fmap concat]. rewrite app_nil_r.
  unfold video. rewrite Hcmd, Z.eqb_refl, Hraw. reflexivity.
Qed.

(** A run of frames, each beginning with the magic header and as long as
    its length field says, fed into an empty frame buffer in chunks cut
    at any byte boundaries: every frame is reported once, whole and in
    order, none is lost or doubled, nothing throws, each stream-data
    frame gives one ['videoData'] event and the buffer ends empty. *)
Theorem frames_in_any_chunks st frames chunks :
  frameBuffer st = [] ->
  Forall (fun f => stream_frame f = true) frames ->
  concat chunks = concat frames ->
  feed chunks st = Some (Outcome (drained frames st) (tagged <$> frames) None).
Proof.
  intros Hempty Hfs Hcat. unfold drained.
  apply feed_run; [exact Hfs | left; exact Hempty | rewrite Hempty; exact Hcat].
Qed.

End with_runtime.

(** *** The sequence word of a stream packet *)

Lemma ToInt32_range z : - 2 ^ 31 <= JS.ToInt32 z < 2 ^ 31.
Proof.
  unfold JS.ToInt32. pose proof (Z.mod_pos_bound (z + 2 ^ 31) (2 ^ 32) eq_refl). lia.
Qed.

(** [x & 0xFFFFFFFF] is [x] as a signed 32-bit integer. *)
Lemma and_all_ones x : JS.and x 0xFFFFFFFF = JS.ToInt32 x.
Proof.
  unfold JS.and. change (JS.ToInt32 0xFFFFFFFF) with (-1). rewrite Z.land_m1_r.
  apply ToInt32_small, ToInt32_range.
Qed.

Lemma ToInt32_sign z : (JS.ToInt32 z <? 0) = Z.testbit z 31.
Proof.
  rewrite <- (ToInt32_testbit z 31) by lia.
  pose proof (ToInt32_range z) as Hr. set (x := JS.ToInt32 z) in *. clearbody x.
  destruct (Z.ltb_spec x 0) as [Hneg|Hpos]; symmetry.
  - apply Z.testbit_true; [lia|].
    change (2 ^ 31) with 2147483648 in *. Z.div_mod_to_equations. lia.
  - apply Z.testbit_false; [lia|].
    change (2 ^ 31) with 2147483648 in *. Z.div_mod_to_equations. lia.
Qed.

Lemma ToInt32_clear z : Z.testbit z 31 = false -> JS.ToInt32 z = z mod 2 ^ 32.
Proof.
  intros Hbit. rewrite <- ToInt32_sign in Hbit. apply Z.ltb_ge in Hbit.
  pose proof (ToInt32_range z) as Hr.
  change (z mod 2 ^ 32) with (JS.ToUint32 z).
  rewrite <- ToUint32_ToInt32. symmetry. apply ToUint32_small.
  change (2 ^ 32) with (2 * 2 ^ 31). lia.
Qed.

Section with_laws.
Context `{NodeCrypto} {laws : NodeCryptoLaws _} `{NodeText}.

(** The sequence word of a stream packet is [Date.now() & 0xFFFFFFFF], a
    signed value.  At a time whose bit 31 is set it is negative:
    [buildPacket] throws a [RangeError] whatever the command and payload,
    and the stream request throws with nothing written, the session key
    already replaced.  At a time whose bit 31 is clear the packet is
    built, and holds the low 32 bits of the time at offset 8. *)
Theorem stream_sequence_word_is_signed now :
  (Z.testbit now 31 = true ->
   (forall command payload, buildPacket now command payload = Throw RangeError)
   /\ forall st,
        (sendStreamRequest now st).1 = Throw RangeError
        /\ outputs (sendStreamRequest now st).2 = outputs st
        /\ sessionKey (sendStreamRequest now st).2
           = Some (md5_digest (localKey st ++ stream_suffix)))
  /\ (Z.testbit now 31 = false ->
      forall command payload,
        0 <= command <= 0xFFFFFFFF -> blen payload + 8 <= 0xFFFFFFFF ->
        exists packet,
          buildPacket now command payload = Ok packet
          /\ readUInt32BE packet 8 = Ok (now mod 2 ^ 32)).
Proof.
  split.
  - intros Hbit.
    assert (forall command payload, buildPacket now command payload = Throw RangeError)
      as Hthrow.
    { intros command payload. unfold buildPacket.
      destruct (writeUInt32BE command) as [cmd|e] eqn:Hcmd.
      - cbn [mbind result_bind]. rewrite and_all_ones.
        rewrite <- ToInt32_sign in Hbit. apply Z.ltb_lt in Hbit.
        assert (writeUInt32BE (JS.ToInt32 now) = Throw RangeError) as ->; [|reflexivity].
        unfold writeUInt32BE. destruct (Z.leb_spec 0 (JS.ToInt32 now)); [lia|].
        reflexivity.
      - cbn [mbind result_bind]. unfold writeUInt32BE in Hcmd.
        destruct (_ && _); [discriminate|]. congruence. }
    split; [exact Hthrow|]. intros st.
    unfold sendStreamRequest, encryptPayload.
    cbn [cipher_key set_sessionKey sessionKey].
    pose proof (md5_digest_length (localKey st ++ stream_suffix)) as Hkey.
    destruct (Cipher_facts.aes_128_ecb_roundtrip _ (stream_request now st) Hkey)
      as (encrypted & -> & _).
    rewrite Hthrow. repeat split.
  - intros Hbit command payload Hc Hl. unfold buildPacket.
    pose proof (blen_nonneg payload) as Hp.
    pose proof (Z.mod_pos_bound now (2 ^ 32) eq_refl) as Hm.
    rewrite and_all_ones, (ToInt32_clear now Hbit).
    set (seq := now mod 2 ^ 32) in *. clearbody seq.
    change (2 ^ 32) with 4294967296 in Hm.
    rewrite (Device_state_facts.writeUInt32BE_inside command) by lia.
    cbn [mbind result_bind].
    rewrite (Device_state_facts.writeUInt32BE_inside seq) by lia.
    cbn [mbind result_bind].
    rewrite (Device_state_facts.writeUInt32BE_inside (blen payload + 8)) by lia.
    cbn [mbind result_bind]. rewrite CRC_facts.calculateCRC32_ref.
    cbn [mbind result_bind]. eexists. split; [reflexivity|].
    apply Device_state_facts.packet_sequence_field. lia.
Qed.

End with_laws.

End Stream_run_facts.

(** ** The packet encoders *)

Module Packet_facts.
Import Buffer_facts.

Lemma crc32_iso_hdlc_range data : 0 <= CRC.crc32_iso_hdlc data < 2 ^ 32.
Proof.
  unfold CRC.crc32_iso_hdlc.
  rewrite <- (CRC_facts.fold_crc_byte_ref data 0xFFFFFFFF
              : _ = fold_left CRC.ref_byte data 0xFFFFFFFF).
  rewrite <- ToUint32_not. apply ToUint32_range.
Qed.

(** The bytes of a packet, field by field. *)
Lemma packet_fields command seq payload (crc : Buffer) :
  0 <= command <= 0xFFFFFFFF -> 0 <= seq <= 0xFFFFFFFF ->
  blen payload + 8 <= 0xFFFFFFFF -> length crc = 4%nat ->
  let packet := (magic_header ++ uint32BE command ++ uint32BE seq
                 ++ uint32BE (blen payload + 8) ++ payload)
                ++ crc ++ magic_footer in
  blen packet = blen payload + 24
  /\ slice packet 0 4 = magic_header
  /\ readUInt32BE packet 4 = Ok command
  /\ readUInt32BE packet 8 = Ok seq
  /\ readUInt32BE packet 12 = Ok (blen payload + 8)
  /\ slice packet 16 (16 + blen payload) = payload
  /\ take (16 + length payload) packet
     = magic_header ++ uint32BE command ++ uint32BE seq
       ++ uint32BE (blen payload + 8) ++ payload
  /\ slice_from packet (20 + blen payload) = magic_footer.
Proof.
  intros Hc Hs Hl Hcrc packet.
  pose proof (blen_nonneg payload) as Hp.
  assert (blen packet = blen payload + 24) as Hlen.
  { unfold packet, blen. rewrite !length_app, !uint32BE_length, Hcrc.
    cbn [length magic_header magic_footer]. lia. }
  split; [exact Hlen|].
  split.
  { rewrite slice_prefix by lia. reflexivity. }
  split.
  { unfold packet. rewrite <- !app_assoc.
    apply (readUInt32BE_field magic_header); [exact Hc | reflexivity]. }
  split.
  { unfold packet. rewrite <- !app_assoc. rewrite (app_assoc magic_header).
    apply readUInt32BE_field; [exact Hs | reflexivity]. }
  split.
  { unfold packet. rewrite <- !app_assoc.
    rewrite (app_assoc magic_header), (app_assoc (magic_header ++ _)).
    apply readUInt32BE_field; [lia | reflexivity]. }
  split.
  { rewrite slice_inside by lia.
    replace (Z.to_nat (16 + blen payload - 16)) with (length payload)
      by (unfold blen; lia).
    change (Z.to_nat 16) with 16%nat.
    unfold packet. rewrite <- !app_assoc.
    change (drop 16 (magic_header ++ uint32BE command ++ uint32BE seq
                     ++ uint32BE (blen payload + 8) ++ payload
                     ++ crc ++ magic_footer))
      with (payload ++ crc ++ magic_footer).
    apply take_app_length. }
  split.
  { unfold packet. apply take_app_length'.
    rewrite !length_app, !uint32BE_length. reflexivity. }
  rewrite slice_from_inside by lia.
  replace (Z.to_nat (20 + blen payload)) with (20 + length payload)%nat
    by (unfold blen; lia).
  unfold packet. rewrite <- !app_assoc.
  change (drop (20 + length payload)
            (magic_header ++ uint32BE command ++ uint32BE seq
             ++ uint32BE (blen payload + 8) ++ payload ++ crc ++ magic_footer))
    with (drop (4 + length payload) (payload ++ crc ++ magic_footer)).
  rewrite drop_app_ge by lia.
  replace (4 + length payload - length payload)%nat with 4%nat by lia.
  apply drop_app_length'. symmetry. exact Hcrc.
Qed.

(** Every packet [buildPacket] gives, read at the offsets the encoder
    wrote: the magic header, the command at 4, the sequence number
    (the counter after its increment) at 8, the payload length plus 8 at
    12, the payload from 16, behind it the CRC-32/ISO-HDLC of all the
    bytes before it, and the magic footer; 24 bytes more than the
    payload. *)
Theorem built_packet_layout command payload st packet :
  (Device.buildPacket command payload st).1 = Ok packet ->
  blen packet = blen payload + 24
  /\ slice packet 0 4 = magic_header
  /\ readUInt32BE packet 4 = Ok command
  /\ readUInt32BE packet 8 = Ok (Device.sequence st + 1)
  /\ readUInt32BE packet 12 = Ok (blen payload + 8)
  /\ slice packet 16 (16 + blen payload) = payload
  /\ readUInt32BE packet (16 + length payload)
     = Ok (CRC.crc32_iso_hdlc (take (16 + length payload) packet))
  /\ slice_from packet (20 + blen payload) = magic_footer.
Proof.
  intros Hb.
  destruct (Codec_facts.buildPacket_ranges _ _ _ _ Hb) as (Hc & Hs & Hl).
  destruct (Device_state_facts.buildPacket_inside command payload st Hc Hs Hl)
    as (crc & Hcrc & _ & Hbp).
  rewrite Hbp in Hb. cbn [fst] in Hb. clear Hbp.
  set (crcData := magic_header ++ uint32BE command ++ uint32BE (Device.sequence st + 1)
                  ++ uint32BE (blen payload + 8) ++ payload) in *.
  rewrite CRC_facts.calculateCRC_ref in Hcrc.
  assert (crc = uint32BE (CRC.crc32_iso_hdlc crcData)) as -> by congruence.
  assert (packet = crcData ++ uint32BE (CRC.crc32_iso_hdlc crcData) ++ magic_footer)
    as -> by congruence.
  pose proof (crc32_iso_hdlc_range crcData) as Hr.
  change (2 ^ 32) with 4294967296 in Hr.
  destruct (packet_fields command (Device.sequence st + 1) payload
              (uint32BE (CRC.crc32_iso_hdlc crcData)) Hc Hs Hl (uint32BE_length _))
    as (H1 & H2 & H3 & H4 & H5 & H6 & H7 & H8).
  fold crcData in H1, H2, H3, H4, H5, H6, H7, H8.
  rewrite H7. repeat split; try assumption.
  apply readUInt32BE_field; [lia|].
  unfold crcData. rewrite !length_app, !uint32BE_length. reflexivity.
Qed.

(** The control parser on the encoder's own packets, whatever the
    command, the payload and the counter: where it looks for the command
    it finds the sequence number, and where it looks for the sequence
    number it finds the length word; the chunk is dropped, or handled
    under that command and that sequence number. *)
Theorem built_packet_as_the_parser_reads_it command payload st packet :
  (Device.buildPacket command payload st).1 = Ok packet ->
  Frames.command_field packet = Device.sequence st + 1
  /\ Frames.sequence_field packet = blen payload + 8
  /\ (Device.parse_chunk packet = Ok None
      \/ exists e,
           Device.parse_chunk packet
           = Ok (Some (Device.sequence st + 1, blen payload + 8, e))).
Proof.
  intros Hb.
  destruct (Codec_facts.buildPacket_ranges _ _ _ _ Hb) as (Hc & Hs & Hl).
  destruct (Device_state_facts.buildPacket_inside command payload st Hc Hs Hl)
    as (crc & _ & Hcrc & Hbp).
  destruct (packet_fields command (Device.sequence st + 1) payload crc Hc Hs Hl Hcrc)
    as (_ & _ & _ & H8 & H12 & _).
  assert (packet = (magic_header ++ uint32BE command ++ uint32BE (Device.sequence st + 1)
                    ++ uint32BE (blen payload + 8) ++ payload) ++ crc ++ magic_footer)
    as Hpacket by (rewrite Hbp in Hb; cbn [fst] in Hb; congruence).
  rewrite <- Hpacket in H8, H12.
  unfold Frames.command_field, Frames.sequence_field. rewrite H8, H12.
  split; [reflexivity|]. split; [reflexivity|].
  destruct (Device_facts.parse_chunk_never_throws packet) as [[[[c s] e]|] Hp];
    [|left; exact Hp].
  right. exists e.
  destruct (Codec_facts.parse_chunk_of_buildPacket _ _ _ _ _ _ _ Hb Hp) as [-> ->].
  exact Hp.
Qed.

(** The two encoders are one function of command, sequence word and
    payload: when the stream side's [Date.now() & 0xFFFFFFFF] is the
    number the control side's counter moves to, [buildPacket] of
    [TuyaStreamDecoder] and [buildPacket] of [TuyaDevice] give the same
    bytes, or fail alike. *)
Theorem encoders_agree now command payload st :
  JS.and now 0xFFFFFFFF = Device.sequence st + 1 ->
  Stream.buildPacket now command payload = (Device.buildPacket command payload st).1.
Proof.
  intros Hseq. unfold Stream.buildPacket, Device.buildPacket.
  cbn [fst Device.sequence Device.set_sequence]. rewrite Hseq.
  destruct (writeUInt32BE command) as [cmd|]; [|reflexivity].
  destruct (writeUInt32BE (Device.sequence st + 1)) as [seq|]; [|reflexivity].
  destruct (writeUInt32BE (blen payload + 8)) as [len|]; [|reflexivity].
  cbn [mbind result_bind].
  rewrite CRC_facts.calculateCRC32_ref, CRC_facts.calculateCRC_ref. reflexivity.
Qed.

End Packet_facts.

(** ** Control connection: what a frame from the device does *)

#[global] Instance node_text_laws : NodeTextLaws node_text.
Proof. split. reflexivity. Qed.

Module Receive_facts.
Import Device Buffer_facts Wording Frames.

Section with_runtime.
Context `{NodeCrypto} `{NodeText}.

(** A chunk made of 20 header bytes, the payload its length word counts
    and 8 or more bytes behind it, as [handleData] takes it apart. *)
Lemma parse_chunk_parts head body trailer :
  length head = 20%nat ->
  starts_with_magic head = true ->
  readUInt32BE head 16 = Ok (blen body + 8) ->
  (8 <= length trailer)%nat ->
  parse_chunk (head ++ body ++ trailer)
  = Ok (Some (command_field head, sequence_field head, body)).
Proof.
  intros Hhead Hmagic Hlen Htrailer. unfold parse_chunk.
  assert (blen (head ++ body ++ trailer) = 20 + blen body + blen trailer) as Hb
    by (rewrite !blen_app; unfold blen; lia).
  pose proof (blen_nonneg body) as Hbody.
  assert (8 <= blen trailer) as Ht by (unfold blen; lia).
  rewrite Hb, starts_with_magic_app, Hmagic by lia.
  destruct (Z.ltb_spec (20 + blen body + blen trailer) 20); [lia|]. cbn [orb negb].
  rewrite !readUInt32BE_app by lia.
  destruct (readUInt32BE_inside head 8 ltac:(lia)) as (c & Hc & _).
  destruct (readUInt32BE_inside head 12 ltac:(lia)) as (s & Hs & _).
  unfold command_field, sequence_field. rewrite Hc, Hs, Hlen.
  cbn [mbind result_bind].
  destruct (Z.ltb_spec (20 + blen body + blen trailer) (20 + (blen body + 8))); [lia|].
  rewrite slice_inside by lia.
  change (Z.to_nat 20) with 20%nat.
  replace (Z.to_nat (20 + (blen body + 8) - 8 - 20)) with (length body)
    by (unfold blen; lia).
  rewrite (drop_app_length' head) by (symmetry; exact Hhead).
  rewrite take_app_length. reflexivity.
Qed.

(** [handleData] does not look at the CRC or at the footer of a frame:
    with any 8 or more bytes in their place the outcome is the same. *)
Theorem control_trailer_is_not_checked now st head body trailer trailer' :
  length head = 20%nat ->
  starts_with_magic head = true ->
  readUInt32BE head 16 = Ok (blen body + 8) ->
  (8 <= length trailer)%nat ->
  (8 <= length trailer')%nat ->
  handleData now (head ++ body ++ trailer) st
  = handleData now (head ++ body ++ trailer') st.
Proof.
  intros Hhead Hmagic Hlen Ht Ht'. unfold handleData.
  rewrite !parse_chunk_parts by assumption. reflexivity.
Qed.

Context {text_laws : NodeTextLaws _}.

(** Frames that pass the checks of [handleData] and still leave the
    object as it was, whatever their command and sequence words: a frame
    without payload bytes (so an acknowledgement with an empty payload
    settles no call), and a frame whose payload cannot be decrypted
    because the local key is not 16 bytes long or the payload is not a
    whole number of 16-byte blocks. *)
Theorem control_frames_without_effect now st head body trailer :
  length head = 20%nat ->
  starts_with_magic head = true ->
  readUInt32BE head 16 = Ok (blen body + 8) ->
  (8 <= length trailer)%nat ->
  body = [] \/ length (localKey st) <> 16%nat \/ (length body mod 16 <> 0)%nat ->
  handleData now (head ++ body ++ trailer) st = (Ok (), st).
Proof.
  intros Hhead Hmagic Hlen Ht Hbad. unfold handleData.
  rewrite parse_chunk_parts by assumption.
  destruct body as [|b body].
  - unfold decrypt_chunk, strip_nul. change (0 <? blen []) with false. cbv iota.
    rewrite utf8_toString_nil. reflexivity.
  - assert (decrypt_chunk (b :: body) st
            = Cipher.aes_128_ecb_decrypt (localKey st) (b :: body)) as ->.
    { unfold decrypt_chunk. destruct (Z.ltb_spec 0 (blen (b :: body))); [reflexivity|].
      unfold blen in *. cbn [length] in *. lia. }
    unfold Cipher.aes_128_ecb_decrypt.
    destruct Hbad as [Hbad|[Hbad|Hbad]]; [discriminate | |].
    + rewrite bool_decide_eq_false_2 by exact Hbad. reflexivity.
    + destruct (bool_decide (length (localKey st) = 16%nat)); [|reflexivity].
      rewrite (bool_decide_eq_false_2 (_ mod 16 = 0)%nat) by exact Hbad.
      rewrite orb_true_r. reflexivity.
Qed.

End with_runtime.

Section with_laws.
Context `{NodeCrypto} {laws : NodeCryptoLaws _} `{NodeText}.

(** A response on the wire, end to end.  A frame whose sequence word is
    the number a pending call was sent under, and whose payload is the
    JSON text of a value encrypted under the local key, resolves that
    call with the value, takes its listener off and clears its
    timeout. *)
Theorem response_frame_resolves_call now st head plain encrypted trailer h response :
  well_formed st ->
  length head = 20%nat ->
  starts_with_magic head = true ->
  readUInt32BE head 16 = Ok (blen encrypted + 8) ->
  (8 <= length trailer)%nat ->
  length (localKey st) = 16%nat ->
  Cipher.aes_128_ecb_encrypt (localKey st) plain = Ok encrypted ->
  strip_nul plain <> [] ->
  JSON_parse (strip_nul plain) = Ok response ->
  listeners st !! sequence_field head = Some [h] ->
  promises st !! h_call h = Some Pending ->
  let st' := (handleData now (head ++ encrypted ++ trailer) st).2 in
  promises st' !! h_call h = Some (Resolved response)
  /\ listeners st' !! sequence_field head = None
  /\ forall t, t ∈ timers st' -> t_id t <> h_timeout h.
Proof.
  intros W Hhead Hmagic Hlen Ht Hkey Henc Htext Hjson Hl Hp st'.
  destruct (Cipher_facts.aes_128_ecb_roundtrip _ plain Hkey) as (e & He & Hne & Hdec).
  assert (e = encrypted) as -> by congruence.
  assert (st' = (handlePayload now (command_field head) (sequence_field head) response st).2)
    as ->.
  { subst st'. unfold handleData. rewrite parse_chunk_parts by assumption.
    unfold decrypt_chunk.
    destruct (Z.ltb_spec 0 (blen encrypted)) as [|Hzero];
      [|destruct encrypted; [contradiction | unfold blen in Hzero; cbn in Hzero; lia]].
    rewrite Hdec. destruct (strip_nul plain) as [|u s] eqn:Hs; [contradiction|].
    rewrite Hjson. reflexivity. }
  destruct (Device_state_facts.promises_resolved_one _ response st h Hl Hp) as [Hpr Hls].
  split; [|split].
  - rewrite Device_state_facts.handlePayload_promises, Hpr. apply lookup_insert_eq.
  - rewrite Device_state_facts.handlePayload_listeners, Hls. apply lookup_delete_eq.
  - intros t Hin.
    assert (forall x, x ∈ timers (emit_response (sequence_field head) response st) ->
                      t_id x <> h_timeout h) as Hcleared.
    { intros x. rewrite (Device_state_facts.emit_response_one _ _ _ _ Hl).
      rewrite Device_state_facts.timers_settle. unfold clearTimeout. cbn [timers set_timers set_listeners].
      intros Hx. apply list_elem_of_filter in Hx as [Hx _]. exact Hx. }
    revert Hin. unfold handlePayload.
    destruct (command_field head =? 8); [|apply Hcleared].
    destruct (Value.get_named response "dps") as [dps|]; [|apply Hcleared].
    destruct (Value.truthy dps); [|apply Hcleared].
    destruct (Value.get_index dps _ _) as [v|]; [|apply Hcleared].
    destruct (negb (Value.is_undefined v)); [|apply Hcleared].
    unfold setTimeout. cbn [snd timers set_timers set_fresh emit].
    intros Hin. apply elem_of_app in Hin as [Hin|Hin]; [apply Hcleared, Hin|].
    apply list_elem_of_singleton in Hin. subst t. cbn [t_id].
    change (fresh (emit (EmitMotion true) ?s)) with (fresh s).
    rewrite Device_state_facts.fresh_emit_response.
    destruct (wf_listener_ids st W _ _ h Hl) as [Hid _]; [left|]. lia.
Qed.

End with_laws.

End Receive_facts.

(** ** Control connection: commands that fail, and calls that settle *)

Module Send_facts.
Import Device Wording Invariant Device_state_facts.

Section with_runtime.
Context `{NodeCrypto} `{NodeText}.

(** A command on a connection that is down, or under a local key that is
    not 16 bytes long, is rejected at once, with [NotConnected] or
    [InvalidKeyLength]; it takes no sequence number, writes nothing, arms
    no timeout and registers no listener. *)
Theorem command_that_cannot_be_sent now command payload st :
  connected st = false \/ length (localKey st) <> 16%nat ->
  let sent := sendCommand now command payload st in
  sent.1 = fresh st
  /\ promises sent.2 !! sent.1
     = Some (Rejected (if connected st then InvalidKeyLength else NotConnected))
  /\ sequence sent.2 = sequence st
  /\ outputs sent.2 = outputs st
  /\ timers sent.2 = timers st
  /\ listeners sent.2 = listeners st.
Proof.
  intros Hbad sent. subst sent. unfold sendCommand, new_promise. fields.
  destruct (connected st) eqn:Hconn; cbn [negb].
  - destruct Hbad as [Hbad|Hbad]; [discriminate|].
    unfold Cipher.aes_128_ecb_encrypt. fields.
    rewrite bool_decide_eq_false_2 by exact Hbad.
    unfold settle. fields. rewrite lookup_insert_eq. fields.
    rewrite lookup_insert_eq. repeat split.
  - unfold settle. fields. rewrite lookup_insert_eq. fields.
    rewrite lookup_insert_eq. repeat split.
Qed.

(** The sequence counter does not wrap.  Once it has reached 2^32 - 1
    (and while it is below 2^53, where a JavaScript number still counts
    exactly), every command on a connection that is up is rejected with a
    [RangeError] from [buildPacket]: nothing is written and no timeout is
    armed, and the counter has still moved on by one. *)
Theorem sequence_counter_does_not_wrap now command payload st :
  connected st = true ->
  length (localKey st) = 16%nat ->
  0xFFFFFFFF <= sequence st < 2 ^ 53 ->
  let sent := sendCommand now command payload st in
  promises sent.2 !! sent.1 = Some (Rejected RangeError)
  /\ sequence sent.2 = sequence st + 1
  /\ outputs sent.2 = outputs st
  /\ timers sent.2 = timers st
  /\ listeners sent.2 = listeners st.
Proof.
  intros Hconn Hkey Hseq sent. subst sent. unfold sendCommand, new_promise. fields.
  rewrite Hconn. cbn [negb].
  unfold Cipher.aes_128_ecb_encrypt. fields.
  rewrite bool_decide_eq_true_2 by exact Hkey.
  assert (forall payload' st', sequence st' = sequence st ->
            (buildPacket command payload' st').1 = Throw RangeError) as Hthrow.
  { intros payload' st' Hs. unfold buildPacket. fields. rewrite Hs.
    assert (writeUInt32BE (sequence st + 1) = Throw RangeError) as ->.
    { unfold writeUInt32BE. destruct (Z.leb_spec (sequence st + 1) 0xFFFFFFFF); [lia|].
      rewrite andb_false_r. reflexivity. }
    destruct (writeUInt32BE command) as [cmd|e] eqn:Hcmd; cbn [mbind result_bind];
      [reflexivity|].
    unfold writeUInt32BE in Hcmd. destruct (_ && _) in Hcmd; congruence. }
  match goal with
  | |- context [buildPacket command ?p ?s] =>
      pose proof (Hthrow p s eq_refl) as Hb;
      pose proof (buildPacket_state command p s) as Hs;
      destruct (buildPacket command p s) as [packet st2]
  end.
  cbn [fst snd] in Hb, Hs. subst packet st2. fields.
  unfold settle. fields. rewrite lookup_insert_eq. fields.
  rewrite lookup_insert_eq. repeat split.
Qed.

End with_runtime.

(** *** Every pending call has its timeout armed *)

Lemma pending_after_settle call p st c :
  p <> Pending ->
  promises (settle call p st) !! c = Some Pending ->
  promises st !! c = Some Pending /\ c <> call.
Proof.
  intros Hp Hc. unfold settle in Hc.
  destruct (promises st !! call) as [[| |]|] eqn:E.
  - cbn [promises set_promises] in Hc.
    destruct (decide (c = call)) as [->|Hne].
    + rewrite lookup_insert_eq in Hc. congruence.
    + rewrite lookup_insert_ne in Hc by congruence. split; assumption.
  - split; [exact Hc | congruence].
  - split; [exact Hc | congruence].
  - split; [exact Hc | congruence].
Qed.

Lemma guarded_more_timers st st' :
  promises st' = promises st ->
  (forall t, t ∈ timers st -> t ∈ timers st') ->
  guarded st -> guarded st'.
Proof.
  intros Hp Ht G c Hc. rewrite Hp in Hc.
  destruct (G c Hc) as (t & Hin & Ha). exists t. split; [apply Ht, Hin | exact Ha].
Qed.

Lemma guarded_settle call p st : p <> Pending -> guarded st -> guarded (settle call p st).
Proof.
  intros Hp G c Hc. rewrite timers_settle.
  apply (pending_after_settle _ _ _ _ Hp) in Hc as [Hc _]. apply G, Hc.
Qed.

Lemma guarded_run_handler response st h :
  (forall t, t ∈ timers st -> t_id t = h_timeout h ->
             t_action t = RejectCall (h_call h)) ->
  guarded st -> guarded (run_handler response st h).
Proof.
  intros Hown G c Hc. unfold run_handler in *. rewrite timers_settle.
  apply pending_after_settle in Hc as [Hc Hne]; [|discriminate].
  destruct (G c Hc) as (t & Ht & Ha). exists t. split; [|exact Ha].
  apply armed_clearTimeout; [exact Ht|].
  intros Hid. specialize (Hown t Ht Hid). congruence.
Qed.

Lemma timers_run_handler response st h t :
  t ∈ timers (run_handler response st h) -> t ∈ timers st.
Proof.
  unfold run_handler. rewrite timers_settle. unfold clearTimeout.
  cbn [timers set_timers]. intros Ht. apply list_elem_of_filter in Ht as [_ Ht]. exact Ht.
Qed.

Lemma guarded_fold_run_handler response hs st :
  (forall h t, h ∈ hs -> t ∈ timers st -> t_id t = h_timeout h ->
               t_action t = RejectCall (h_call h)) ->
  guarded st -> guarded (fold_left (run_handler response) hs st).
Proof.
  revert st. induction hs as [|h hs IH]; intros st Hown G; [exact G|].
  cbn [fold_left]. apply IH.
  - intros h' t Hh' Ht. apply Hown; [right; exact Hh'|].
    apply (timers_run_handler response st h), Ht.
  - apply guarded_run_handler; [|exact G]. intros t. apply Hown. left.
Qed.

Lemma guarded_emit_response seq response st :
  well_formed st -> guarded st -> guarded (emit_response seq response st).
Proof.
  intros W G. unfold emit_response.
  destruct (listeners st !! seq) as [hs|] eqn:Hl; [|exact G].
  apply guarded_fold_run_handler.
  - intros h t Hh Ht. apply (wf_listener_timer st W seq hs h t Hl Hh Ht).
  - exact G.
Qed.

Lemma guarded_fire id st : well_formed st -> guarded st -> guarded (fire id st).
Proof.
  intros W G. unfold fire.
  destruct (find _ (timers st)) as [t|] eqn:Hf; [|exact G].
  apply find_some in Hf as [Hin Hid]. apply bool_decide_eq_true in Hid.
  apply list_elem_of_In in Hin.
  intros c Hc. rewrite timers_run_action.
  assert (promises st !! c = Some Pending /\ t_action t <> RejectCall c) as [Hp Hne].
  { destruct (t_action t) as [c0|]; cbn [run_action] in Hc.
    - apply pending_after_settle in Hc as [Hc Hne]; [|discriminate].
      split; [exact Hc | congruence].
    - split; [exact Hc | discriminate]. }
  destruct (G c Hp) as (t' & Ht' & Ha'). exists t'. split; [|exact Ha'].
  apply armed_clearTimeout; [exact Ht'|].
  intros Hid'. apply Hne. rewrite <- Ha'. f_equal.
  apply (same_id_same_timer (timers st)); try assumption.
  - apply (wf_timer_nodup st W).
  - congruence.
Qed.

Lemma guarded_run_due fuel now st :
  well_formed st -> guarded st -> guarded (run_due fuel now st).
Proof.
  revert st. induction fuel as [|fuel IH]; intros st W G; [exact G|].
  cbn [run_due]. destruct (next_due now (timers st)) as [t|]; [|exact G].
  apply IH; [apply wf_fire, W | apply guarded_fire; assumption].
Qed.

Section with_runtime.
Context `{NodeCrypto} `{NodeText}.

Lemma guarded_handlePayload now command seq payload st :
  well_formed st -> guarded st -> guarded (handlePayload now command seq payload st).2.
Proof.
  intros W G. pose proof (guarded_emit_response seq payload st W G) as G'.
  unfold handlePayload.
  destruct (command =? 8); [|exact G'].
  destruct (Value.get_named payload "dps") as [dps|]; [|exact G'].
  destruct (Value.truthy dps); [|exact G'].
  destruct (Value.get_index dps _ _) as [v|]; [|exact G'].
  destruct (negb (Value.is_undefined v)); [|exact G'].
  revert G'. apply guarded_more_timers; [reflexivity|].
  intros t Ht. unfold setTimeout. fields. apply elem_of_app. left. exact Ht.
Qed.

Lemma guarded_handleData now data st :
  well_formed st -> guarded st -> guarded (handleData now data st).2.
Proof.
  intros W G. unfold handleData.
  destruct (parse_chunk data) as [[[[c s] e]|]|]; try exact G.
  destruct (decrypt_chunk e st); [|exact G].
  destruct (strip_nul a); [exact G|].
  destruct (JSON_parse _); [|exact G].
  apply guarded_handlePayload; assumption.
Qed.

Lemma guarded_rejected_call e st st0 :
  promises st0 = <[fresh st := Pending]> (promises st) ->
  timers st0 = timers st ->
  guarded st -> guarded (settle (fresh st) (Rejected e) st0).
Proof.
  intros Hp Ht G c Hc. rewrite timers_settle, Ht.
  apply pending_after_settle in Hc as [Hc Hne]; [|discriminate].
  rewrite Hp, lookup_insert_ne in Hc by congruence. apply G, Hc.
Qed.

Lemma guarded_sendCommand now command payload st :
  guarded st -> guarded (sendCommand now command payload st).2.
Proof.
  intros G. unfold sendCommand, new_promise.
  destruct (negb _); [cbn [snd]; apply guarded_rejected_call; [reflexivity .. | exact G]|].
  destruct (Cipher.aes_128_ecb_encrypt _ _) as [encrypted|];
    [|cbn [snd]; apply guarded_rejected_call; [reflexivity .. | exact G]].
  pose proof (buildPacket_state command encrypted
                (set_fresh (S (fresh st))
                   (set_promises (<[fresh st:=Pending]> (promises st)) st))) as Hb.
  destruct (buildPacket _ _ _) as [packet st2]. cbn [snd] in Hb. subst st2.
  destruct packet as [packet|];
    [|cbn [snd]; apply guarded_rejected_call; [reflexivity .. | exact G]].
  unfold setTimeout, once. fields. intros c Hc. fields.
  destruct (decide (c = fresh st)) as [->|Hne].
  - eexists. split; [apply elem_of_app; right; apply list_elem_of_singleton; reflexivity|].
    reflexivity.
  - rewrite lookup_insert_ne in Hc by congruence.
    destruct (G c Hc) as (t & Ht & Ha). exists t.
    split; [apply elem_of_app; left; exact Ht | exact Ha].
Qed.

Lemma guarded_step st i : well_formed st -> guarded st -> guarded (step st i).
Proof.
  intros W G. destruct i; cbn [step].
  - apply guarded_handleData; assumption.
  - apply guarded_sendCommand, G.
  - exact G.
  - exact G.
  - apply guarded_run_due; assumption.
Qed.

Lemma guarded_run inputs st :
  well_formed st -> guarded st -> guarded (run inputs st).
Proof.
  revert st. induction inputs as [|i inputs IH]; intros st W G; [exact G|].
  cbn [run fold_left]. apply IH; [apply wf_step, W | apply guarded_step; assumption].
Qed.

(** No call hangs.  In every state the object reaches from its first,
    whatever chunks arrive, commands are sent and timeouts run, a call
    that is still pending has its own timeout armed, and when the clock
    reaches the time of that timeout the call is rejected with
    [CommandTimeout]. *)
Theorem every_pending_call_times_out id key inputs call :
  promises (run inputs (initial id key)) !! call = Some Pending ->
  exists t,
    t ∈ timers (run inputs (initial id key))
    /\ t_action t = RejectCall call
    /\ forall now,
         t_due t <= now ->
         promises (advance now (run inputs (initial id key))) !! call
         = Some (Rejected CommandTimeout).
Proof.
  intros Hp. set (st := run inputs (initial id key)) in *.
  assert (well_formed st) as W by apply wf_reachable.
  assert (guarded st) as G.
  { apply guarded_run; [apply wf_initial|]. intros c Hc. cbn in Hc.
    rewrite lookup_empty in Hc. discriminate. }
  destruct (G call Hp) as (t & Ht & Ha). exists t.
  split; [exact Ht|]. split; [exact Ha|]. intros now Hdue.
  apply (run_due_rejects _ _ st t call W Ht Ha Hdue); [lia|]. left. exact Hp.
Qed.

End with_runtime.

End Send_facts.

(** ** Control connection: motion events and the motion switch *)

Module Motion_facts.
Import Device Wording Commands Device_state_facts.

Section with_runtime.
Context `{NodeCrypto} `{NodeText}.

Lemma motion_push_arms_clear now seq payload st :
  well_formed st ->
  carries_motion payload = true ->
  let st1 := (handlePayload now 8 seq payload st).2 in
  well_formed st1
  /\ outputs st1 = outputs st ++ [EmitMotion true]
  /\ fresh st1 = S (fresh st)
  /\ motion_clear (fresh st) now ∈ timers st1.
Proof.
  intros W Hm st1.
  split; [apply wf_handlePayload, W|].
  subst st1. rewrite (handlePayload_motion now seq payload st Hm). fields.
  split; [rewrite outputs_emit_response; reflexivity|].
  split; [reflexivity|].
  apply elem_of_app. right. apply list_elem_of_singleton. reflexivity.
Qed.

(** A second motion push does not put off the clearing of the first.
    Two pushes less than 30 seconds apart give two motion-detected
    events; 30 seconds after the first push the motion-cleared event is
    emitted, while the timeout of the second push is still armed, and 30
    seconds after the second push it is emitted again. *)
Theorem motion_clear_is_not_postponed st t1 t2 seq1 seq2 payload1 payload2 :
  well_formed st ->
  carries_motion payload1 = true ->
  carries_motion payload2 = true ->
  t1 < t2 < t1 + 30000 ->
  let st1 := (handlePayload t1 8 seq1 payload1 st).2 in
  let st2 := (handlePayload t2 8 seq2 payload2 st1).2 in
  let st3 := advance (t1 + 30000) st2 in
  outputs st2 = outputs st ++ [EmitMotion true; EmitMotion true]
  /\ (exists before after,
        outputs st3 = outputs st2 ++ before ++ EmitMotion false :: after)
  /\ motion_clear (S (fresh st)) t2 ∈ timers st3
  /\ exists before after,
       outputs (advance (t2 + 30000) st3)
       = outputs st3 ++ before ++ EmitMotion false :: after.
Proof.
  intros W Hm1 Hm2 Ht st1 st2 st3.
  destruct (motion_push_arms_clear t1 seq1 payload1 st W Hm1) as (W1 & Ho1 & Hf1 & Ha1).
  fold st1 in W1, Ho1, Hf1, Ha1.
  destruct (motion_push_arms_clear t2 seq2 payload2 st1 W1 Hm2) as (W2 & Ho2 & Hf2 & Ha2).
  fold st2 in W2, Ho2, Hf2, Ha2. rewrite Hf1 in Ha2.
  assert (motion_clear (fresh st) t1 ∈ timers st2) as Ha1'
    by (apply armed_handlePayload; [exact W1 | exact Ha1 | reflexivity]).
  assert (well_formed st3) as W3 by apply wf_advance, W2.
  assert (motion_clear (S (fresh st)) t2 ∈ timers st3) as Ha3
    by (apply armed_run_due; [exact W2 | exact Ha2 | cbn; lia]).
  split; [rewrite Ho2, Ho1, <- app_assoc; reflexivity|].
  split; [|split; [exact Ha3|]].
  - apply (run_due_clears_motion _ _ st2 (motion_clear (fresh st) t1));
      [exact W2 | exact Ha1' | reflexivity | cbn; lia | lia].
  - apply (run_due_clears_motion _ _ st3 (motion_clear (S (fresh st)) t2));
      [exact W3 | exact Ha3 | reflexivity | cbn; lia | lia].
Qed.

(** *** [getMotionStatus] *)

Lemma motion_switch_value status :
  exists v, motion_switch status = Ok v /\ (v = VBool false \/ Value.truthy v = true).
Proof.
  unfold motion_switch, optional_named, optional_index, or_else.
  assert (forall dps name,
            exists v,
              (if nullish dps then Ok VUndefined
               else Value.get_index dps DP_MOTION_SWITCH name) = Ok v) as Hidx.
  { intros dps name. destruct dps; cbn; eexists; reflexivity. }
  assert (exists dps, (if nullish status then Ok VUndefined
                       else Value.get_named status "dps") = Ok dps) as [dps ->]
    by (destruct status; cbn; eexists; reflexivity).
  cbn [mbind result_bind].
  destruct (Hidx dps DP_MOTION_SWITCH_key) as [v ->]. cbn [mbind result_bind].
  eexists. split; [reflexivity|].
  destruct (Value.truthy v) eqn:Hv; [right; exact Hv | left; reflexivity].
Qed.

Lemma motion_switch_of_object fields dps :
  Value.field "dps" fields = VObj dps ->
  motion_switch (VObj fields)
  = Ok (or_else (Value.field DP_MOTION_SWITCH_key dps) (VBool false)).
Proof.
  intros Hdps. unfold motion_switch, optional_named, optional_index.
  cbn [nullish Value.get_named mbind result_bind]. rewrite Hdps. reflexivity.
Qed.

Lemma sendCommand_down now command payload st :
  connected st = false ->
  sendCommand now command payload st
  = (fresh st,
     set_fresh (S (fresh st))
       (set_promises (<[fresh st := Rejected NotConnected]> (promises st)) st)).
Proof.
  intros Hconn. unfold sendCommand, new_promise. fields. rewrite Hconn. cbn [negb].
  unfold settle. fields. rewrite lookup_insert_eq. fields.
  rewrite insert_insert_eq. reflexivity.
Qed.

(** What [getMotionStatus] answers.  The expression that reads the
    motion switch never throws and gives [false] or a truthy value.  On a
    connection that is down the answer is [false], at once, and nothing
    is written.  When the status query goes out the answer is open until
    the query settles: [false] once its 5 seconds have passed without a
    response; and after a response whose [dps] object is read, the value
    of data point 134 itself when that is truthy (a string or a number
    as much as [true]), and [false] otherwise. *)
Theorem getMotionStatus_answers now st :
  well_formed st ->
  let sent := getMotionStatus now st in
  (forall status,
      exists v, motion_switch status = Ok v /\ (v = VBool false \/ Value.truthy v = true))
  /\ (connected st = false ->
      getMotionStatus_settled sent.1 sent.2 = Some (VBool false)
      /\ outputs sent.2 = outputs st)
  /\ (goes_out now 0x0a status_payload st = true ->
      getMotionStatus_settled sent.1 sent.2 = None
      /\ getMotionStatus_settled sent.1 (advance (now + 5000) sent.2) = Some (VBool false)
      /\ forall now' command fields dps,
           Value.field "dps" fields = VObj dps ->
           getMotionStatus_settled sent.1
             (handlePayload now' command (sequence st + 1) (VObj fields) sent.2).2
           = Some (or_else (Value.field DP_MOTION_SWITCH_key dps) (VBool false))).
Proof.
  intros W sent. split; [exact motion_switch_value|]. split.
  - intros Hconn. subst sent. unfold getMotionStatus, getStatus.
    rewrite (sendCommand_down _ _ _ _ Hconn). cbn [fst snd].
    unfold getMotionStatus_settled. fields. rewrite lookup_insert_eq.
    split; reflexivity.
  - intros Hgo.
    destruct (timeout_rejects_and_keeps_listener st now 0x0a status_payload W Hgo)
      as [Hrejected _].
    destruct (sendCommand_goes_out _ _ _ _ Hgo) as (e & crc & _ & _ & Hs).
    subst sent. unfold getMotionStatus, getStatus in *.
    rewrite Hs in *. cbn [fst snd] in *.
    set (packet := (_ ++ crc ++ magic_footer)) in *.
    assert (promises (after_send now packet st) !! fresh st = Some Pending) as Hp
      by (unfold after_send; fields; apply lookup_insert_eq).
    split; [unfold getMotionStatus_settled; rewrite Hp; reflexivity|].
    split; [unfold getMotionStatus_settled; rewrite Hrejected; reflexivity|].
    intros now' command fields dps Hdps.
    assert (listeners (after_send now packet st) !! (sequence st + 1)
            = Some [Handler (S (fresh st)) (fresh st)]) as Hl.
    { unfold after_send. fields.
      rewrite (no_listener_ahead st (sequence st + 1) W) by lia.
      apply lookup_insert_eq. }
    destruct (promises_resolved_one _ (VObj fields) _ _ Hl Hp) as [Hpr _].
    unfold getMotionStatus_settled.
    rewrite handlePayload_promises, Hpr. cbn [h_call]. rewrite lookup_insert_eq.
    cbn [getMotionStatus_value]. rewrite (motion_switch_of_object fields dps Hdps).
    reflexivity.
Qed.

End with_runtime.

End Motion_facts.

(** ** The payload cipher, block by block, and commands on the wire *)

Module Codebook_facts.
Import Cipher Frames.

Lemma block_ecb_blocks k f data i :
  (forall b, length b = 16%nat -> length (f b) = 16%nat) ->
  (i < k)%nat -> (16 * k <= length data)%nat ->
  block i (ecb_blocks k f data) = f (block i data).
Proof.
  intros Hf. revert data i. induction k as [|k IH]; intros data i Hi Hlen; [lia|].
  cbn [ecb_blocks]. unfold block in *.
  assert (length (f (take 16 data)) = 16%nat) as Hfirst
    by (apply Hf; rewrite length_take; lia).
  destruct i as [|i].
  - replace (16 * 0)%nat with 0%nat by lia. cbn [drop].
    apply take_app_length'. symmetry. exact Hfirst.
  - rewrite drop_app_ge by lia. rewrite Hfirst.
    replace (16 * S i - 16)%nat with (16 * i)%nat by lia.
    rewrite IH by (rewrite ?length_drop; lia).
    rewrite drop_drop. replace (16 + 16 * i)%nat with (16 * S i)%nat by lia.
    reflexivity.
Qed.

Section with_laws.
Context `{NodeCrypto} {laws : NodeCryptoLaws _}.

(** The cipher is a codebook.  The encrypted payload is one block longer
    than the whole blocks of the plaintext, and each of its 16-byte
    blocks is the AES encryption of the block of the padded plaintext at
    the same place, whatever stands around it: equal blocks, in one
    payload or in two, at any two times, are encrypted to equal
    blocks. *)
Theorem each_block_is_encrypted_alone key plain encrypted :
  aes_128_ecb_encrypt key plain = Ok encrypted ->
  length encrypted = (16 * (length plain / 16 + 1))%nat
  /\ (forall i, (i <= length plain / 16)%nat ->
        block i encrypted = aes128_encrypt_block key (block i (pkcs7_pad plain)))
  /\ forall plain' encrypted' i j,
       aes_128_ecb_encrypt key plain' = Ok encrypted' ->
       (i <= length plain / 16)%nat -> (j <= length plain' / 16)%nat ->
       block i (pkcs7_pad plain) = block j (pkcs7_pad plain') ->
       block i encrypted = block j encrypted'.
Proof.
  assert (forall p e,
            aes_128_ecb_encrypt key p = Ok e ->
            length e = (16 * (length p / 16 + 1))%nat
            /\ forall i, (i <= length p / 16)%nat ->
                 block i e = aes128_encrypt_block key (block i (pkcs7_pad p))) as Hone.
  { intros p e He. unfold aes_128_ecb_encrypt in He.
    destruct (bool_decide (length key = 16%nat)); [|discriminate].
    injection He as <-.
    assert (length (pkcs7_pad p) = (16 * (length p / 16 + 1))%nat) as Hpad.
    { unfold pkcs7_pad. rewrite length_app, length_replicate.
      pose proof (Nat.div_mod_eq (length p) 16).
      pose proof (Cipher_facts.pad_amount (length p)). lia. }
    assert (length (pkcs7_pad p) / 16 = length p / 16 + 1)%nat as Hk
      by (rewrite Hpad, Nat.mul_comm; apply Nat.div_mul; discriminate).
    unfold ecb. rewrite Hk. split.
    - apply Cipher_facts.ecb_blocks_length; [apply aes128_encrypt_block_length | lia].
    - intros i Hi. apply block_ecb_blocks; [apply aes128_encrypt_block_length | lia | lia]. }
  intros He. destruct (Hone plain encrypted He) as [Hlen Hblock].
  split; [exact Hlen|]. split; [exact Hblock|].
  intros plain' encrypted' i j He' Hi Hj Heq.
  destruct (Hone plain' encrypted' He') as [_ Hblock'].
  rewrite (Hblock i Hi), (Hblock' j Hj), Heq. reflexivity.
Qed.

End with_laws.

Section with_runtime.
Context `{NodeCrypto} {laws : NodeCryptoLaws _} `{NodeText}.

(** A command that goes out can be read back.  The packet written holds
    the command code at offset 4 and the sequence number given to the
    call at offset 8, and its payload, decrypted under the local key, is
    the JSON text of the command: the fields [gwId], [devId], [uid] (the
    device id) and [t] (the time in seconds), then the payload the caller
    gave; for the [dps] object of [getStatus], [startStream] and
    [controlPTZ] that is one more member [dps], and for the empty object
    of the heartbeat nothing more. *)
Theorem sent_command_reads_back now command payload st :
  Wording.goes_out now command payload st = true ->
  (exists packet encrypted,
      Device.outputs (Device.sendCommand now command payload st).2
      = Device.outputs st ++ [Device.SocketWrite packet]
      /\ readUInt32BE packet 4 = Ok command
      /\ readUInt32BE packet 8 = Ok (Device.sequence st + 1)
      /\ readUInt32BE packet 12 = Ok (blen encrypted + 8)
      /\ slice packet 16 (16 + blen encrypted) = encrypted
      /\ aes_128_ecb_decrypt (Device.localKey st) encrypted
         = Ok (Device.command_bytes now payload st))
  /\ (forall dps,
        Device.command_bytes now [("dps", dps)]%string st
        = JSON_stringify_utf8
            (VObj [ ("gwId", VStr (Device.deviceId st)); ("devId", VStr (Device.deviceId st));
                    ("uid", VStr (Device.deviceId st));
                    ("t", VStr (number_toString (now / 1000))); ("dps", dps) ]%string))
  /\ Device.command_bytes now [] st
     = JSON_stringify_utf8
         (VObj [ ("gwId", VStr (Device.deviceId st)); ("devId", VStr (Device.deviceId st));
                 ("uid", VStr (Device.deviceId st));
                 ("t", VStr (number_toString (now / 1000))) ]%string).
Proof.
  intros Hgo. split; [|split; [intros dps; reflexivity | reflexivity]].
  destruct (Device_state_facts.sendCommand_goes_out _ _ _ _ Hgo)
    as (encrypted & crc & Henc & Hcrc & Hs).
  assert (length (Device.localKey st) = 16%nat) as Hkey.
  { unfold aes_128_ecb_encrypt in Henc.
    destruct (decide (length (Device.localKey st) = 16%nat)) as [Hk|Hk]; [exact Hk|].
    rewrite bool_decide_eq_false_2 in Henc by exact Hk. discriminate. }
  destruct (Cipher_facts.aes_128_ecb_roundtrip _ (Device.command_bytes now payload st) Hkey)
    as (e & He & _ & Hdec).
  assert (e = encrypted) as -> by congruence.
  pose proof (Device_state_facts.goes_out_sequence _ _ _ _ Hgo) as Hseq.
  unfold Wording.goes_out in Hgo. apply andb_true_iff in Hgo as [_ Hgo].
  rewrite Henc in Hgo.
  assert (0 <= command <= 0xFFFFFFFF /\ blen encrypted + 8 <= 0xFFFFFFFF) as [Hcmd Hlen]
    by (repeat (apply andb_true_iff in Hgo as [Hgo ?]); lia).
  clear Hgo.
  set (pre := magic_header ++ uint32BE command ++ uint32BE (Device.sequence st + 1)
              ++ uint32BE (blen encrypted + 8) ++ encrypted) in *.
  destruct (Packet_facts.packet_fields command (Device.sequence st + 1) encrypted crc
              Hcmd Hseq Hlen Hcrc)
    as (_ & _ & Hr4 & Hr8 & Hr12 & Hp & _).
  exists (pre ++ crc ++ magic_footer), encrypted.
  rewrite Hs. unfold Wording.after_send. cbn [snd Device.outputs].
  repeat split; assumption.
Qed.

End with_runtime.

End Codebook_facts.

(** ** More scenarios on the executable runtime *)

Module Case_facts.
Import Scenario Cases Wording Frames.

Lemma wf_querying : well_formed querying.
Proof. apply Device_state_facts.wf_sendCommand, Scenario_facts.wf_camera. Qed.

Ltac no_occurrence :=
  let j := fresh "j" in
  let Hj := fresh "Hj" in
  intros j Hj; cbn in Hj;
  repeat (destruct j as [|j];
          [vm_compute; discriminate | apply (proj2 (Nat.succ_lt_mono _ _)) in Hj]);
  lia.

(** Two frames, a stream-data frame and an acknowledgement, cut into
    three chunks that respect no frame boundary. *)
Lemma frames_in_any_chunks_witness :
  let stream := parser_frame ++ ack_frame in
  feed [take 5 stream; take 40 (drop 5 stream); drop 45 stream] decoder
  = Some (Stream.Outcome (drained [parser_frame; ack_frame] decoder)
            [tagged parser_frame; tagged ack_frame] None).
Proof.
  apply (Stream_run_facts.frames_in_any_chunks decoder [parser_frame; ack_frame]);
    [reflexivity | repeat constructor | reflexivity].
Defined.

(** The time 1700000000000 has bit 31 set. *)
Lemma stream_sequence_word_is_signed_witness :
  Stream.buildPacket 1700000000000 Stream.CMD_STREAM_DATA zero16 = Throw RangeError
  /\ (Stream.sendStreamRequest 1700000000000 decoder).1 = Throw RangeError
  /\ Stream.outputs (Stream.sendStreamRequest 1700000000000 decoder).2 = [].
Proof.
  destruct (Stream_run_facts.stream_sequence_word_is_signed 1700000000000) as [Hset _].
  destruct (Hset eq_refl) as [Hb Hs]. destruct (Hs decoder) as (H1 & H2 & _).
  split; [apply Hb|]. split; [exact H1 | exact H2].
Defined.

(** Twenty-five bytes without a magic header; seven such bytes in
    front of a frame. *)
Lemma stream_resynchronisation_witness :
  Stream.handleStreamData (replicate 25 xff) decoder
  = Some (Stream.Outcome decoder [] None)
  /\ Stream.handleStreamData (replicate 7 xff ++ parser_frame) decoder
     = Some (Stream.Outcome (drained [parser_frame] decoder) [tagged parser_frame] None).
Proof.
  destruct (Stream_run_facts.stream_resynchronisation decoder eq_refl) as [Hdrop Hskip].
  split.
  - apply Hdrop; [vm_compute; discriminate | no_occurrence].
  - apply Hskip; [reflexivity | no_occurrence].
Defined.

(** The chunk of C2: after the throw the buffer holds the four header
    bytes. *)
Lemma stream_scan_throws_only_after_resync_witness :
  let out := Stream.Outcome (Stream.set_frameBuffer magic_header decoder) []
                            (Some RangeError) in
  starts_with_magic (Stream.frameBuffer (Stream.final out)) = true
  /\ blen (Stream.frameBuffer (Stream.final out)) < 20.
Proof.
  intros out.
  destruct (Stream_run_facts.stream_scan_throws_only_after_resync
              late_header decoder out RangeError) as (_ & H1 & H2);
    [vm_compute; reflexivity | reflexivity |].
  split; assumption.
Defined.

(** The stream-data frame with eight payload bytes. *)
Lemma undecryptable_video_is_passed_on_witness :
  Stream.handleStreamData parser_frame decoder
  = Some (Stream.Outcome
            (Stream.State "cam01" key16 None []
               [Stream.EmitVideoData [x01; x02; x03; x04; x05; x06; x07; x08]])
            [tagged parser_frame] None).
Proof.
  apply (Stream_run_facts.undecryptable_video_is_passed_on decoder parser_frame);
    [reflexivity | reflexivity | reflexivity |].
  right. right. vm_compute. discriminate.
Defined.

(** The first packet of a connection, command 10 with 16 payload
    bytes. *)
Lemma built_packet_layout_witness :
  exists packet,
    (Device.buildPacket 10 payload16 camera).1 = Ok packet
    /\ blen packet = 40
    /\ readUInt32BE packet 4 = Ok 10
    /\ readUInt32BE packet 8 = Ok 1
    /\ slice_from packet 36 = magic_footer.
Proof.
  eexists. split; [vm_compute; reflexivity|].
  destruct (Packet_facts.built_packet_layout 10 payload16 camera _
              ltac:(vm_compute; reflexivity))
    as (H1 & _ & H3 & H4 & _ & _ & _ & H8).
  repeat split; assumption.
Defined.

Lemma built_packet_as_the_parser_reads_it_witness :
  exists packet,
    (Device.buildPacket 10 payload16 camera).1 = Ok packet
    /\ command_field packet = 1
    /\ sequence_field packet = 24.
Proof.
  eexists. split; [vm_compute; reflexivity|].
  destruct (Packet_facts.built_packet_as_the_parser_reads_it 10 payload16 camera _
              ltac:(vm_compute; reflexivity))
    as (H1 & H2 & _).
  split; assumption.
Defined.

(** At time 1 the stream side's sequence word is 1, the number the
    control side's counter moves to from 0. *)
Lemma encoders_agree_witness :
  Stream.buildPacket 1 10 payload16 = (Device.buildPacket 10 payload16 camera).1.
Proof. apply Packet_facts.encoders_agree. reflexivity. Defined.

(** The stream-data frame of the scenarios with its CRC and footer
    overwritten. *)
Lemma control_trailer_is_not_checked_witness :
  Device.handleData 1000 parser_frame camera
  = Device.handleData 1000
      (take 20 parser_frame ++ [x01; x02; x03; x04; x05; x06; x07; x08]
       ++ replicate 8 xff) camera.
Proof.
  apply (Receive_facts.control_trailer_is_not_checked 1000 camera
           (take 20 parser_frame) [x01; x02; x03; x04; x05; x06; x07; x08]
           (replicate 4 x00 ++ magic_footer) (replicate 8 xff));
    [reflexivity | reflexivity | reflexivity | cbn; lia | cbn; lia].
Defined.

(** An acknowledgement without payload, for the query under way. *)
Lemma control_frames_without_effect_witness :
  Device.handleData 2000 ack_frame querying = (Ok (), querying).
Proof.
  apply (Receive_facts.control_frames_without_effect 2000 querying
           ack_head [] (uint32BE 0 ++ magic_footer));
    [reflexivity | reflexivity | reflexivity | cbn; lia | left; reflexivity].
Defined.

(** The reply to the status query under way, from the wire to the
    call. *)
Lemma response_frame_resolves_call_witness :
  let st' := (Device.handleData 2000
                (status_reply_head ++ status_reply_cipher ++ uint32BE 0 ++ magic_footer)
                querying).2 in
  Device.promises st' !! 0%nat = Some (Device.Resolved status_reply)
  /\ Device.listeners st' !! 1 = None.
Proof.
  destruct (Receive_facts.response_frame_resolves_call 2000 querying
              status_reply_head status_reply_text status_reply_cipher
              (uint32BE 0 ++ magic_footer) (Device.Handler 1 0) status_reply wf_querying)
    as (H1 & H2 & _);
    [vm_compute; reflexivity | vm_compute; reflexivity | vm_compute; reflexivity
    | vm_compute; lia | vm_compute; reflexivity | vm_compute; reflexivity
    | vm_compute; discriminate | vm_compute; reflexivity | vm_compute; reflexivity
    | vm_compute; reflexivity |].
  split; [exact H1 | exact H2].
Defined.

(** A status query on a connection that was never opened. *)
Lemma command_that_cannot_be_sent_witness :
  let sent := Device.sendCommand 1000 0x0a status_query (Device.initial "cam01" key16) in
  Device.promises sent.2 !! sent.1 = Some (Device.Rejected NotConnected)
  /\ Device.sequence sent.2 = 0
  /\ Device.outputs sent.2 = [].
Proof.
  destruct (Send_facts.command_that_cannot_be_sent 1000 0x0a status_query
              (Device.initial "cam01" key16)) as (_ & H2 & H3 & H4 & _);
    [left; reflexivity|].
  repeat split; assumption.
Defined.

Lemma sequence_counter_does_not_wrap_witness :
  let sent := Device.sendCommand 1000 0x0a status_query worn in
  Device.promises sent.2 !! sent.1 = Some (Device.Rejected RangeError)
  /\ Device.sequence sent.2 = 0x100000000
  /\ Device.outputs sent.2 = [].
Proof.
  destruct (Send_facts.sequence_counter_does_not_wrap 1000 0x0a status_query worn)
    as (H1 & H2 & H3 & _);
    [reflexivity | reflexivity | cbn; lia |].
  repeat split; assumption.
Defined.

(** The status query sent at time 1000 on a fresh connection, never
    answered. *)
Lemma every_pending_call_times_out_witness :
  let st := Device.run [Device.Connect; Device.Send 1000 0x0a status_query]
                       (Device.initial "cam01" key16) in
  Device.promises (Device.advance 6000 st) !! 0%nat
  = Some (Device.Rejected CommandTimeout).
Proof.
  intros st.
  destruct (Send_facts.every_pending_call_times_out "cam01" key16
              [Device.Connect; Device.Send 1000 0x0a status_query] 0%nat)
    as (t & Ht & _ & Hrej);
    [vm_compute; reflexivity|].
  apply Hrej.
  assert (Device.timers st = [Device.Timer 1 6000 (Device.RejectCall 0)]) as Htimers
    by (vm_compute; reflexivity).
  fold st in Ht. rewrite Htimers in Ht. apply list_elem_of_singleton in Ht.
  subst t. cbn. lia.
Defined.

(** Motion pushes at times 1000 and 11000. *)
Lemma motion_clear_is_not_postponed_witness :
  let st1 := (Device.handlePayload 1000 8 0 motion_push camera).2 in
  let st2 := (Device.handlePayload 11000 8 0 motion_push st1).2 in
  let st3 := Device.advance 31000 st2 in
  Device.outputs st2 = [Device.EmitMotion true; Device.EmitMotion true]
  /\ motion_clear 1 11000 ∈ Device.timers st3.
Proof.
  destruct (Motion_facts.motion_clear_is_not_postponed camera 1000 11000 0 0
              motion_push motion_push Scenario_facts.wf_camera)
    as (H1 & _ & H3 & _);
    [reflexivity | reflexivity | lia |].
  split; [exact H1 | exact H3].
Defined.

(** The motion switch read from the reply to a status query. *)
Lemma getMotionStatus_answers_witness :
  let sent := Commands.getMotionStatus 1000 camera in
  Commands.getMotionStatus_settled sent.1 sent.2 = None
  /\ Commands.getMotionStatus_settled sent.1 (Device.advance 6000 sent.2)
     = Some (VBool false)
  /\ Commands.getMotionStatus_settled sent.1
       (Device.handlePayload 2000 0x0a 1 status_reply sent.2).2
     = Some (VBool true).
Proof.
  destruct (Motion_facts.getMotionStatus_answers 1000 camera Scenario_facts.wf_camera)
    as (_ & _ & Hsent).
  destruct Hsent as (H1 & H2 & H3); [vm_compute; reflexivity|].
  split; [exact H1|]. split; [exact H2|].
  apply (H3 2000 0x0a [("dps", VObj [("134", VBool true)])]%string
            [("134", VBool true)]%string eq_refl).
Defined.

(** Two equal plaintext blocks give two equal ciphertext blocks. *)
Lemma each_block_is_encrypted_alone_witness :
  exists encrypted,
    Cipher.aes_128_ecb_encrypt key16 two_equal_blocks = Ok encrypted
    /\ length encrypted = 48%nat
    /\ block 0 encrypted = block 1 encrypted.
Proof.
  eexists. split; [vm_compute; reflexivity|].
  destruct (Codebook_facts.each_block_is_encrypted_alone key16 two_equal_blocks _
              ltac:(vm_compute; reflexivity)) as (H1 & _ & H3).
  split; [exact H1|].
  apply (H3 two_equal_blocks _ 0%nat 1%nat ltac:(vm_compute; reflexivity));
    [cbn; lia | cbn; lia | reflexivity].
Defined.

(** [controlPTZ('up')] as the first command of a connection. *)
Lemma sent_command_reads_back_witness :
  exists packet,
    Device.outputs (Commands.controlPTZ Commands.up 1000 camera).2
    = [Device.SocketWrite packet]
    /\ readUInt32BE packet 4 = Ok 7
    /\ readUInt32BE packet 8 = Ok 1.
Proof.
  destruct (Codebook_facts.sent_command_reads_back 1000 0x07
              (Commands.ptz_payload Commands.up) camera)
    as [(packet & encrypted & H1 & H2 & H3 & _) _];
    [vm_compute; reflexivity|].
  exists packet. repeat split; assumption.
Defined.

End Case_facts.

(** ** Streaming delegate: sessions and FFmpeg processes *)

Module Delegate_facts.
Import Delegate.

Ltac fields :=
  cbn [store sessions starting fresh outputs emit fst snd
       address videoPort videoSRTP videoSSRC audioPort audioSRTP audioSSRC
       ffmpeg ffmpegAudio w_session w_video] in *.

Lemma outputs_kill p st : exists more, outputs (kill p st) = outputs st ++ more.
Proof.
  destruct p as [p|]; cbn [kill]; [eexists; reflexivity|].
  exists []. symmetry. apply app_nil_r.
Qed.

Lemma kill_keeps p st :
  store (kill p st) = store st /\ sessions (kill p st) = sessions st
  /\ starting (kill p st) = starting st /\ fresh (kill p st) = fresh st.
Proof. destruct p; repeat split. Qed.

Lemma killed_by_kill q p st :
  Kill q ∈ outputs (kill p st) -> Kill q ∈ outputs st \/ p = Some q.
Proof.
  destruct p as [p|]; cbn [kill]; [|left; assumption]. fields.
  intros Hin. apply elem_of_app in Hin as [Hin|Hin]; [left; exact Hin|].
  apply list_elem_of_singleton in Hin. right. congruence.
Qed.

(** What [stopStream] kills is held by the session object on the map. *)
Lemma killed_by_stopStream q id st :
  Kill q ∈ outputs (stopStream id st) ->
  Kill q ∈ outputs st
  \/ exists ref s, sessions st !! id = Some ref /\ store st !! ref = Some s
                   /\ (ffmpeg s = Some q \/ ffmpegAudio s = Some q).
Proof.
  unfold stopStream. fields.
  destruct (sessions st !! id) as [ref|] eqn:Hid; [|left; assumption].
  destruct (store st !! ref) as [s|] eqn:Hs; [|left; assumption].
  intros Hin. apply killed_by_kill in Hin as [Hin|Hin].
  - apply killed_by_kill in Hin as [Hin|Hin]; [left; exact Hin|].
    right. exists ref, s. split; [reflexivity|]. split; [exact Hs|]. left. exact Hin.
  - right. exists ref, s. split; [reflexivity|]. split; [exact Hs|]. right. exact Hin.
Qed.

Lemma stopStream_keeps id st :
  store (stopStream id st) = store st
  /\ sessions (stopStream id st) = delete id (sessions st)
  /\ starting (stopStream id st) = starting st
  /\ fresh (stopStream id st) = fresh st.
Proof.
  unfold stopStream. fields.
  destruct (sessions st !! id) as [ref|]; [|repeat split].
  destruct (store st !! ref) as [s|]; [|repeat split].
  destruct (kill_keeps (ffmpeg s) st) as (H1 & H2 & H3 & H4).
  destruct (kill_keeps (ffmpegAudio s) (kill (ffmpeg s) st)) as (G1 & G2 & G3 & G4).
  rewrite G1, G2, G3, G4, H1, H2, H3, H4. repeat split.
Qed.

Section with_text.
Context `{NodeText}.

(** *** Reachable states are tidy *)

Lemma tidy_initial : tidy initial.
Proof.
  split; cbn; intros *; try (rewrite lookup_empty; discriminate).
  intros Hin. apply elem_of_nil in Hin. contradiction.
Qed.

Lemma tidy_step st e : tidy st -> tidy (step st e).
Proof.
  intros [Ts Tf Ta Tk]. destruct e as [request v a|[id vi|id|id]|k b]; cbn [step].
  - unfold prepareStream. split; fields.
    + intros id ref Hl. destruct (decide (id = p_sessionID request)) as [->|Hne].
      * rewrite lookup_insert_eq in Hl. injection Hl as <-. lia.
      * rewrite lookup_insert_ne in Hl by congruence. apply Ts in Hl. lia.
    + intros ref s p Hl Hp. destruct (decide (ref = fresh st)) as [->|Hne].
      * rewrite lookup_insert_eq in Hl. injection Hl as <-. discriminate.
      * rewrite lookup_insert_ne in Hl by congruence.
        pose proof (Tf _ _ _ Hl Hp). lia.
    + intros ref s Hl. destruct (decide (ref = fresh st)) as [->|Hne].
      * rewrite lookup_insert_eq in Hl. injection Hl as <-. reflexivity.
      * rewrite lookup_insert_ne in Hl by congruence. apply (Ta _ _ Hl).
    + intros p Hin. apply elem_of_app in Hin as [Hin|Hin].
      * apply Tk in Hin. lia.
      * apply list_elem_of_singleton in Hin. discriminate.
  - cbn [handleStreamRequest]. unfold startStream.
    destruct (sessions st !! id) as [ref|]; split; fields; try assumption.
    intros p Hin. apply elem_of_app in Hin as [Hin|Hin]; [apply Tk, Hin|].
    apply list_elem_of_singleton in Hin. discriminate.
  - cbn [handleStreamRequest]. split; fields; try assumption.
    intros p Hin. apply elem_of_app in Hin as [Hin|Hin]; [apply Tk, Hin|].
    apply list_elem_of_singleton in Hin. discriminate.
  - cbn [handleStreamRequest].
    destruct (stopStream_keeps id st) as (H1 & H2 & H3 & H4).
    split; fields; rewrite ?H1, ?H2, ?H4.
    + intros id' ref Hl. apply lookup_delete_Some in Hl as [_ Hl]. apply (Ts _ _ Hl).
    + exact Tf.
    + exact Ta.
    + intros p Hin. apply elem_of_app in Hin as [Hin|Hin];
        [|apply list_elem_of_singleton in Hin; discriminate].
      apply killed_by_stopStream in Hin as [Hin|(ref & s & _ & Hs & [Hp|Hp])].
      * apply Tk, Hin.
      * apply (Tf _ _ _ Hs Hp).
      * rewrite (Ta _ _ Hs) in Hp. discriminate.
  - unfold resume. destruct (starting st !! k) as [[ref vi]|]; [|split; assumption].
    destruct (store st !! ref) as [s|] eqn:Hs; [|split; assumption].
    split; fields.
    + intros id' ref' Hl. apply Ts in Hl. lia.
    + intros ref' s' p Hl Hp. destruct (decide (ref' = ref)) as [->|Hne].
      * rewrite lookup_insert_eq in Hl. injection Hl as <-. fields.
        injection Hp as <-. lia.
      * rewrite lookup_insert_ne in Hl by congruence.
        pose proof (Tf _ _ _ Hl Hp). lia.
    + intros ref' s' Hl. destruct (decide (ref' = ref)) as [->|Hne].
      * rewrite lookup_insert_eq in Hl. injection Hl as <-. fields. apply (Ta _ _ Hs).
      * rewrite lookup_insert_ne in Hl by congruence. apply (Ta _ _ Hl).
    + intros p Hin. rewrite <- app_assoc in Hin.
      apply elem_of_app in Hin as [Hin|Hin]; [apply Tk in Hin; lia|].
      apply elem_of_cons in Hin as [Hin|Hin]; [discriminate|].
      apply list_elem_of_singleton in Hin. discriminate.
Qed.

Lemma tidy_run events st : tidy st -> tidy (run events st).
Proof.
  revert st. induction events as [|e events IH]; intros st T; [exact T|].
  cbn [run fold_left]. apply IH, tidy_step, T.
Qed.

(** *** A process no session on the map holds is never killed *)

Lemma out_of_reach_step process st e :
  out_of_reach process st ->
  out_of_reach process (step st e)
  /\ (Kill process ∈ outputs (step st e) -> Kill process ∈ outputs st).
Proof.
  intros [Rf Rs]. destruct e as [request v a|[id vi|id|id]|k b]; cbn [step].
  - unfold prepareStream. split; [split|]; fields.
    + lia.
    + intros id ref s Hl Hs. destruct (decide (ref = fresh st)) as [->|Hne].
      * rewrite lookup_insert_eq in Hs. injection Hs as <-. split; discriminate.
      * rewrite lookup_insert_ne in Hs by congruence.
        destruct (decide (id = p_sessionID request)) as [->|Hid].
        -- rewrite lookup_insert_eq in Hl. congruence.
        -- rewrite lookup_insert_ne in Hl by congruence. apply (Rs _ _ _ Hl Hs).
    + intros Hin. apply elem_of_app in Hin as [Hin|Hin]; [exact Hin|].
      apply list_elem_of_singleton in Hin. discriminate.
  - cbn [handleStreamRequest]. unfold startStream.
    destruct (sessions st !! id) as [ref|]; (split; [split|]); fields;
      try assumption; [intros Hin; exact Hin|].
    intros Hin. apply elem_of_app in Hin as [Hin|Hin]; [exact Hin|].
    apply list_elem_of_singleton in Hin. discriminate.
  - cbn [handleStreamRequest]. split; [split|]; fields; try assumption.
    intros Hin. apply elem_of_app in Hin as [Hin|Hin]; [exact Hin|].
    apply list_elem_of_singleton in Hin. discriminate.
  - cbn [handleStreamRequest].
    destruct (stopStream_keeps id st) as (H1 & H2 & H3 & H4).
    split; [split|]; fields; rewrite ?H1, ?H2, ?H4.
    + exact Rf.
    + intros id' ref s Hl Hs. apply lookup_delete_Some in Hl as [_ Hl].
      apply (Rs _ _ _ Hl Hs).
    + intros Hin. apply elem_of_app in Hin as [Hin|Hin];
        [|apply list_elem_of_singleton in Hin; discriminate].
      apply killed_by_stopStream in Hin as [Hin|(ref & s & Hl & Hs & Hp)];
        [exact Hin|].
      destruct (Rs _ _ _ Hl Hs) as [Hf Ha]. destruct Hp; contradiction.
  - unfold resume. destruct (starting st !! k) as [[ref vi]|]; [|split; [split|]; auto].
    destruct (store st !! ref) as [s|] eqn:Hs; [|split; [split|]; auto].
    split; [split|]; fields.
    + lia.
    + intros id' ref' s' Hl Hs'. destruct (decide (ref' = ref)) as [->|Hne].
      * rewrite lookup_insert_eq in Hs'. injection Hs' as <-. fields.
        split; [intros E; injection E as E; lia|].
        destruct (sessions st !! id') as [r|] eqn:Hr; [|discriminate].
        injection Hl as ->. apply (Rs _ _ _ Hr Hs).
      * rewrite lookup_insert_ne in Hs' by congruence. apply (Rs _ _ _ Hl Hs').
    + intros Hin. rewrite <- app_assoc in Hin.
      apply elem_of_app in Hin as [Hin|Hin]; [exact Hin|].
      apply elem_of_cons in Hin as [Hin|Hin]; [discriminate|].
      apply list_elem_of_singleton in Hin. discriminate.
Qed.

Lemma out_of_reach_run process events st :
  out_of_reach process st -> Kill process ∉ outputs st ->
  Kill process ∉ outputs (run events st).
Proof.
  revert st. induction events as [|e events IH]; intros st R Hno; [exact Hno|].
  cbn [run fold_left]. destruct (out_of_reach_step process st e R) as [R' Hk].
  apply IH; [exact R'|]. intros Hin. apply Hno, Hk, Hin.
Qed.

(** *** A stream that is prepared, started and stopped *)

Lemma prepared_then_started events request videoSSRC audioSSRC videoInfo :
  let st := run events initial in
  let f := fresh st in
  let st2 := handleStreamRequest (START (p_sessionID request) videoInfo)
               (prepareStream request videoSSRC audioSSRC st) in
  tidy st
  /\ store st2 = <[f := new_session request videoSSRC audioSSRC]> (store st)
  /\ sessions st2 = <[p_sessionID request := f]> (sessions st)
  /\ starting st2 = starting st ++ [Waiting f videoInfo]
  /\ fresh st2 = S f
  /\ exists response, outputs st2 = outputs st ++ [PrepareCallback response].
Proof.
  intros st f st2. split; [apply tidy_run, tidy_initial|].
  subst st2. cbn [handleStreamRequest]. unfold startStream, prepareStream. fields.
  rewrite lookup_insert_eq. fields. repeat split. eexists. reflexivity.
Qed.

(** The FFmpeg process and the order of START and STOP.  A stream is
    prepared and a START for it arrives; the call waits for the stream
    source.  When the source is ready first, FFmpeg is spawned with the
    SSRC, the SRTP key and salt, the address and the port of the prepared
    session, and the STOP that follows kills that process and takes the
    session off the map.  When the STOP comes first, it finds no process
    to kill and takes the session off the map; the waiting call then
    spawns FFmpeg all the same, and whatever is asked of the delegate
    afterwards, that process is never killed. *)
Theorem ffmpeg_and_the_order_of_stop
    events request videoSSRC audioSSRC videoInfo decoder_started :
  let st := run events initial in
  let id := p_sessionID request in
  let st2 := handleStreamRequest (START id videoInfo)
               (prepareStream request videoSSRC audioSSRC st) in
  let k := length (starting st) in
  let process := S (fresh st) in
  let args := ffmpegArgs (getStreamSource decoder_started) videoInfo
                (new_session request videoSSRC audioSSRC) in
  (let st3 := resume k decoder_started st2 in
   let st4 := handleStreamRequest (STOP id) st3 in
   outputs st3 = outputs st2 ++ [Spawn process args; StreamCallback None]
   /\ outputs st4 = outputs st3 ++ [Kill process; StreamCallback None]
   /\ sessions st4 !! id = None)
  /\ (let st3 := handleStreamRequest (STOP id) st2 in
      let st4 := resume k decoder_started st3 in
      outputs st3 = outputs st2 ++ [StreamCallback None]
      /\ sessions st3 !! id = None
      /\ outputs st4 = outputs st3 ++ [Spawn process args; StreamCallback None]
      /\ forall later, Kill process ∉ outputs (run later st4)).
Proof.
  intros st id st2 k process args.
  destruct (prepared_then_started events request videoSSRC audioSSRC videoInfo)
    as (T & Hstore & Hsessions & Hstarting & Hfresh & response & Houtputs).
  fold st id st2 in T, Hstore, Hsessions, Hstarting, Hfresh, Houtputs.
  set (session := new_session request videoSSRC audioSSRC) in *.
  assert (starting st2 !! k = Some (Waiting (fresh st) videoInfo)) as Hk
    by (rewrite Hstarting; apply list_lookup_middle; reflexivity).
  assert (store st2 !! fresh st = Some session) as Hs
    by (rewrite Hstore; apply lookup_insert_eq).
  assert (sessions st2 !! id = Some (fresh st)) as Hid
    by (rewrite Hsessions; apply lookup_insert_eq).
  assert (ffmpeg session = None) as Hnone by reflexivity.
  assert (ffmpegAudio session = None) as Haudio by reflexivity.
  split.
  - cbv zeta. unfold resume. rewrite Hk, Hs, Hfresh. fields.
    split; [rewrite <- app_assoc; reflexivity|].
    cbn [handleStreamRequest]. unfold stopStream. fields.
    rewrite Hid, lookup_insert_eq. fields. rewrite Haudio. cbn [kill]. fields.
    split; [rewrite <- !app_assoc; reflexivity | apply lookup_delete_eq].
  - cbv zeta. cbn [handleStreamRequest]. unfold stopStream. fields.
    rewrite Hid, Hs, Hnone, Haudio. cbn [kill]. fields.
    split; [reflexivity|]. split; [apply lookup_delete_eq|].
    unfold resume. fields. rewrite Hk, Hs, Hfresh. fields.
    split; [rewrite <- app_assoc; reflexivity|].
    intros later. apply out_of_reach_run.
    + split; fields; [subst process; lia|].
      intros id' ref s Hl Hr.
      apply lookup_delete_Some in Hl as [Hne Hl].
      rewrite Hsessions, lookup_insert_ne in Hl by congruence.
      pose proof (tidy_sessions st T _ _ Hl) as Href.
      rewrite lookup_insert_ne in Hr by lia.
      rewrite Hstore, lookup_insert_ne in Hr by lia.
      split.
      * intros Hp. pose proof (tidy_ffmpeg st T _ _ _ Hr Hp). subst process. lia.
      * rewrite (tidy_audio st T _ _ Hr). discriminate.
    + fields. rewrite Houtputs. intros Hin.
      repeat (apply elem_of_app in Hin as [Hin|Hin]);
        try (apply list_elem_of_singleton in Hin; discriminate).
      pose proof (tidy_killed st T _ Hin). subst process. lia.
Qed.

(** The writes to the FFmpeg pipe for one ['videoData'] event: data that
    begins with the H.264 start code 00 00 00 01 is written as it is, any
    other data after a start code; either way the bytes written begin
    with the start code and end with the data, and writing them again
    would add nothing. *)
Theorem video_writes_begin_with_start_code data :
  (slice data 0 4 = nal_start_code -> on_videoData data = [data])
  /\ (slice data 0 4 <> nal_start_code -> on_videoData data = [nal_start_code; data])
  /\ slice (concat (on_videoData data)) 0 4 = nal_start_code
  /\ on_videoData (concat (on_videoData data)) = [concat (on_videoData data)].
Proof.
  assert (forall d, slice (nal_start_code ++ d) 0 4 = nal_start_code) as Hprefix.
  { intros d. rewrite Buffer_facts.slice_prefix
      by (unfold blen; rewrite length_app; cbn [length nal_start_code]; lia).
    reflexivity. }
  unfold on_videoData.
  destruct (decide (slice data 0 4 = nal_start_code)) as [Hyes|Hno].
  - rewrite bool_decide_eq_true_2 by exact Hyes. cbn [concat]. rewrite app_nil_r.
    rewrite bool_decide_eq_true_2 by exact Hyes.
    split; [reflexivity|]. split; [contradiction|]. split; [exact Hyes | reflexivity].
  - rewrite bool_decide_eq_false_2 by exact Hno. cbn [concat]. rewrite app_nil_r.
    rewrite bool_decide_eq_true_2 by apply Hprefix.
    split; [contradiction|]. split; [reflexivity|]. split; [apply Hprefix | reflexivity].
Qed.

End with_text.

End Delegate_facts.

(** ** The platform: what [discoverDevices] sets up and what it removes *)

Module Platform_facts.
Import Platform.

Section with_uuid.
Variable generate : string -> string.

Lemma find_accessory_Some (uuid : string) (st : state) (r : ref) :
  find_accessory uuid st = Some r ->
  r ∈ accessories st /\ exists a, heap st !! r = Some a /\ UUID a = uuid.
Proof.
  unfold find_accessory. intros H.
  destruct (list_find _ _) as [[i r']|] eqn:Hfind; [|discriminate].
  cbn in H. injection H as ->.
  apply list_find_Some in Hfind as (Hi & Hr & _).
  split; [eapply list_elem_of_lookup_2; eassumption|].
  destruct (heap st !! r) as [a|]; [|discriminate].
  exists a. split; [reflexivity|]. cbn in Hr. congruence.
Qed.

Lemma find_accessory_None (uuid : string) (st : state) :
  find_accessory uuid st = None <->
  Some uuid ∉ (fun r => UUID <$> heap st !! r) <$> accessories st.
Proof.
  unfold find_accessory. split.
  - intros H. destruct (list_find _ _) as [[i r']|] eqn:Hfind; [discriminate|].
    intros (r & Hr & Hin)%list_elem_of_fmap.
    rewrite list_find_None, Forall_forall in Hfind.
    apply (Hfind r Hin). congruence.
  - intros H. destruct (list_find _ _) as [[i r']|] eqn:Hfind; [|reflexivity].
    exfalso. apply H. apply list_find_Some in Hfind as (Hi & Hr & _).
    apply list_elem_of_fmap. exists r'.
    split; [congruence | eapply list_elem_of_lookup_2; eassumption].
Qed.

Lemma new_ref_not_cached (st : state) : new_ref st ∉ accessories st.
Proof.
  unfold new_ref. intros H.
  apply (is_fresh (dom (heap st) ∪ list_to_set (accessories st) : gset ref)).
  apply elem_of_union. right. apply elem_of_list_to_set. exact H.
Qed.

Lemma missing_false (s : option string) :
  missing s = false -> exists x, s = Some x /\ x <> EmptyString.
Proof.
  destruct s as [x|]; [|discriminate]. cbn. intros H%String.eqb_neq. eauto.
Qed.

(** The three ways a turn of the loop goes. *)
Lemma discover_cases (st : state) (camera : CameraConfig) :
  discover generate st camera = st
  \/ (exists cid r a,
        id camera = Some cid /\ cid <> EmptyString /\ missing (key camera) = false
        /\ find_accessory (uuid_of generate cid) st = Some r
        /\ r ∈ accessories st
        /\ heap st !! r = Some a /\ UUID a = uuid_of generate cid
        /\ discover generate st camera
           = State (alter (set_device camera) r (heap st)) (accessories st)
                   (outputs st ++ [updatePlatformAccessories [r];
                                   newTuyaCameraAccessory r]))
  \/ (exists cid,
        id camera = Some cid /\ cid <> EmptyString /\ missing (key camera) = false
        /\ find_accessory (uuid_of generate cid) st = None
        /\ discover generate st camera
           = State (<[new_ref st :=
                        {| UUID := uuid_of generate cid; displayName := name camera;
                           device := Some camera; category := Some CAMERA |}]>
                      (heap st))
                   (accessories st)
                   (outputs st ++ [newTuyaCameraAccessory (new_ref st);
                                   registerPlatformAccessories [new_ref st]])).
Proof.
  unfold discover.
  destruct (id camera) as [cid|] eqn:Hid; [|left; reflexivity].
  destruct (missing (Some cid) || missing (key camera)) eqn:Hm; [left; reflexivity|].
  apply orb_false_iff in Hm as [Hc Hk].
  apply missing_false in Hc as (x & [= <-] & Hx).
  destruct (find_accessory _ st) as [r|] eqn:Hfind.
  - right. left. destruct (find_accessory_Some _ _ _ Hfind) as (Hin & a & Ha & Hu).
    exists cid, r, a. repeat (split; [assumption || reflexivity|]). reflexivity.
  - right. right. exists cid. repeat (split; [assumption || reflexivity|]). reflexivity.
Qed.

Lemma discover_accessories (st : state) (camera : CameraConfig) :
  accessories (discover generate st camera) = accessories st.
Proof.
  destruct (discover_cases st camera)
    as [-> | [(cid & r & a & _ & _ & _ & _ & _ & _ & _ & ->)
             | (cid & _ & _ & _ & _ & ->)]]; reflexivity.
Qed.

Lemma fold_discover_accessories (cameras : list CameraConfig) (st : state) :
  accessories (fold_left (discover generate) cameras st) = accessories st.
Proof.
  revert st. induction cameras as [|c l IH]; intros st; [reflexivity|].
  cbn [fold_left]. rewrite IH. apply discover_accessories.
Qed.

(** A turn leaves an object as it was or sets it up for its camera. *)
Lemma discover_heap (cameras : list CameraConfig) (st : state)
    (camera : CameraConfig) (r : ref) :
  camera ∈ cameras ->
  heap (discover generate st camera) !! r = heap st !! r
  \/ set_up generate cameras (discover generate st camera) r.
Proof.
  intros Hin.
  destruct (discover_cases st camera)
    as [-> | [(cid & r' & a & Hid & Hne & Hk & _ & _ & Ha & Hu & ->)
             | (cid & Hid & Hne & Hk & _ & ->)]]; [left; reflexivity| |].
  - cbn [heap]. destruct (decide (r = r')) as [->|Hr].
    + right. exists (set_device camera a), camera, cid. cbn [heap].
      rewrite lookup_alter_eq, Ha. repeat split; assumption.
    + left. apply lookup_alter_ne. congruence.
  - cbn [heap]. destruct (decide (r = new_ref st)) as [->|Hr].
    + right. eexists _, camera, cid. cbn [heap].
      rewrite lookup_insert_eq. repeat split; assumption.
    + left. apply lookup_insert_ne. congruence.
Qed.

Lemma set_up_same (cameras : list CameraConfig) (st st' : state) (r : ref) :
  heap st' !! r = heap st !! r -> set_up generate cameras st r ->
  set_up generate cameras st' r.
Proof. unfold set_up. intros -> H. exact H. Qed.

Lemma set_up_discover (cameras : list CameraConfig) (st : state)
    (camera : CameraConfig) (r : ref) :
  camera ∈ cameras -> set_up generate cameras st r ->
  set_up generate cameras (discover generate st camera) r.
Proof.
  intros Hin Hs. destruct (discover_heap cameras st camera r Hin) as [H|H];
    [eapply set_up_same; eassumption | exact H].
Qed.

Lemma looped_start (cameras : list CameraConfig) (st : state) :
  looped generate cameras st st [].
Proof.
  split; [reflexivity | symmetry; apply app_nil_r | | left; reflexivity].
  intros o r H. apply elem_of_nil in H as [].
Qed.

Lemma looped_discover (cameras : list CameraConfig) (st0 st : state)
    (calls : list output) (camera : CameraConfig) :
  camera ∈ cameras -> looped generate cameras st0 st calls ->
  exists more, looped generate cameras st0 (discover generate st camera) (calls ++ more).
Proof.
  intros Hin [Hacc Hout Hcalls Hheap].
  assert (forall r, heap (discover generate st camera) !! r = heap st0 !! r
                    \/ set_up generate cameras (discover generate st camera) r) as Hh.
  { intros r. destruct (discover_heap cameras st camera r Hin) as [H|H];
      [|right; exact H].
    destruct (Hheap r) as [H0|H0]; [left; congruence|].
    right. eapply set_up_same; eassumption. }
  assert (forall o r, o ∈ calls -> r ∈ subjects o ->
            is_unregister o = false
            /\ set_up generate cameras (discover generate st camera) r) as Hold.
  { intros o r Ho Hr. destruct (Hcalls o r Ho Hr) as [Hu Hs].
    split; [exact Hu | apply set_up_discover; assumption]. }
  pose proof (discover_heap cameras st camera) as Hnow.
  destruct (discover_cases st camera)
    as [E | [(cid & r' & a & Hid & Hne & Hk & _ & _ & Ha & Hu & E)
            | (cid & Hid & Hne & Hk & _ & E)]]; rewrite E in *.
  - exists []. rewrite app_nil_r. split; assumption.
  - eexists [_; _]. split; cbn [accessories outputs];
      [assumption | rewrite Hout; symmetry; apply app_assoc | | assumption].
    intros o r [Ho|Ho]%elem_of_app Hr; [apply Hold; assumption|].
    assert (r = r') as ->.
    { apply elem_of_cons in Ho as [->|Ho];
        [|apply list_elem_of_singleton in Ho as ->];
        cbn in Hr; apply list_elem_of_singleton in Hr; exact Hr. }
    split.
    { apply elem_of_cons in Ho as [->|Ho];
        [|apply list_elem_of_singleton in Ho as ->]; reflexivity. }
    exists (set_device camera a), camera, cid. cbn [heap].
    rewrite lookup_alter_eq, Ha. repeat split; assumption.
  - eexists [_; _]. split; cbn [accessories outputs];
      [assumption | rewrite Hout; symmetry; apply app_assoc | | assumption].
    intros o r [Ho|Ho]%elem_of_app Hr; [apply Hold; assumption|].
    assert (r = new_ref st) as ->.
    { apply elem_of_cons in Ho as [->|Ho];
        [|apply list_elem_of_singleton in Ho as ->];
        cbn in Hr; apply list_elem_of_singleton in Hr; exact Hr. }
    split.
    { apply elem_of_cons in Ho as [->|Ho];
        [|apply list_elem_of_singleton in Ho as ->]; reflexivity. }
    eexists _, camera, cid. cbn [heap].
    rewrite lookup_insert_eq. repeat split; assumption.
Qed.

Lemma looped_fold (cameras : list CameraConfig) (st0 : state)
    (rest : list CameraConfig) :
  forall (st : state) (calls : list output),
    Forall (fun camera => camera ∈ cameras) rest -> looped generate cameras st0 st calls ->
    exists more, looped generate cameras st0 (fold_left (discover generate) rest st)
                        (calls ++ more).
Proof.
  induction rest as [|camera rest IH]; intros st calls Hsub Hl.
  - exists []. rewrite app_nil_r. exact Hl.
  - cbn [fold_left].
    apply Forall_cons in Hsub as [Hin Hsub].
    destruct (looped_discover cameras st0 st calls camera Hin Hl) as [more Hm].
    destruct (IH _ _ Hsub Hm) as [more' Hm'].
    exists (more ++ more'). rewrite app_assoc. exact Hm'.
Qed.

(** [discoverDevices] is its loop, then at most one call that unregisters. *)
Lemma discoverDevices_run (cameras : list CameraConfig) (st : state) :
  exists st1 loop,
    looped generate cameras st st1 loop
    /\ (cameras <> [] -> st1 = fold_left (discover generate) cameras st)
    /\ heap (discoverDevices generate (Some cameras) st) = heap st1
    /\ accessories (discoverDevices generate (Some cameras) st) = accessories st
    /\ (outputs (discoverDevices generate (Some cameras) st) = outputs st ++ loop
        \/ exists remove,
             (cameras <> [] -> remove = accessoriesToRemove cameras st1)
             /\ (forall r, r ∈ remove ->
                   r ∈ accessories st
                   /\ no_longer_configured (id <$> cameras) st1 r = true)
             /\ outputs (discoverDevices generate (Some cameras) st)
                = outputs st ++ loop ++ [unregisterPlatformAccessories remove]).
Proof.
  destruct cameras as [|camera cameras].
  { exists st, []. split; [apply looped_start|].
    repeat split; try reflexivity. left. symmetry. apply app_nil_r. }
  destruct (looped_fold (camera :: cameras) st (camera :: cameras) st [])
    as [loop Hl]; [apply Forall_forall; auto | apply looped_start |].
  cbn [app] in Hl. exists (fold_left (discover generate) (camera :: cameras) st), loop.
  split; [exact Hl|]. split; [reflexivity|].
  unfold discoverDevices.
  set (st1 := fold_left (discover generate) (camera :: cameras) st) in *.
  destruct (accessoriesToRemove (camera :: cameras) st1) as [|r0 remove] eqn:Hrem.
  - repeat split; [apply Hl|]. left. apply Hl.
  - cbn [heap accessories outputs]. repeat split; [apply Hl|].
    right. exists (r0 :: remove). split; [reflexivity|]. split.
    + intros r Hr. rewrite <- Hrem in Hr. unfold accessoriesToRemove in Hr.
      apply list_elem_of_In, List.filter_In in Hr as [Hin Hr].
      split; [|exact Hr]. rewrite <- (looped_accessories _ _ _ _ _ Hl).
      apply list_elem_of_In. exact Hin.
    + rewrite (looped_outputs _ _ _ _ _ Hl). symmetry. apply app_assoc.
Qed.

Lemma set_up_configured (cameras : list CameraConfig) (st : state) (r : ref) :
  set_up generate cameras st r ->
  no_longer_configured (id <$> cameras) st r = false.
Proof.
  intros (a & camera & cid & Ha & Hin & Hid & _ & _ & Hd & _).
  unfold no_longer_configured. rewrite Ha, Hd.
  apply negb_false_iff, bool_decide_eq_true.
  apply list_elem_of_fmap. exists camera. split; [reflexivity | exact Hin].
Qed.

(** *** Registrations *)

Lemma to_register_uuids (st st' : state) (camera : CameraConfig) :
  uuids st = uuids st' ->
  to_register generate st camera = to_register generate st' camera.
Proof. unfold to_register, uuids. intros ->. reflexivity. Qed.

Lemma uuids_ext (st st' : state) :
  accessories st' = accessories st ->
  (forall r, r ∈ accessories st ->
     UUID <$> heap st' !! r = UUID <$> heap st !! r) ->
  uuids st' = uuids st.
Proof.
  unfold uuids. intros -> H. apply list_eq_Forall2, Forall2_fmap, Forall_Forall2_diag.
  apply Forall_forall. exact H.
Qed.

Lemma counted_discover (st0 st : state) (calls : list output)
    (done : list CameraConfig) (camera : CameraConfig) :
  accessories st = accessories st0 ->
  counted generate st0 st calls done ->
  exists more,
    outputs (discover generate st camera) = outputs st ++ more
    /\ counted generate st0 (discover generate st camera) (calls ++ more) (done ++ [camera]).
Proof.
  intros Hacc [Hu Hdom Hcalls].
  destruct (discover_cases st camera)
    as [E | [(cid & r' & a & Hid & Hne & Hk & Hfind & Hin & Ha & Hua & E)
            | (cid & Hid & Hne & Hk & Hfind & E)]].
  - exists []. rewrite E, app_nil_r. split; [reflexivity|].
    assert (to_register generate st0 camera = false) as Hno.
    { rewrite <- (to_register_uuids st st0 camera Hu).
      revert E. unfold discover, to_register.
      destruct (id camera) as [cid|]; [|reflexivity].
      destruct (missing (Some cid) || missing (key camera)); [reflexivity|].
      destruct (find_accessory _ st) as [r|] eqn:Hfind.
      - intros _. cbn [negb andb]. apply negb_false_iff, bool_decide_eq_true.
        destruct (find_accessory_Some _ _ _ Hfind) as (Hin & a & Ha & Hua).
        apply list_elem_of_fmap. exists r. rewrite Ha. cbn. split; [congruence|exact Hin].
      - intros E. apply (f_equal outputs) in E. cbn [outputs] in E.
        apply (f_equal (@length _)) in E. rewrite length_app in E. cbn in E. lia. }
    split; [exact Hu | exact Hdom |].
    rewrite !List.filter_app. cbn [List.filter]. rewrite Hno, !app_nil_r. exact Hcalls.
  - eexists [_; _]. rewrite E. split; [reflexivity|].
    assert (to_register generate st0 camera = false) as Hno.
    { rewrite <- (to_register_uuids st st0 camera Hu). unfold to_register.
      rewrite Hid. apply andb_false_iff. right.
      apply negb_false_iff, bool_decide_eq_true.
      apply list_elem_of_fmap. exists r'. rewrite Ha. cbn. split; [congruence|exact Hin]. }
    split.
    + rewrite <- Hu. apply uuids_ext; [reflexivity|]. intros r Hr. cbn [heap].
      destruct (decide (r = r')) as [->|Hr'].
      * rewrite lookup_alter_eq, Ha. reflexivity.
      * rewrite lookup_alter_ne by congruence. reflexivity.
    + intros r Hr. cbn [heap]. apply lookup_alter_is_Some, Hdom, Hr.
    + rewrite !List.filter_app. cbn [List.filter is_register]. rewrite Hno, !app_nil_r.
      eapply Forall2_impl; [exact Hcalls|].
      intros o c (r & cid' & Ho & Hc & Hnot & H0 & Hr).
      exists r, cid'. cbn [heap accessories].
      repeat (split; [assumption|]).
      rewrite lookup_alter_ne; [exact Hr|]. intros <-. exact (Hnot Hin).
  - eexists [_; _]. rewrite E. split; [reflexivity|].
    assert (to_register generate st0 camera = true) as Hyes.
    { rewrite <- (to_register_uuids st st0 camera Hu). unfold to_register.
      rewrite Hid. apply andb_true_iff. split.
      - apply negb_true_iff, orb_false_iff. split; [|exact Hk].
        cbn. apply String.eqb_neq. exact Hne.
      - apply negb_true_iff, bool_decide_eq_false.
        apply find_accessory_None. exact Hfind. }
    assert (heap st !! new_ref st = None) as Hnew.
    { apply not_elem_of_dom. intros H.
      apply (is_fresh (dom (heap st) ∪ list_to_set (accessories st) : gset ref)).
      apply elem_of_union. left. exact H. }
    split.
    + rewrite <- Hu. apply uuids_ext; [reflexivity|]. intros r Hr. cbn [heap].
      rewrite lookup_insert_ne; [reflexivity|].
      intros <-. exact (new_ref_not_cached st Hr).
    + intros r Hr. cbn [heap]. apply lookup_insert_is_Some'. right. apply Hdom, Hr.
    + rewrite !List.filter_app. cbn [List.filter is_register]. rewrite Hyes.
      apply Forall2_app.
      * eapply Forall2_impl; [exact Hcalls|].
        intros o c (r & cid' & Ho & Hc & Hnot & H0 & Hr).
        exists r, cid'. cbn [heap accessories].
        repeat (split; [assumption|]).
        rewrite lookup_insert_ne; [exact Hr|]. intros <-. congruence.
      * constructor; [|constructor].
        exists (new_ref st), cid. cbn [heap accessories].
        split; [reflexivity|]. split; [exact Hid|].
        split; [apply new_ref_not_cached|]. split.
        { destruct (heap st0 !! new_ref st) eqn:H0; [|reflexivity].
          destruct (Hdom (new_ref st)) as [x Hx]; [eauto | congruence]. }
        apply lookup_insert_eq.
Qed.

Lemma counted_fold (st0 : state) (rest : list CameraConfig) :
  forall (st : state) (calls : list output) (done : list CameraConfig),
    accessories st = accessories st0 ->
    counted generate st0 st calls done ->
    exists more,
      outputs (fold_left (discover generate) rest st) = outputs st ++ more
      /\ counted generate st0 (fold_left (discover generate) rest st)
                 (calls ++ more) (done ++ rest).
Proof.
  induction rest as [|camera rest IH]; intros st calls done Hacc Hc.
  - exists []. rewrite !app_nil_r. split; [reflexivity | exact Hc].
  - cbn [fold_left].
    destruct (counted_discover st0 st calls done camera Hacc Hc) as (more & Ho & Hm).
    destruct (IH _ _ _ (eq_trans (discover_accessories st camera) Hacc) Hm)
      as (more' & Ho' & Hm').
    exists (more ++ more'). rewrite Ho', Ho, <- !app_assoc. split; [reflexivity|].
    rewrite <- app_assoc in Hm'. rewrite !app_assoc in Hm' |- *.
    rewrite <- (app_assoc done) in Hm'. exact Hm'.
Qed.

(** The accessories handed to [updatePlatformAccessories], to
    [registerPlatformAccessories] and to the accessory handler are, when
    [discoverDevices] returns, set up for a camera of the list that has an
    id and a key: [context.device] is that camera, the UUID is generated
    from its id behind the prefix, and the category is CAMERA. *)
Theorem handed_over_accessories_are_set_up
    (cameras : list CameraConfig) (st : state) :
  exists calls,
    outputs (discoverDevices generate (Some cameras) st) = outputs st ++ calls
    /\ forall o r,
         o ∈ calls -> is_unregister o = false -> r ∈ subjects o ->
         set_up generate cameras (discoverDevices generate (Some cameras) st) r.
Proof.
  destruct (discoverDevices_run cameras st)
    as (st1 & loop & Hl & _ & Hheap & _ & [Hout | (remove & _ & _ & Hout)]).
  - exists loop. split; [exact Hout|]. intros o r Ho _ Hr.
    eapply set_up_same; [rewrite Hheap; reflexivity|].
    apply (looped_calls _ _ _ _ _ Hl o r Ho Hr).
  - exists (loop ++ [unregisterPlatformAccessories remove]). split; [exact Hout|].
    intros o r [Ho|Ho]%elem_of_app Hu Hr.
    + eapply set_up_same; [rewrite Hheap; reflexivity|].
      apply (looped_calls _ _ _ _ _ Hl o r Ho Hr).
    + apply list_elem_of_singleton in Ho as ->. discriminate.
Qed.

(** An accessory that [discoverDevices] unregisters is a cached one that
    the run has not written to and has handed to no other call; its
    [context.device] is set and carries an id that no entry of the list
    has.  So nothing the run restores or registers is removed by it. *)
Theorem removed_accessories_were_left_alone
    (cameras : list CameraConfig) (st : state) :
  exists calls,
    outputs (discoverDevices generate (Some cameras) st) = outputs st ++ calls
    /\ forall remove r,
         unregisterPlatformAccessories remove ∈ calls -> r ∈ remove ->
         r ∈ accessories st
         /\ heap (discoverDevices generate (Some cameras) st) !! r = heap st !! r
         /\ (exists a d, heap st !! r = Some a /\ device a = Some d
                         /\ id d ∉ (id <$> cameras))
         /\ forall o, o ∈ calls -> r ∈ subjects o ->
                      o = unregisterPlatformAccessories remove.
Proof.
  destruct (discoverDevices_run cameras st)
    as (st1 & loop & Hl & _ & Hheap & _ & [Hout | (remove & _ & Hrem & Hout)]).
  - exists loop. split; [exact Hout|]. intros remove r Ho Hr.
    destruct (looped_calls _ _ _ _ _ Hl _ r Ho) as [Hu _]; [exact Hr | discriminate].
  - exists (loop ++ [unregisterPlatformAccessories remove]). split; [exact Hout|].
    intros remove' r [Ho|Ho]%elem_of_app Hr.
    { destruct (looped_calls _ _ _ _ _ Hl _ r Ho) as [Hu _]; [exact Hr | discriminate]. }
    apply list_elem_of_singleton in Ho as [= ->].
    destruct (Hrem r Hr) as [Hin Hno].
    assert (~ set_up generate cameras st1 r) as Hnot.
    { intros H%set_up_configured. congruence. }
    assert (heap st1 !! r = heap st !! r) as Hsame.
    { destruct (looped_heap _ _ _ _ _ Hl r) as [H|H]; [exact H | contradiction]. }
    split; [exact Hin|]. split; [rewrite Hheap; exact Hsame|]. split.
    + unfold no_longer_configured in Hno. rewrite Hsame in Hno.
      destruct (heap st !! r) as [a|]; [|discriminate].
      destruct (device a) as [d|] eqn:Hd; [|discriminate].
      exists a, d. repeat split; [exact Hd|].
      apply negb_true_iff, bool_decide_eq_false in Hno. exact Hno.
    + intros o [Ho|Ho]%elem_of_app Hs.
      * destruct (looped_calls _ _ _ _ _ Hl o r Ho Hs) as [_ H]. contradiction.
      * apply list_elem_of_singleton in Ho. exact Ho.
Qed.

(** [discoverDevices] registers one new accessory for each entry of the
    list that has an id and a key and whose UUID no cached accessory has,
    in the order of the list and once for every time the entry appears:
    the registered accessory is not added to [this.accessories], so a
    second entry with the same id is registered again. *)
Theorem each_entry_is_registered_anew (cameras : list CameraConfig) (st : state) :
  exists calls,
    outputs (discoverDevices generate (Some cameras) st) = outputs st ++ calls
    /\ accessories (discoverDevices generate (Some cameras) st) = accessories st
    /\ Forall2
         (fun o camera =>
            exists r cid,
              o = registerPlatformAccessories [r]
              /\ id camera = Some cid
              /\ (r ∉ accessories st)
              /\ heap st !! r = None
              /\ heap (discoverDevices generate (Some cameras) st) !! r
                 = Some {| UUID := uuid_of generate cid; displayName := name camera;
                           device := Some camera; category := Some CAMERA |})
         (List.filter is_register calls)
         (List.filter (to_register generate st) cameras).
Proof.
  destruct cameras as [|camera cameras].
  { exists []. cbn. rewrite app_nil_r. repeat split. constructor. }
  destruct (counted_fold st (camera :: cameras) st [] [] eq_refl)
    as (more & Hmore & [_ _ Hc]).
  { split; [reflexivity | intros r H; exact H | constructor]. }
  cbn [app] in Hc.
  assert (accessories (fold_left (discover generate) (camera :: cameras) st)
          = accessories st) as Hacc.
  { apply fold_discover_accessories. }
  unfold discoverDevices.
  set (st1 := fold_left (discover generate) (camera :: cameras) st) in *.
  assert (Forall2
            (fun o camera0 =>
               exists r cid,
                 o = registerPlatformAccessories [r]
                 /\ id camera0 = Some cid
                 /\ (r ∉ accessories st)
                 /\ heap st !! r = None
                 /\ heap st1 !! r
                    = Some {| UUID := uuid_of generate cid;
                              displayName := name camera0;
                              device := Some camera0; category := Some CAMERA |})
            (List.filter is_register more)
            (List.filter (to_register generate st) (camera :: cameras))) as Hc'.
  { eapply Forall2_impl; [exact Hc|].
    intros o c (r & cid & Ho & Hid & Hnot & H0 & Hr). exists r, cid.
    rewrite Hacc in Hnot. repeat (split; [assumption|]). exact Hr. }
  destruct (accessoriesToRemove (camera :: cameras) st1) as [|r0 remove].
  - exists more. split; [exact Hmore|]. split; [exact Hacc | exact Hc'].
  - exists (more ++ [unregisterPlatformAccessories (r0 :: remove)]).
    cbn [heap accessories outputs]. rewrite Hmore, app_assoc.
    split; [reflexivity|]. split; [exact Hacc|].
    rewrite List.filter_app. cbn [List.filter is_register]. rewrite app_nil_r.
    exact Hc'.
Qed.

End with_uuid.

End Platform_facts.
Example discoverDevices_run_case :
  Platform.outputs
    (Platform.discoverDevices (fun s => s)
       (Some [Platform_case.camera_a; Platform_case.camera_keyless;
              Platform_case.camera_c; Platform_case.camera_c])
       Platform_case.cached)
  = [Platform.updatePlatformAccessories [0%nat];
     Platform.newTuyaCameraAccessory 0%nat;
     Platform.newTuyaCameraAccessory 2%nat;
     Platform.registerPlatformAccessories [2%nat];
     Platform.newTuyaCameraAccessory 3%nat;
     Platform.registerPlatformAccessories [3%nat];
     Platform.unregisterPlatformAccessories [1%nat]].
Proof. vm_compute. reflexivity. Qed.
